(** * Redaction-Ai: the text-processing core of [src/utils/textUtils.ts]

    A shallow embedding of the six exported functions of [textUtils.ts]
    (edit distance, similarity, redaction, word diff, pattern detection and
    entity merging) together with the properties the specification states
    about them.

    Conventions of the embedding:
    - a JavaScript string is the list of its UTF-16 code units ([jsstring]);
      [s.length], [s[i]], [indexOf], [===] and the regular expressions used
      here (none has the [u] flag) all work on code units;
    - JavaScript integers (lengths, indices, table cells) are [Z]; the
      score of [calculateSimilarity], the one place with a division, is a
      rational;
    - every [while] loop takes a [fuel] and yields [None] when it runs out;
      [for] loops over a fixed range are folds over [seq]. *)

From Stdlib Require Import ZArith List Bool Lia Lqa String Ascii QArith Qminmax.
From stdpp Require Import base list gmap sets.

Local Open Scope Z_scope.

(** ** Strings *)

Module JS.

(** A string is the list of its UTF-16 code units.  Real strings only hold
    values below [65536]; nothing below depends on that bound. *)
Abbreviation code_unit := N (only parsing).

Abbreviation jsstring := (list N) (only parsing).

(** A string literal of the source, for the ASCII literals it contains. *)
Fixpoint lit (s : string) : jsstring :=
  match s with
  | EmptyString => []
  | String c r => N_of_ascii c :: lit r
  end.

(** [s.length] *)
Definition len (s : jsstring) : Z := Z.of_nat (length s).

(** [s.substring(a, b)] for [0 <= a <= b]. *)
Definition substring (s : jsstring) (a b : nat) : jsstring :=
  take (b - a) (drop a s).

(** [s[i]]: the code unit at [i], or [None] for [undefined]. *)
Definition at_index (s : jsstring) (i : nat) : option N := s !! i.

(** *** Code points

    The number of code points of a string, as the string iterator
    ([[...s].length]) counts them: a high surrogate immediately followed by a
    low surrogate is one code point, every other code unit is one by itself. *)
Definition is_high_surrogate (c : N) : bool := (N.leb 0xD800 c && N.leb c 0xDBFF)%N.
Definition is_low_surrogate (c : N) : bool := (N.leb 0xDC00 c && N.leb c 0xDFFF)%N.

Fixpoint code_point_count (s : jsstring) : nat :=
  match s with
  | [] => 0
  | c :: r =>
      match r with
      | d :: r' =>
          if is_high_surrogate c && is_low_surrogate d
          then S (code_point_count r')
          else S (code_point_count r)
      | [] => 1
      end
  end.

End JS.

Import JS.

(** ** Two-dimensional tables *)

Module Table.

(** [track[j][i]] of a two-dimensional array of numbers.  A [null] cell
    counts as [0] in arithmetic, so a table created with [fill(null)] or
    [fill(0)] is a table of zeros. *)
Definition get2 (track : list (list Z)) (j i : nat) : Z :=
  default 0 (track !! j ≫= (.!! i)).

(** [track[j][i] = v] *)
Definition set2 (track : list (list Z)) (j i : nat) (v : Z) : list (list Z) :=
  alter (<[i := v]>) j track.

(** [Array(rows).fill(null).map(() => Array(cols).fill(null))] *)
Definition new_table (rows cols : nat) : list (list Z) :=
  replicate rows (replicate cols 0).

End Table.

Import Table.

(** ** Edit distance: [calculateLevenshteinDistance] *)

Module Levenshtein.

(** [Math.min(a, b, c)] *)
Definition min3 (a b c : Z) : Z := Z.min a (Z.min b c).

(** [s1[i - 1] === s2[j - 1] ? 0 : 1] *)
Definition indicator (s1 s2 : jsstring) (i j : nat) : Z :=
  if bool_decide (at_index s1 (i - 1) = at_index s2 (j - 1)) then 0 else 1.

(** The body of the inner loop, at row [j] and column [i]. *)
Definition cell_step (s1 s2 : jsstring) (j : nat) (track : list (list Z)) (i : nat)
  : list (list Z) :=
  set2 track j i
    (min3 (get2 track j (i - 1) + 1)
          (get2 track (j - 1) i + 1)
          (get2 track (j - 1) (i - 1) + indicator s1 s2 i j)).

(** The inner loop: [for (i = 1; i <= s1.length; i += 1)]. *)
Definition row_step (s1 s2 : jsstring) (track : list (list Z)) (j : nat)
  : list (list Z) :=
  foldl (cell_step s1 s2 j) track (seq 1 (length s1)).

Definition init_first_row (n1 : nat) (track : list (list Z)) : list (list Z) :=
  foldl (fun t i => set2 t 0 i (Z.of_nat i)) track (seq 0 (S n1)).

Definition init_first_col (n2 : nat) (track : list (list Z)) : list (list Z) :=
  foldl (fun t j => set2 t j 0 (Z.of_nat j)) track (seq 0 (S n2)).

Definition fill_table (s1 s2 : jsstring) : list (list Z) :=
  let track := new_table (S (length s2)) (S (length s1)) in
  let track := init_first_row (length s1) track in
  let track := init_first_col (length s2) track in
  foldl (row_step s1 s2) track (seq 1 (length s2)).

Definition calculateLevenshteinDistance (s1 s2 : jsstring) : Z :=
  get2 (fill_table s1 s2) (length s2) (length s1).

End Levenshtein.

Import Levenshtein.

(** ** Similarity: [calculateSimilarity]

    The score is a JavaScript number.  Each of the three operations of the
    body ([-], [/], [*]) yields the rounding [rnd] of its exact rational
    result; [calculateSimilarity] is the function with exact arithmetic
    ([rnd] the identity), and the facts on the range of the score are also
    shown for every rounding that has the properties of the rounding of
    doubles that they need. *)

Module Similarity.

Definition Math_max (a b : Q) : Q := Qmax a b.

Definition calculateSimilarity_rounded (rnd : Q -> Q)
    (original redacted : jsstring) (distance : Q) : Q :=
  let maxLength := Z.max (len original) (len redacted) in
  if maxLength =? 0 then 100%Q
  else Math_max 0
         (rnd (rnd (rnd (inject_Z maxLength - distance) / inject_Z maxLength) * 100))%Q.

Definition calculateSimilarity (original redacted : jsstring) (distance : Q) : Q :=
  calculateSimilarity_rounded (fun x => x) original redacted distance.

End Similarity.

Import Similarity.

(** ** Entities ([src/types.ts]) *)

Inductive EntityType :=
| PERSON | LOCATION | EMAIL_ADDRESS | IP_ADDRESS
| PHONE_NUMBER | CREDIT_CARD | DATE_TIME | URL.

#[global] Instance EntityType_eq_dec : EqDecision EntityType.
Proof. solve_decision. Defined.

(** The string value of each enum member. *)
Definition type_name (t : EntityType) : string :=
  match t with
  | PERSON => "PERSON" | LOCATION => "LOCATION"
  | EMAIL_ADDRESS => "EMAIL_ADDRESS" | IP_ADDRESS => "IP_ADDRESS"
  | PHONE_NUMBER => "PHONE_NUMBER" | CREDIT_CARD => "CREDIT_CARD"
  | DATE_TIME => "DATE_TIME" | URL => "URL"
  end.

Record DetectedEntity := mkEntity {
  text : jsstring;
  type : EntityType;
  startIndex : option Z;
  endIndex : option Z
}.

#[global] Instance DetectedEntity_eq_dec : EqDecision DetectedEntity.
Proof. solve_decision. Defined.

(** [{ text, type }], as the detectors and the extractor create entities. *)
Definition entity (t : jsstring) (ty : EntityType) : DetectedEntity :=
  mkEntity t ty None None.

Inductive RedactionMode := REMOVE | MASK.

Inductive DiffKind := match_ | mismatch_actual | mismatch_expected.

Record DiffChunk := mkChunk { value : jsstring; kind : DiffKind }.

(** ** Entity merging: [mergeEntities] *)

Module Merge.

(** [new Set(aiEntities.map(e => e.text))] *)
Definition text_set (es : list DetectedEntity) : gset (jsstring) :=
  list_to_set (text <$> es).

(** [regexEntities.forEach(re => { if (!aiTexts.has(re.text)) merged.push(re) })] *)
Definition mergeEntities (aiEntities regexEntities : list DetectedEntity)
  : list DetectedEntity :=
  let merged := aiEntities in
  let aiTexts := text_set aiEntities in
  foldl (fun merged re =>
           if decide (text re ∈ aiTexts) then merged else merged ++ [re])
        merged regexEntities.

End Merge.

Import Merge.

(** ** Regular expressions

    The fragment of the JavaScript pattern language that the source uses:
    character classes, sequence, alternation, greedy quantifiers and the word
    boundary assertion.  No pattern of the source has a back-reference, a
    look-around or a lazy quantifier, and the only capture group that is read
    (the tokenizer's) spans its whole pattern.

    [ends r s i] lists the end positions of the matches of [r] that start at
    position [i] of [s], in the order in which the backtracking matcher of
    the language tries them, so its head is the match that [exec] reports. *)

Module Regex.

Inductive regex :=
| Eps
| Cls (p : N -> bool)
| Seq (r1 r2 : regex)
| Alt (r1 r2 : regex)
| Rep (r : regex) (min max : nat)
| RepInf (r : regex) (min : nat)
| WordB.

(** Character classes. *)
Definition range (lo hi : string) (c : N) : bool :=
  match lit lo, lit hi with
  | [a], [b] => (N.leb a c && N.leb c b)%N
  | _, _ => false
  end.

Definition one_of (cs : string) (c : N) : bool :=
  existsb (N.eqb c) (lit cs).

Definition digit (c : N) : bool := range "0" "9" c.
Definition alpha (c : N) : bool := range "a" "z" c || range "A" "Z" c.
Definition alnum (c : N) : bool := alpha c || digit c.

(** [\w] *)
Definition word_char (c : N) : bool := alnum c || one_of "_" c.

(** [\s]: WhiteSpace and LineTerminator of the language. *)
Definition white_space (c : N) : bool :=
  (existsb (N.eqb c)
     [0x9; 0xA; 0xB; 0xC; 0xD; 0x20; 0xA0; 0x1680; 0x2028; 0x2029;
      0x202F; 0x205F; 0x3000; 0xFEFF]
   || (N.leb 0x2000 c && N.leb c 0x200A))%N.

Definition CR : N := 0xD.
Definition LF : N := 0xA.

Definition Chr (c : N) : regex := Cls (N.eqb c).

Fixpoint Str (cs : jsstring) : regex :=
  match cs with
  | [] => Eps
  | c :: r => Seq (Chr c) (Str r)
  end.

Fixpoint Seqs (rs : list regex) : regex :=
  match rs with
  | [] => Eps
  | [r] => r
  | r :: rs' => Seq r (Seqs rs')
  end.

Definition Opt (r : regex) : regex := Rep r 0 1.
Definition Plus (r : regex) : regex := RepInf r 1.
Definition Star (r : regex) : regex := RepInf r 0.
Definition Exactly (n : nat) (r : regex) : regex := Rep r n n.

(** A greedy quantifier over an atom whose matches from each position are
    given by [step]: one more iteration is tried first, then leaving the loop
    (allowed once [min] iterations are done).  An iteration that is not
    required and consumes nothing is rejected, as the language specifies. *)
Fixpoint rep (step : nat -> list nat) (min max : nat) (i : nat) : list nat :=
  match max with
  | O => [i]
  | S max' =>
      (j ← step i;
       if (min =? 0)%nat && (j =? i)%nat then [] else rep step (pred min) max' j)
      ++ (if (min =? 0)%nat then [i] else [])
  end.

(** Is there a word character at position [i] (no character before the start
    or after the end)? *)
Definition word_at (s : jsstring) (i : Z) : bool :=
  if i <? 0 then false
  else match s !! Z.to_nat i with Some c => word_char c | None => false end.

Fixpoint ends (r : regex) (s : jsstring) (i : nat) : list nat :=
  match r with
  | Eps => [i]
  | Cls p =>
      match s !! i with
      | Some c => if p c then [S i] else []
      | None => []
      end
  | Seq r1 r2 => j ← ends r1 s i; ends r2 s j
  | Alt r1 r2 => ends r1 s i ++ ends r2 s i
  | Rep r min max => rep (ends r s) min max i
  | RepInf r min => rep (ends r s) min (min + length s) i
  | WordB =>
      if xorb (word_at s (Z.of_nat i - 1)) (word_at s (Z.of_nat i)) then [i] else []
  end.

(** The match of [r] that starts exactly at [i], if any. *)
Definition match_at (r : regex) (s : jsstring) (i : nat) : option nat :=
  head (ends r s i).

(** The first position from [i] on, among [k + 1] positions, where [r]
    matches, with the end of that match. *)
Fixpoint find_match (r : regex) (s : jsstring) (i k : nat) : option (nat * nat) :=
  match match_at r s i with
  | Some e => Some (i, e)
  | None =>
      match k with
      | O => None
      | S k' => find_match r s (S i) k'
      end
  end.

(** [r.exec(s)] of a global pattern whose [lastIndex] is [lastIndex]: the
    start and end of the match, whose end is the next [lastIndex]. *)
Definition exec (r : regex) (s : jsstring) (lastIndex : nat) : option (nat * nat) :=
  if (length s <? lastIndex)%nat then None
  else find_match r s lastIndex (length s - lastIndex).

End Regex.

Import Regex.

(** ** String and array built-ins used by the source *)

Module Builtins.

(** [s.replace(r, replacement)] for a global [r]; [replacement] maps the
    matched text to what is substituted for it.  [lastIndex] steps over an
    empty match; [next] is the end of the previous match.  There are at most
    [length s + 1] matches, so [length s + 2] rounds reach the end. *)
Fixpoint replace_loop (r : regex) (replacement : jsstring -> jsstring) (s : jsstring)
    (k lastIndex next : nat) : jsstring :=
  match k with
  | O => drop next s
  | S k' =>
      match exec r s lastIndex with
      | None => drop next s
      | Some (b, e) =>
          substring s next b ++ replacement (substring s b e)
          ++ replace_loop r replacement s k' (if (e =? b)%nat then S e else e) e
      end
  end.

Definition replace (r : regex) (replacement : jsstring -> jsstring) (s : jsstring) : jsstring :=
  replace_loop r replacement s (S (S (length s))) 0 0.

(** [s.split(r)] for a pattern [r] that is one capture group as a whole, so
    that the only capture pushed after each piece is the matched text. *)
Fixpoint split_loop (fuel : nat) (r : regex) (s : jsstring) (p q : nat)
    (acc : list jsstring) : option (list jsstring) :=
  match fuel with
  | O => None
  | S fuel' =>
      if (q <? length s)%nat then
        match match_at r s q with
        | None => split_loop fuel' r s p (S q) acc
        | Some e =>
            if (e =? p)%nat then split_loop fuel' r s p (S q) acc
            else split_loop fuel' r s e e (acc ++ [substring s p q; substring s q e])
        end
      else Some (acc ++ [substring s p (length s)])
  end.

Definition split (fuel : nat) (r : regex) (s : jsstring) : option (list jsstring) :=
  if (length s =? 0)%nat then
    match match_at r s 0 with
    | Some _ => Some []
    | None => Some [s]
    end
  else split_loop fuel r s 0 0 [].

(** [s.indexOf(pat, position)]: the least [k >= position] (clamped to the
    string) at which [pat] occurs, or [-1]. *)
Fixpoint is_prefix (pat s : jsstring) : bool :=
  match pat, s with
  | [], _ => true
  | a :: pat', b :: s' => N.eqb a b && is_prefix pat' s'
  | _ :: _, [] => false
  end.

Fixpoint indexOf_from (pat rest : jsstring) (k : nat) : Z :=
  if is_prefix pat rest then Z.of_nat k
  else match rest with
       | [] => -1
       | _ :: rest' => indexOf_from pat rest' (S k)
       end.

Definition indexOf (s pat : jsstring) (position : Z) : Z :=
  let pos := Nat.min (Z.to_nat position) (length s) in
  indexOf_from pat (drop pos s) pos.

(** [s.trim()] *)
Fixpoint trim_start (s : jsstring) : jsstring :=
  match s with
  | c :: r => if white_space c then trim_start r else s
  | [] => []
  end.

Definition trim (s : jsstring) : jsstring :=
  reverse (trim_start (reverse (trim_start s))).

(** [a.sort(cmp)]: the sort is stable, and for a comparator that orders by a
    key the result is that of inserting the elements from the last to the
    first, each in front of the first element it does not exceed. *)
Fixpoint sort_insert {A} (cmp : A -> A -> Z) (x : A) (l : list A) : list A :=
  match l with
  | [] => [x]
  | y :: l' => if cmp x y <=? 0 then x :: l else y :: sort_insert cmp x l'
  end.

Definition sort {A} (cmp : A -> A -> Z) (l : list A) : list A :=
  foldr (sort_insert cmp) [] l.

End Builtins.

Import Builtins.

(** ** Redaction: [applyRedaction] *)

Module Redaction.

Record result := mkResult {
  redactedText : jsstring;
  entitiesWithIndices : list DetectedEntity
}.

(** The callback of [processedEntities.some(...)]. *)
Definition overlaps (foundIndex tlen : Z) (e : DetectedEntity) : bool :=
  match startIndex e, endIndex e with
  | Some st, Some en => (foundIndex <? en) && (foundIndex + tlen >? st)
  | _, _ => false
  end.

Definition isOverlap (processed : list DetectedEntity) (foundIndex tlen : Z) : bool :=
  existsb (overlaps foundIndex tlen) processed.

(** [{ ...entity, startIndex: foundIndex, endIndex: foundIndex + entity.text.length }] *)
Definition with_indices (e : DetectedEntity) (foundIndex : Z) : DetectedEntity :=
  mkEntity (text e) (type e) (Some foundIndex) (Some (foundIndex + len (text e))).

(** The [while] loop that looks for every occurrence of [entity.text] in the
    original text. *)
Fixpoint find_loop (fuel : nat) (txt : jsstring) (e : DetectedEntity)
    (searchIndex : Z) (processed : list DetectedEntity)
  : option (list DetectedEntity) :=
  match fuel with
  | O => None
  | S fuel' =>
      let foundIndex := indexOf txt (text e) searchIndex in
      if foundIndex =? -1 then Some processed
      else
        let processed :=
          if isOverlap processed foundIndex (len (text e)) then processed
          else processed ++ [with_indices e foundIndex] in
        find_loop fuel' txt e (foundIndex + 1) processed
  end.

(** The characters of the class [[.*+?^${}()|[\]\\]]. *)
Definition special (c : N) : bool := one_of ".*+?^${}()|[]\" c.

Definition backslash : N := 92.

(** [entity.text.replace(/[.*+?^${}()|[\]\\]/g, '\\$&')] *)
Definition escape (t : jsstring) : jsstring :=
  replace (Cls special) (fun m => backslash :: m) t.

(** [new RegExp(escapedText, 'g')], on the sources that [escape] produces:
    a backslash followed by a code unit stands for that code unit (an
    identity escape), any other code unit for itself. *)
Fixpoint RegExp_literal (src : jsstring) : regex :=
  match src with
  | [] => Eps
  | c :: r =>
      match r with
      | d :: r' =>
          if N.eqb c backslash then Seq (Chr d) (RegExp_literal r')
          else Seq (Chr c) (RegExp_literal r)
      | [] => Seq (Chr c) Eps
      end
  end.

(** [mode === 'MASK' ? `[${entity.type}]` : ''] *)
Definition replacement_of (mode : RedactionMode) (e : DetectedEntity) : jsstring :=
  match mode with
  | MASK => lit "[" ++ lit (type_name (type e)) ++ lit "]"
  | REMOVE => []
  end.

(** The body of [sortedEntities.forEach], on the pair of [currentText] and
    [processedEntities]. *)
Definition redact_one (fuel : nat) (txt : jsstring) (mode : RedactionMode)
    (st : jsstring * list DetectedEntity) (e : DetectedEntity)
  : option (jsstring * list DetectedEntity) :=
  processed ← find_loop fuel txt e 0 st.2;
  Some (replace (RegExp_literal (escape (text e)))
                (fun _ => replacement_of mode e) st.1,
        processed).

Fixpoint redact_all (fuel : nat) (txt : jsstring) (mode : RedactionMode)
    (st : jsstring * list DetectedEntity) (es : list DetectedEntity)
  : option (jsstring * list DetectedEntity) :=
  match es with
  | [] => Some st
  | e :: es' => st' ← redact_one fuel txt mode st e; redact_all fuel txt mode st' es'
  end.

(** [(a, b) => b.text.length - a.text.length] *)
Definition by_length_desc (a b : DetectedEntity) : Z := len (text b) - len (text a).

(** [(a, b) => (a.startIndex || 0) - (b.startIndex || 0)] *)
Definition by_start (a b : DetectedEntity) : Z :=
  default 0 (startIndex a) - default 0 (startIndex b).

(** [currentText.replace(/ +/g, ' ').trim()] *)
Definition cleanup (s : jsstring) : jsstring :=
  trim (replace (Plus (Chr 32)) (fun _ => lit " ") s).

Definition applyRedaction (fuel : nat) (txt : jsstring) (entities : list DetectedEntity)
    (mode : RedactionMode) : option result :=
  let sortedEntities := sort by_length_desc entities in
  st ← redact_all fuel txt mode (txt, []) sortedEntities;
  Some (mkResult (cleanup st.1) (sort by_start st.2)).

End Redaction.

Import Redaction.

(** ** Word diff: [computeWordDiff] *)

Module Diff.

(** [/([^\S\r\n]+|[.,!?;:]|\b)/] *)
Definition blank (c : N) : bool :=
  negb (negb (white_space c) || N.eqb c CR || N.eqb c LF).

Definition tokenizer : regex :=
  Alt (Plus (Cls blank)) (Alt (Cls (one_of ".,!?;:")) WordB).

(** [s.split(tokenizer).filter(s => s !== '')] *)
Definition tokenize (fuel : nat) (s : jsstring) : option (list jsstring) :=
  parts ← split fuel tokenizer s;
  Some (filter (fun t => t ≠ []) parts).

(** [tokens[i - 1]] *)
Definition tok (tokens : list jsstring) (i : nat) : option (jsstring) :=
  tokens !! (i - 1)%nat.

(** [actualTokens[i - 1] === expectedTokens[j - 1]] *)
Definition tok_eqb (aT eT : list jsstring) (i j : nat) : bool :=
  bool_decide (tok aT i = tok eT j).

(** The body of the inner loop of the table construction. *)
Definition lcs_cell (aT eT : list jsstring) (i : nat) (dp : list (list Z)) (j : nat)
  : list (list Z) :=
  if tok_eqb aT eT i j
  then set2 dp i j (get2 dp (i - 1) (j - 1) + 1)
  else set2 dp i j (Z.max (get2 dp (i - 1) j) (get2 dp i (j - 1))).

Definition lcs_row (aT eT : list jsstring) (dp : list (list Z)) (i : nat)
  : list (list Z) :=
  foldl (lcs_cell aT eT i) dp (seq 1 (length eT)).

Definition lcs_table (aT eT : list jsstring) : list (list Z) :=
  foldl (lcs_row aT eT) (new_table (S (length aT)) (S (length eT)))
        (seq 1 (length aT)).

(** The state of the backtracking loop. *)
Record state := mkState {
  st_i : nat;
  st_j : nat;
  tempActual : list DiffChunk;
  tempExpected : list DiffChunk
}.

(** [{ value: tokens[i - 1], type: k }] *)
Definition chunk (tokens : list jsstring) (i : nat) (k : DiffKind) : DiffChunk :=
  mkChunk (default [] (tok tokens i)) k.

(** The body of [while (i > 0 || j > 0)]; a state that no branch applies to
    is left as it is. *)
Definition backtrack_step (aT eT : list jsstring) (dp : list (list Z)) (st : state)
  : state :=
  let i := st_i st in
  let j := st_j st in
  if (0 <? i)%nat && (0 <? j)%nat && tok_eqb aT eT i j then
    mkState (i - 1) (j - 1)
            (tempActual st ++ [chunk aT i match_])
            (tempExpected st ++ [chunk eT j match_])
  else if (0 <? j)%nat && ((i =? 0)%nat || (get2 dp i (j - 1) >=? get2 dp (i - 1) j)) then
    mkState i (j - 1) (tempActual st)
            (tempExpected st ++ [chunk eT j mismatch_expected])
  else if (0 <? i)%nat && ((j =? 0)%nat || (get2 dp i (j - 1) <? get2 dp (i - 1) j)) then
    mkState (i - 1) j (tempActual st ++ [chunk aT i mismatch_actual])
            (tempExpected st)
  else st.

Fixpoint backtrack (fuel : nat) (aT eT : list jsstring) (dp : list (list Z))
    (st : state) : option state :=
  match fuel with
  | O => None
  | S fuel' =>
      if (0 <? st_i st)%nat || (0 <? st_j st)%nat
      then backtrack fuel' aT eT dp (backtrack_step aT eT dp st)
      else Some st
  end.

Definition diff_tokens (fuel : nat) (aT eT : list jsstring)
  : option (list DiffChunk * list DiffChunk) :=
  st ← backtrack fuel aT eT (lcs_table aT eT)
         (mkState (length aT) (length eT) [] []);
  Some (reverse (tempActual st), reverse (tempExpected st)).

(** The pair is [(actualChunks, expectedChunks)]. *)
Definition computeWordDiff (fuel : nat) (actual expected : jsstring)
  : option (list DiffChunk * list DiffChunk) :=
  actualTokens ← tokenize fuel actual;
  expectedTokens ← tokenize fuel expected;
  diff_tokens fuel actualTokens expectedTokens.

End Diff.

Import Diff.

(** ** Pattern detection: [detectRegexEntities] *)

Module Detect.

(** [/[a-zA-Z0-9._%+-]+@[a-zA-Z0-9.-]+\.[a-zA-Z]{2,}/g] *)
Definition emailRegex : regex :=
  Seqs [Plus (Cls (fun c => alnum c || one_of "._%+-" c));
        Chr 64;
        Plus (Cls (fun c => alnum c || one_of ".-" c));
        Chr 46;
        RepInf (Cls alpha) 2].

(** [/\b(?:\d{1,3}\.){3}\d{1,3}\b/g] *)
Definition ipRegex : regex :=
  Seqs [WordB;
        Exactly 3 (Seq (Rep (Cls digit) 1 3) (Chr 46));
        Rep (Cls digit) 1 3;
        WordB].

(** [/https?:\/\/(?:www\.)?[-a-zA-Z0-9@:%._\+~#=]{1,256}\.[a-zA-Z0-9()]{1,6}\b/],
    followed by a non-capturing group that holds the starred class
    [[-a-zA-Z0-9()@:%_\+.~#?&//=]]; the pattern is global. *)
Definition urlRegex : regex :=
  Seqs [Str (lit "http"); Opt (Chr 115); Str (lit "://");
        Opt (Str (lit "www."));
        Rep (Cls (fun c => alnum c || one_of "-@:%._+~#=" c)) 1 256;
        Chr 46;
        Rep (Cls (fun c => alnum c || one_of "()" c)) 1 6;
        WordB;
        Star (Cls (fun c => alnum c || one_of "-()@:%_+.~#?&/=" c))].

(** [/\b(?:\d{4}[ -]?){3}\d{4}\b/g] *)
Definition ccRegex : regex :=
  Seqs [WordB;
        Exactly 3 (Seq (Exactly 4 (Cls digit)) (Opt (Cls (one_of " -"))));
        Exactly 4 (Cls digit);
        WordB].

(** [/(?:\+?\d{1,3}[ -]?)?\(?\d{3}\)?[ -]?\d{3}[ -]?\d{4}/g] *)
Definition phoneRegex : regex :=
  Seqs [Opt (Seqs [Opt (Chr 43); Rep (Cls digit) 1 3; Opt (Cls (one_of " -"))]);
        Opt (Chr 40);
        Exactly 3 (Cls digit);
        Opt (Chr 41);
        Opt (Cls (one_of " -"));
        Exactly 3 (Cls digit);
        Opt (Cls (one_of " -"));
        Exactly 4 (Cls digit)].

(** [/\b\d{1,4}[/-]\d{1,2}[/-]\d{2,4}\b/g] *)
Definition dateRegex : regex :=
  Seqs [WordB;
        Rep (Cls digit) 1 4; Cls (one_of "/-");
        Rep (Cls digit) 1 2; Cls (one_of "/-");
        Rep (Cls digit) 2 4;
        WordB].

(** [/\b\d{1,2}:\d{2}(?::\d{2})?(?:\s?[APap][Mm])?\b/g] *)
Definition timeRegex : regex :=
  Seqs [WordB;
        Rep (Cls digit) 1 2; Chr 58; Exactly 2 (Cls digit);
        Opt (Seq (Chr 58) (Exactly 2 (Cls digit)));
        Opt (Seqs [Opt (Cls white_space); Cls (one_of "APap"); Cls (one_of "Mm")]);
        WordB].

(** [while ((match = r.exec(text)) !== null) { body }], where [body] maps the
    matched text [match[0]] and the entities pushed so far to the entities
    after it. *)
Fixpoint exec_loop (fuel : nat) (r : regex) (txt : jsstring) (lastIndex : nat)
    (body : jsstring -> list DetectedEntity -> list DetectedEntity)
    (entities : list DetectedEntity) : option (list DetectedEntity) :=
  match fuel with
  | O => None
  | S fuel' =>
      match exec r txt lastIndex with
      | None => Some entities
      | Some (b, e) =>
          exec_loop fuel' r txt e body (body (substring txt b e) entities)
      end
  end.

Definition push (ty : EntityType) (m : jsstring) (entities : list DetectedEntity)
  : list DetectedEntity :=
  entities ++ [entity m ty].

Definition push_phone (m : jsstring) (entities : list DetectedEntity)
  : list DetectedEntity :=
  if len m >=? 10 then push PHONE_NUMBER m entities else entities.

Definition push_date (m : jsstring) (entities : list DetectedEntity)
  : list DetectedEntity :=
  if len m <=? 10 then push DATE_TIME m entities else entities.

Definition detectRegexEntities (fuel : nat) (txt : jsstring)
  : option (list DetectedEntity) :=
  entities ← exec_loop fuel emailRegex txt 0 (push EMAIL_ADDRESS) [];
  entities ← exec_loop fuel ipRegex txt 0 (push IP_ADDRESS) entities;
  entities ← exec_loop fuel urlRegex txt 0 (push URL) entities;
  entities ← exec_loop fuel ccRegex txt 0 (push CREDIT_CARD) entities;
  entities ← exec_loop fuel phoneRegex txt 0 push_phone entities;
  entities ← exec_loop fuel dateRegex txt 0 push_date entities;
  exec_loop fuel timeRegex txt 0 (push DATE_TIME) entities.

End Detect.

Import Detect.

(** ** The redaction panel: [RedactionPanel] and [AccuracyMetric]

    The computations of the component, as functions of the state that they
    read; what a function passes to the state setters is what it returns. *)

Module Panel.

Record ProcessingStats := mkStats {
  originalLength : Z;
  redactedLength : Z;
  levenshteinDistance : Z;
  similarityScore : Q;
  entityCount : Z;
  accuracyScore : option Q
}.

(** A string as a condition: the empty string is false. *)
Definition truthy (s : jsstring) : bool :=
  match s with
  | [] => false
  | _ :: _ => true
  end.

(** [updateStats(original, redacted, expected, entityCount)]: the record
    passed to [setStats]. *)
Definition updateStats (original redacted expected : jsstring) (count : Z)
  : ProcessingStats :=
  let dist := calculateLevenshteinDistance original redacted in
  let similarity := calculateSimilarity original redacted (inject_Z dist) in
  let accuracy :=
    if truthy (trim expected) then
      let accDist := calculateLevenshteinDistance expected redacted in
      Some (calculateSimilarity expected redacted (inject_Z accDist))
    else None in
  mkStats (len original) (len redacted) dist similarity count accuracy.

(** What the panel shows of a redaction: the values passed to
    [setEntities], [setRedactedText] and [setStats]. *)
Record view := mkView {
  shownEntities : list DetectedEntity;
  shownText : jsstring;
  shownStats : ProcessingStats
}.

Definition view_of (inputText expectedText : jsstring) (r : result) : view :=
  mkView (entitiesWithIndices r) (redactedText r)
    (updateStats inputText (redactedText r) expectedText
       (Z.of_nat (length (entitiesWithIndices r)))).

Inductive outcome :=
| Skipped
| Shown (v : view).

(** [processText()], up to its end: the view that is on display when the
    function has finished.  [ai] is what awaiting [extractEntities] gave:
    the entities, or [None] when the promise was rejected, in which case the
    view of the first stage stays. *)
Definition processText (fuel : nat) (inputText expectedText : jsstring)
    (mode : RedactionMode) (ai : option (list DetectedEntity)) : option outcome :=
  if negb (truthy (trim inputText)) then Some Skipped
  else
    regexEntities ← detectRegexEntities fuel inputText;
    intermediateResult ← applyRedaction fuel inputText regexEntities mode;
    match ai with
    | None => Some (Shown (view_of inputText expectedText intermediateResult))
    | Some aiEntities =>
        let finalEntities := mergeEntities aiEntities regexEntities in
        finalResult ← applyRedaction fuel inputText finalEntities mode;
        Some (Shown (view_of inputText expectedText finalResult))
    end.

(** [runEvaluation()]: the statistics and the diff that it sets, or nothing
    when one of the two texts is empty. *)
Definition runEvaluation (fuel : nat) (inputText shown expectedText : jsstring)
    (count : Z)
  : option (option (ProcessingStats * (list DiffChunk * list DiffChunk))) :=
  if negb (truthy shown) || negb (truthy expectedText) then Some None
  else
    diff ← computeWordDiff fuel shown expectedText;
    Some (Some (updateStats inputText shown expectedText count, diff)).

(** The effect that runs when the mode changes: the text and the statistics
    that it sets, or nothing. *)
Definition mode_effect (fuel : nat) (inputText expectedText : jsstring)
    (current : list DetectedEntity) (isProcessing : bool) (mode : RedactionMode)
  : option (option (jsstring * ProcessingStats)) :=
  if (0 <? Z.of_nat (length current)) && negb isProcessing then
    r ← applyRedaction fuel inputText current mode;
    Some (Some (redactedText r,
                updateStats inputText (redactedText r) expectedText
                  (Z.of_nat (length current))))
  else Some None.

Inductive side := actual_side | expected_side.

Inductive span_style := plain | marked_actual | marked_expected.

(** The callback of [chunks.map] in [renderDiffPanel]: the style and the text
    of the span for a chunk, or [None] for [null]. *)
Definition render_chunk (type : side) (c : DiffChunk) : option (span_style * jsstring) :=
  match kind c, type with
  | match_, _ => Some (plain, value c)
  | mismatch_actual, actual_side => Some (marked_actual, value c)
  | mismatch_expected, expected_side => Some (marked_expected, value c)
  | _, _ => None
  end.

Definition renderDiffPanel (chunks : list DiffChunk) (type : side)
  : list (option (span_style * jsstring)) :=
  render_chunk type <$> chunks.



End Panel.

Import Panel.

(** ** Specification vocabulary *)

Module Spec.

(** A table of [rows] rows of [cols] cells each. *)
Definition shaped (rows cols : nat) (t : list (list Z)) : Prop :=
  length t = rows ∧ ∀ j r, t !! j = Some r → length r = cols.

(** The edit-distance recurrence that the table construction follows,
    indexed like the table: row [j] (a prefix of [s2]) and column [i]
    (a prefix of [s1]). *)
Fixpoint levD (s1 s2 : jsstring) (j : nat) : nat → Z :=
  match j with
  | O => fun i => Z.of_nat i
  | S j' =>
      fix row (i : nat) : Z :=
        match i with
        | O => Z.of_nat (S j')
        | S i' =>
            min3 (row i' + 1) (levD s1 s2 j' (S i') + 1)
                 (levD s1 s2 j' i' + indicator s1 s2 (S i') (S j'))
        end
  end.

(** What is known of the edit-distance table when the outer loop is about to
    fill row [j]: the rows above hold the recurrence, and the first column
    is initialised. *)
Definition rows_done (s1 s2 : jsstring) (j : nat) (t : list (list Z)) : Prop :=
  shaped (S (length s2)) (S (length s1)) t
  ∧ (∀ j' i, (j' < j)%nat → (i ≤ length s1)%nat → get2 t j' i = levD s1 s2 j' i)
  ∧ (∀ j', (j' ≤ length s2)%nat → get2 t j' 0 = Z.of_nat j').

(** U+1F600, one code point that takes two code units. *)
Definition grinning_face : jsstring := [0xD83D; 0xDE00]%N.

(** The texts of a list of entities. *)
Definition texts (es : list DetectedEntity) : list jsstring := text <$> es.

(** An entity whose range is set and lies in [txt], is not empty, and holds
    the entity's text. *)
Definition resolved_in (txt : jsstring) (e : DetectedEntity) : Prop :=
  ∃ st en,
    startIndex e = Some st ∧ endIndex e = Some en
    ∧ 0 ≤ st < en ∧ en ≤ len txt
    ∧ text e = substring txt (Z.to_nat st) (Z.to_nat en).

(** Two entities with set ranges overlap: [start < otherEnd && end > otherStart]. *)
Definition ranges_overlap (a b : DetectedEntity) : Prop :=
  ∃ sa ea sb eb,
    startIndex a = Some sa ∧ endIndex a = Some ea
    ∧ startIndex b = Some sb ∧ endIndex b = Some eb
    ∧ sa < eb ∧ ea > sb.

(** No entity of the list overlaps one that comes after it. *)
Fixpoint no_overlap (l : list DetectedEntity) : Prop :=
  match l with
  | [] => True
  | a :: l' => Forall (fun b => ¬ ranges_overlap a b) l' ∧ no_overlap l'
  end.

(** A sufficient condition for every match of a pattern to take at least
    one code unit. *)
Fixpoint consumes (r : regex) : bool :=
  match r with
  | Eps | WordB => false
  | Cls _ => true
  | Seq r1 r2 => consumes r1 || consumes r2
  | Alt r1 r2 => consumes r1 && consumes r2
  | Rep r min max => (0 <? min)%nat && (0 <? max)%nat && consumes r
  | RepInf r min => (0 <? min)%nat && consumes r
  end.

(** The chunks of a token list in which every token is a match. *)
Definition all_match (tokens : list jsstring) : list DiffChunk :=
  (fun t => mkChunk t match_) <$> tokens.

(** Every phone-number entity of the list has a text of ten code units or
    more. *)
Definition phones_long (es : list DetectedEntity) : Prop :=
  Forall (fun e => type e = PHONE_NUMBER → 10 ≤ len (text e)) es.

(** What the escaping of one code unit gives. *)
Definition escaped_unit (c : N) : jsstring :=
  if special c then [backslash; c] else [c].

(** The double just below [1]. *)
Definition below_one : Q := (1 - (1 # 2 ^ 53))%Q.

End Spec.

Import Spec.

(** ** More specification vocabulary *)

Module MoreSpec.

(** [a.startIndex || 0], the key of the final sort of [applyRedaction]. *)
Definition start_key (a : DetectedEntity) : Z := default 0 (startIndex a).

(** Every entity of the list has a key at most that of those after it. *)
Fixpoint ordered_by_start (l : list DetectedEntity) : Prop :=
  match l with
  | [] => True
  | a :: l' => Forall (fun b => start_key a ≤ start_key b) l' ∧ ordered_by_start l'
  end.

(** The range of [a] ends at or before the range of [b] starts. *)
Definition ends_before (a b : DetectedEntity) : Prop :=
  ∃ ea sb, endIndex a = Some ea ∧ startIndex b = Some sb ∧ ea ≤ sb.

(** [pat] occurs in [txt] at position [k]. *)
Definition occurs_at (txt pat : jsstring) (k : nat) : Prop :=
  (k + length pat ≤ length txt)%nat ∧ substring txt k (k + length pat) = pat.

(** The range of [p] shares a code unit with the [n] code units from [k]. *)
Definition covers (p : DetectedEntity) (k : nat) (n : Z) : Prop :=
  ∃ st en, startIndex p = Some st ∧ endIndex p = Some en
           ∧ st < Z.of_nat k + n ∧ Z.of_nat k < en.

(** The number of code units at the start of [l] that are in the class [p]. *)
Fixpoint run (p : N → bool) (l : jsstring) : nat :=
  match l with
  | c :: r => if p c then S (run p r) else 0%nat
  | [] => 0%nat
  end.

Definition is_space (c : N) : bool := N.eqb 32 c.

(** A space that is followed by a space is dropped. *)
Fixpoint collapse (s : jsstring) : jsstring :=
  match s with
  | [] => []
  | c :: r =>
      match r with
      | d :: _ => if is_space c && is_space d then collapse r else c :: collapse r
      | [] => [c]
      end
  end.

(** No space of the string is followed by a space. *)
Fixpoint no_double_space (s : jsstring) : Prop :=
  match s with
  | [] => True
  | c :: r =>
      match r with
      | d :: _ => is_space c && is_space d = false
      | [] => True
      end ∧ no_double_space r
  end.

(** The string neither starts nor ends with a white-space code unit. *)
Definition trimmed (s : jsstring) : Prop :=
  (∀ c, head s = Some c → white_space c = false)
  ∧ (∀ c, last s = Some c → white_space c = false).

(** The tokens of the actual side in the order in which backtracking meets
    them: those pushed so far, then those still to come, last first; and the
    same for the expected side.  A step of the loop keeps both. *)
Definition actual_trace (aT : list jsstring) (st : state) : list jsstring :=
  (value <$> tempActual st) ++ reverse (take (st_i st) aT).

Definition expected_trace (eT : list jsstring) (st : state) : list jsstring :=
  (value <$> tempExpected st) ++ reverse (take (st_j st) eT).

Definition is_match (c : DiffChunk) : Prop := kind c = match_.

#[global] Instance is_match_dec c : Decision (is_match c).
Proof. unfold is_match. solve_decision. Defined.

(** The values of the match chunks of a chunk list. *)
Definition matched (cs : list DiffChunk) : list jsstring :=
  value <$> filter is_match cs.

Definition actual_kind (c : DiffChunk) : Prop :=
  kind c = match_ ∨ kind c = mismatch_actual.

Definition expected_kind (c : DiffChunk) : Prop :=
  kind c = match_ ∨ kind c = mismatch_expected.

(** What the backtracking loop keeps true of its state. *)
Definition backtrack_inv (aT eT : list jsstring) (st : state) : Prop :=
  (st_i st ≤ length aT)%nat ∧ (st_j st ≤ length eT)%nat
  ∧ Forall actual_kind (tempActual st)
  ∧ Forall expected_kind (tempExpected st)
  ∧ matched (tempActual st) = matched (tempExpected st).

(** The recurrence of the longest common subsequence that the table of
    [computeWordDiff] follows: row [i] is a prefix of the actual tokens,
    column [j] a prefix of the expected tokens. *)
Fixpoint lcsL (aT eT : list jsstring) (i : nat) : nat → Z :=
  match i with
  | O => fun _ => 0
  | S i' =>
      fix row (j : nat) : Z :=
        match j with
        | O => 0
        | S j' =>
            if tok_eqb aT eT (S i') (S j')
            then lcsL aT eT i' j' + 1
            else Z.max (lcsL aT eT i' (S j')) (row j')
        end
  end.

(** What is known of the table when the outer loop is about to fill row
    [i]. *)
Definition lcs_rows_done (aT eT : list jsstring) (i : nat) (t : list (list Z)) : Prop :=
  shaped (S (length aT)) (S (length eT)) t
  ∧ (∀ i' j, (i' < i)%nat → (j ≤ length eT)%nat → get2 t i' j = lcsL aT eT i' j)
  ∧ (∀ i', get2 t i' 0 = 0).

(** The number of match chunks pushed so far plus the length of the longest
    common subsequence of what is still to be compared. *)
Definition match_count (aT eT : list jsstring) (st : state) : Z :=
  Z.of_nat (length (matched (tempActual st))) + lcsL aT eT (st_i st) (st_j st).

(** A lower bound on the number of code units that a match of a pattern
    takes. *)
Fixpoint minlen (r : regex) : nat :=
  match r with
  | Eps | WordB => 0
  | Cls _ => 1
  | Seq r1 r2 => minlen r1 + minlen r2
  | Alt r1 r2 => Nat.min (minlen r1) (minlen r2)
  | Rep r min max => Nat.min min max * minlen r
  | RepInf r min => min * minlen r
  end.

(** An entity as the pattern detector makes them: a text that is not empty
    and occurs in [txt], no range, and a category that patterns exist for. *)
Definition detected_in (txt : jsstring) (e : DetectedEntity) : Prop :=
  text e ≠ [] ∧ (∃ k, occurs_at txt (text e) k)
  ∧ startIndex e = None ∧ endIndex e = None
  ∧ type e ≠ PERSON ∧ type e ≠ LOCATION.

End MoreSpec.

Import MoreSpec.

(** * Properties *)

(** ** Tables *)

Section TableFacts.

Implicit Types (t : list (list Z)) (i j : nat) (v : Z).

Lemma shaped_new_table rows cols : shaped rows cols (new_table rows cols).
Proof.
  split.
  - apply length_replicate.
  - intros j r Hr. apply lookup_replicate in Hr as [-> _].
    apply length_replicate.
Qed.

Lemma shaped_set2 rows cols t j i v :
  shaped rows cols t → shaped rows cols (set2 t j i v).
Proof.
  intros [Hlen Hrows]. split.
  - unfold set2. by rewrite length_alter.
  - intros j' r. unfold set2. rewrite list_lookup_alter.
    case_decide as Hj.
    + subst j'. destruct (t !! j) as [r0|] eqn:E; simpl; [|done].
      intros [= <-]. rewrite length_insert. eauto.
    + eauto.
Qed.

Lemma get2_set2_eq rows cols t j i v :
  shaped rows cols t → (j < rows)%nat → (i < cols)%nat →
  get2 (set2 t j i v) j i = v.
Proof.
  intros [Hlen Hrows] Hj Hi. unfold get2, set2.
  rewrite list_lookup_alter_eq.
  destruct (lookup_lt_is_Some_2 t j) as [r Hr]; [lia|].
  rewrite Hr. simpl. rewrite list_lookup_insert_eq; [done|].
  rewrite (Hrows _ _ Hr). done.
Qed.

Lemma get2_set2_ne t j i v j' i' :
  (j, i) ≠ (j', i') → get2 (set2 t j i v) j' i' = get2 t j' i'.
Proof.
  intros Hne. unfold get2, set2. rewrite list_lookup_alter.
  case_decide as Hj; [|done].
  subst j'. destruct (t !! j) as [r|]; simpl; [|done].
  rewrite list_lookup_insert_ne; [done|]. congruence.
Qed.

Lemma get2_new_table rows cols j i : get2 (new_table rows cols) j i = 0.
Proof.
  unfold get2, new_table.
  destruct (replicate rows (replicate cols 0) !! j) as [r|] eqn:E; simpl; [|done].
  apply lookup_replicate in E as [-> _].
  destruct (replicate cols 0 !! i) as [x|] eqn:E'; simpl; [|done].
  by apply lookup_replicate in E' as [-> _].
Qed.

End TableFacts.

(** ** Edit distance *)

Section LevenshteinFacts.

(** An invariant that holds at the start of a counting loop and is kept by
    its body holds at its end. *)
Lemma foldl_seq_inv {A} (P : nat → A → Prop) (f : A → nat → A) n :
  ∀ start a,
    P start a →
    (∀ k x, (start ≤ k < start + n)%nat → P k x → P (S k) (f x k)) →
    P (start + n)%nat (foldl f a (seq start n)).
Proof.
  induction n as [|n IH]; intros start a H0 Hstep; simpl.
  - by rewrite Nat.add_0_r.
  - replace (start + S n)%nat with (S start + n)%nat by lia.
    apply IH.
    + apply Hstep; [lia | done].
    + intros k x Hk. apply Hstep. lia.
Qed.

Variables s1 s2 : list N.

Lemma levD_0 i : levD s1 s2 0 i = Z.of_nat i.
Proof. reflexivity. Qed.

Lemma levD_S_0 j : levD s1 s2 (S j) 0 = Z.of_nat (S j).
Proof. reflexivity. Qed.

Lemma levD_S_S j i :
  levD s1 s2 (S j) (S i) =
  min3 (levD s1 s2 (S j) i + 1) (levD s1 s2 j (S i) + 1)
       (levD s1 s2 j i + indicator s1 s2 (S i) (S j)).
Proof. reflexivity. Qed.

Lemma levD_col0 j : levD s1 s2 j 0 = Z.of_nat j.
Proof. by destruct j. Qed.

Lemma indicator_range i j : 0 ≤ indicator s1 s2 i j ≤ 1.
Proof.
  unfold indicator. case_bool_decide; lia.
Qed.

Local Abbreviation rows := (S (length s2)).
Local Abbreviation cols := (S (length s1)).

Lemma init_first_row_spec t :
  shaped rows cols t →
  shaped rows cols (init_first_row (length s1) t)
  ∧ ∀ i, (i ≤ length s1)%nat →
         get2 (init_first_row (length s1) t) 0 i = Z.of_nat i.
Proof.
  intros Hsh. unfold init_first_row.
  pose (P := fun (k : nat) (t : list (list Z)) =>
    shaped rows cols t ∧ ∀ i, (i < k)%nat → get2 t 0 i = Z.of_nat i).
  assert (P (0 + S (length s1))%nat
            (foldl (fun t i => set2 t 0 i (Z.of_nat i)) t (seq 0 (S (length s1)))))
    as [H1 H2].
  { apply (foldl_seq_inv P).
    - split; [done | intros; lia].
    - intros k x Hk [Hx1 Hx2]. split; [by apply shaped_set2|].
      intros i Hi. destruct (decide (i = k)) as [->|Hne].
      + apply (get2_set2_eq rows cols); [done | lia | lia].
      + rewrite get2_set2_ne; [apply Hx2; lia | congruence]. }
  split; [done|]. intros i Hi. apply H2. lia.
Qed.

Lemma init_first_col_spec t :
  shaped rows cols t →
  (∀ i, (i ≤ length s1)%nat → get2 t 0 i = Z.of_nat i) →
  shaped rows cols (init_first_col (length s2) t)
  ∧ (∀ i, (i ≤ length s1)%nat →
          get2 (init_first_col (length s2) t) 0 i = Z.of_nat i)
  ∧ (∀ j, (j ≤ length s2)%nat →
          get2 (init_first_col (length s2) t) j 0 = Z.of_nat j).
Proof.
  intros Hsh Hrow. unfold init_first_col.
  pose (P := fun (k : nat) (t : list (list Z)) =>
    shaped rows cols t
    ∧ (∀ i, (i ≤ length s1)%nat → get2 t 0 i = Z.of_nat i)
    ∧ ∀ j, (j < k)%nat → get2 t j 0 = Z.of_nat j).
  assert (P (0 + S (length s2))%nat
            (foldl (fun t j => set2 t j 0 (Z.of_nat j)) t (seq 0 (S (length s2)))))
    as (H1 & H2 & H3).
  { apply (foldl_seq_inv P).
    - split; [done | split; [done | intros; lia]].
    - intros k x Hk (Hx1 & Hx2 & Hx3).
      split; [by apply shaped_set2 | split].
      + intros i Hi. destruct (decide ((k, 0%nat) = (0%nat, i))) as [[= -> <-]|Hne].
        * apply (get2_set2_eq rows cols); [done | lia | lia].
        * rewrite get2_set2_ne; [by apply Hx2 | done].
      + intros j Hj. destruct (decide (j = k)) as [->|Hne].
        * apply (get2_set2_eq rows cols); [done | lia | lia].
        * rewrite get2_set2_ne; [apply Hx3; lia | congruence]. }
  split; [done | split; [done|]]. intros j Hj. apply H3. lia.
Qed.

Lemma row_step_spec j t :
  (1 ≤ j ≤ length s2)%nat → rows_done s1 s2 j t → rows_done s1 s2 (S j) (row_step s1 s2 t j).
Proof.
  intros Hj (Hsh & Habove & Hcol). unfold row_step.
  pose (Q := fun (k : nat) (t : list (list Z)) =>
    rows_done s1 s2 j t ∧ ∀ i, (i < k)%nat → get2 t j i = levD s1 s2 j i).
  assert (Q (1 + length s1)%nat
            (foldl (cell_step s1 s2 j) t (seq 1 (length s1))))
    as ((H1 & H2 & H3) & H4).
  { apply (foldl_seq_inv Q).
    - split; [done|]. intros i Hi. assert (i = 0%nat) as -> by lia.
      rewrite Hcol by lia. by rewrite levD_col0.
    - intros k x Hk ((Hx1 & Hx2 & Hx3) & Hx4). unfold cell_step.
      split; [split; [by apply shaped_set2 | split]|].
      + intros j' i Hj' Hi. rewrite get2_set2_ne; [by apply Hx2|].
        intros [= -> ->]. lia.
      + intros j' Hj'. rewrite get2_set2_ne; [by apply Hx3|].
        intros [= -> ->]. lia.
      + intros i Hi. destruct (decide (i = k)) as [->|Hne].
        * rewrite (get2_set2_eq rows cols); [|done|lia|lia].
          destruct j as [|j']; [lia|]. destruct k as [|k']; [lia|].
          rewrite levD_S_S. simpl.
          rewrite !Nat.sub_0_r.
          rewrite Hx4 by lia. rewrite !Hx2 by lia. done.
        * rewrite get2_set2_ne; [apply Hx4; lia | congruence]. }
  split; [done | split; [|done]].
  intros j' i Hj' Hi. destruct (decide (j' = j)) as [->|Hne].
  - apply H4. lia.
  - apply H2; [lia | done].
Qed.

Lemma fill_table_spec :
  rows_done s1 s2 (S (length s2)) (fill_table s1 s2).
Proof.
  unfold fill_table.
  destruct (init_first_row_spec (new_table rows cols)) as [Ha Hb];
    [apply shaped_new_table|].
  destruct (init_first_col_spec _ Ha Hb) as (Hc & Hd & He).
  apply (foldl_seq_inv (rows_done s1 s2) (row_step s1 s2) (length s2) 1).
  - split; [done | split; [|done]].
    intros j' i Hj' Hi. assert (j' = 0%nat) as -> by lia.
    rewrite levD_0. by apply Hd.
  - intros k x Hk Hx. apply row_step_spec; [lia | done].
Qed.

(** The table construction computes the recurrence. *)
Lemma calculateLevenshteinDistance_levD :
  calculateLevenshteinDistance s1 s2 = levD s1 s2 (length s2) (length s1).
Proof.
  unfold calculateLevenshteinDistance.
  destruct fill_table_spec as (_ & H & _). apply H; lia.
Qed.

Lemma levD_nonneg j : ∀ i, 0 ≤ levD s1 s2 j i.
Proof.
  induction j as [|j IHj]; intros i.
  - change (levD s1 s2 0 i) with (Z.of_nat i). lia.
  - induction i as [|i IHi].
    + change (levD s1 s2 (S j) 0) with (Z.of_nat (S j)). lia.
    + rewrite levD_S_S. unfold min3.
      pose proof (IHj i). pose proof (IHj (S i)).
      pose proof (indicator_range (S i) (S j)). lia.
Qed.

Lemma levD_lower j : ∀ i, Z.abs (Z.of_nat i - Z.of_nat j) ≤ levD s1 s2 j i.
Proof.
  induction j as [|j IHj]; intros i.
  - change (levD s1 s2 0 i) with (Z.of_nat i). lia.
  - induction i as [|i IHi].
    + change (levD s1 s2 (S j) 0) with (Z.of_nat (S j)). lia.
    + rewrite levD_S_S. unfold min3.
      pose proof (IHj i). pose proof (IHj (S i)).
      pose proof (indicator_range (S i) (S j)). lia.
Qed.

Lemma levD_upper j : ∀ i, levD s1 s2 j i ≤ Z.max (Z.of_nat i) (Z.of_nat j).
Proof.
  induction j as [|j IHj]; intros i.
  - change (levD s1 s2 0 i) with (Z.of_nat i). lia.
  - induction i as [|i IHi].
    + change (levD s1 s2 (S j) 0) with (Z.of_nat (S j)). lia.
    + rewrite levD_S_S. unfold min3.
      pose proof (IHj i).
      pose proof (indicator_range (S i) (S j)). lia.
Qed.

Lemma levD_zero j : ∀ i, levD s1 s2 j i = 0 → i = j ∧ take i s1 = take j s2.
Proof.
  induction j as [|j IHj]; intros i.
  - change (levD s1 s2 0 i) with (Z.of_nat i). intros Hi. assert (i = 0%nat) as -> by lia. done.
  - induction i as [|i IHi].
    + change (levD s1 s2 (S j) 0) with (Z.of_nat (S j)). lia.
    + rewrite levD_S_S. unfold min3. intros H0.
      pose proof (levD_nonneg (S j) i). pose proof (levD_nonneg j (S i)).
      pose proof (levD_nonneg j i).
      pose proof (indicator_range (S i) (S j)) as Hind.
      assert (levD s1 s2 j i = 0 ∧ indicator s1 s2 (S i) (S j) = 0) as [Hd Hi0] by lia.
      destruct (IHj i Hd) as [-> Htake]. split; [done|].
      unfold indicator, at_index in Hi0. simpl in Hi0. rewrite !Nat.sub_0_r in Hi0.
      case_bool_decide as Eab; [|lia].
      destruct (s1 !! j) as [a|] eqn:Ea.
      * symmetry in Eab.
        rewrite (take_S_r _ _ _ Ea), (take_S_r _ _ _ Eab). by rewrite Htake.
      * symmetry in Eab. apply lookup_ge_None in Ea, Eab.
        rewrite !take_ge in * by lia. done.
Qed.

End LevenshteinFacts.

Lemma levD_diag (s : list N) k : (k ≤ length s)%nat → levD s s k k = 0.
Proof.
  induction k as [|k IH]; intros Hk; [done|].
  rewrite levD_S_S. unfold min3.
  pose proof (levD_nonneg s s (S k) k). pose proof (levD_nonneg s s k (S k)).
  assert (indicator s s (S k) (S k) = 0) as Hi.
  { unfold indicator. by rewrite bool_decide_eq_true_2. }
  rewrite IH by lia. lia.
Qed.

Lemma lev_same (s : list N) : calculateLevenshteinDistance s s = 0.
Proof. rewrite calculateLevenshteinDistance_levD. by apply levD_diag. Qed.

Lemma lev_empty_left (s : list N) : calculateLevenshteinDistance [] s = len s.
Proof. rewrite calculateLevenshteinDistance_levD. simpl. by rewrite levD_col0. Qed.

Lemma lev_empty_right (s : list N) : calculateLevenshteinDistance s [] = len s.
Proof. rewrite calculateLevenshteinDistance_levD. simpl. done. Qed.

Lemma lev_nonneg (a b : list N) : 0 ≤ calculateLevenshteinDistance a b.
Proof. rewrite calculateLevenshteinDistance_levD. apply levD_nonneg. Qed.

Lemma lev_upper (a b : list N) :
  calculateLevenshteinDistance a b ≤ Z.max (len a) (len b).
Proof. rewrite calculateLevenshteinDistance_levD. apply levD_upper. Qed.

Lemma lev_zero_iff (a b : list N) : calculateLevenshteinDistance a b = 0 ↔ a = b.
Proof.
  split.
  - rewrite calculateLevenshteinDistance_levD. intros H.
    apply levD_zero in H as [Hlen Htake].
    rewrite Hlen in Htake at 1.
    rewrite firstn_all in Htake. rewrite <- Hlen in Htake.
    by rewrite firstn_all in Htake.
  - intros ->. apply lev_same.
Qed.

(** C2 (amended): the edit distance works on UTF-16 code units: the distance
    from the empty string to [s] is [s.length], the number of code units of
    [s], and the distance from [s] to itself is [0]. *)
Theorem lev_code_units (s : list N) :
  calculateLevenshteinDistance [] s = len s
  ∧ calculateLevenshteinDistance s s = 0.
Proof. split; [apply lev_empty_left | apply lev_same]. Qed.

(** C2 as stated fails: a string of one code point outside the basic plane
    has distance [2], not [1], from the empty string. *)
Lemma lev_code_points_counterexample :
  code_point_count grinning_face = 1%nat
  ∧ calculateLevenshteinDistance [] grinning_face = 2
  ∧ calculateLevenshteinDistance [] grinning_face
    ≠ Z.of_nat (code_point_count grinning_face).
Proof. vm_compute. split; [done | split; [done | discriminate]]. Qed.

(** ** Similarity *)

Section SimilarityFacts.

Local Open Scope Q_scope.

Lemma ratio_facts (m d : Z) :
  (0 < m)%Z → (0 ≤ d ≤ m)%Z →
  let x := ((inject_Z m - inject_Z d) / inject_Z m) * 100 in
  0 <= x ∧ x <= 100 ∧ (x == 100 ↔ d = 0%Z).
Proof.
  intros Hm Hd x.
  assert (0 < inject_Z m) as HM by (change 0 with (inject_Z 0); rewrite <- Zlt_Qlt; lia).
  assert (0 <= inject_Z d) as HD0 by (change 0 with (inject_Z 0); rewrite <- Zle_Qle; lia).
  assert (inject_Z d <= inject_Z m) as HDM by (rewrite <- Zle_Qle; lia).
  set (q := (inject_Z m - inject_Z d) / inject_Z m) in *.
  assert (q * inject_Z m == inject_Z m - inject_Z d) as Hq.
  { unfold q. field. intros E. rewrite E in HM. by apply Qlt_irrefl in HM. }
  assert (0 <= q) as Hq0.
  { unfold q. apply Qle_shift_div_l; [done|]. lra. }
  assert (q <= 1) as Hq1.
  { unfold q. apply Qle_shift_div_r; [done|]. lra. }
  subst x. split; [lra | split; [lra|]]. split.
  - intros Hx. assert (q == 1) as E by lra.
    rewrite E in Hq. assert (inject_Z d == 0) as E' by lra.
    apply (inject_Z_injective d 0%Z). exact E'.
  - intros ->. unfold q. change (inject_Z 0) with 0. field.
    intros E. rewrite E in HM. by apply Qlt_irrefl in HM.
Qed.

Lemma maxLength_zero (a b : list N) :
  Z.max (len a) (len b) = 0%Z ↔ a = [] ∧ b = [].
Proof.
  unfold len. split.
  - intros H. destruct a, b; simpl in *; try done; lia.
  - intros [-> ->]. done.
Qed.

(** C5: [calculateSimilarity] is [100] for two empty strings and otherwise
    [max(0, ((maxLen - d) / maxLen) * 100)]; with [d] the edit distance of
    the two strings the result lies in [0, 100] and is [100] exactly when the
    strings are equal.  Arithmetic is exact here; [similarity_rounded_range]
    has the same for arithmetic that rounds. *)
Theorem similarity_formula_range (a b : list N) :
  (∀ d, a = [] → b = [] → calculateSimilarity a b d = 100)
  ∧ (∀ d, ¬ (a = [] ∧ b = []) →
       calculateSimilarity a b d =
       Qmax 0 (((inject_Z (Z.max (len a) (len b)) - d)
                / inject_Z (Z.max (len a) (len b))) * 100))
  ∧ 0 <= calculateSimilarity a b (inject_Z (calculateLevenshteinDistance a b))
  ∧ calculateSimilarity a b (inject_Z (calculateLevenshteinDistance a b)) <= 100
  ∧ (calculateSimilarity a b (inject_Z (calculateLevenshteinDistance a b)) == 100
     ↔ a = b).
Proof.
  split; [|split].
  - intros d -> ->. reflexivity.
  - intros d Hne. unfold calculateSimilarity, calculateSimilarity_rounded, Math_max.
    destruct (Z.eqb_spec (Z.max (len a) (len b)) 0) as [E|E]; [|done].
    by apply maxLength_zero in E.
  - unfold calculateSimilarity, calculateSimilarity_rounded, Math_max.
    destruct (Z.eqb_spec (Z.max (len a) (len b)) 0) as [E|E].
    + apply maxLength_zero in E as [-> ->].
      split; [done | split; [apply Qle_refl | done]].
    + pose proof (lev_nonneg a b) as Hd0. pose proof (lev_upper a b) as Hdm.
      assert (0 < Z.max (len a) (len b))%Z as Hm by (unfold len in *; lia).
      destruct (ratio_facts _ _ Hm (conj Hd0 Hdm)) as (Hx0 & Hx1 & Hx).
      rewrite (Q.max_r _ _ Hx0).
      split; [done | split; [done|]].
      rewrite Hx. apply lev_zero_iff.
Qed.

(** An instance of C5. *)
Lemma similarity_formula_range_witness :
  calculateSimilarity (lit "ab") (lit "ab") 0 =
  Qmax 0 (((inject_Z 2 - 0) / inject_Z 2) * 100).
Proof.
  destruct (similarity_formula_range (lit "ab") (lit "ab")) as (_ & H & _).
  apply H. intros [E _]. discriminate E.
Defined.

End SimilarityFacts.

(** The range of the score and the condition for [100] do not depend on
    exact arithmetic: they hold for every rounding that is monotone, leaves
    the integers up to [2^53] and the number just below [1] as they are, and
    takes a hundred times that number below [100], as rounding to the
    nearest double does; strings have fewer than [2^53] code units. *)
Section SimilarityRounding.

Local Open Scope Q_scope.

Variable rnd : Q → Q.
Hypothesis rnd_proper : ∀ x y, x == y → rnd x == rnd y.
Hypothesis rnd_mono : ∀ x y, x <= y → rnd x <= rnd y.
Hypothesis rnd_int : ∀ z : Z, (0 ≤ z ≤ 2 ^ 53)%Z → rnd (inject_Z z) == inject_Z z.
Hypothesis rnd_below_one : rnd below_one == below_one.
Hypothesis rnd_below_100 : rnd (below_one * 100) < 100.

Lemma rounded_ratio_facts (m d : Z) :
  (0 < m ≤ 2 ^ 53)%Z → (0 ≤ d ≤ m)%Z →
  let x := rnd (rnd (rnd (inject_Z m - inject_Z d) / inject_Z m) * 100) in
  0 <= x ∧ x <= 100 ∧ (x == 100 ↔ d = 0%Z).
Proof.
  intros Hm Hd x.
  assert (0 < inject_Z m) as HM by (change 0 with (inject_Z 0); rewrite <- Zlt_Qlt; lia).
  assert (rnd 0 == 0) as R0 by (apply (rnd_int 0); lia).
  assert (rnd 1 == 1) as R1 by (apply (rnd_int 1); lia).
  assert (rnd 100 == 100) as R100 by (apply (rnd_int 100); lia).
  assert (rnd (inject_Z m - inject_Z d) == inject_Z (m - d)) as E1.
  { rewrite <- (rnd_int (m - d)) by lia. apply rnd_proper.
    unfold Z.sub. rewrite inject_Z_plus, inject_Z_opp. reflexivity. }
  assert (0 <= inject_Z (m - d)) as Hn0
    by (change 0 with (inject_Z 0); rewrite <- Zle_Qle; lia).
  assert (inject_Z (m - d) <= inject_Z m) as Hnm by (rewrite <- Zle_Qle; lia).
  set (q := rnd (inject_Z m - inject_Z d) / inject_Z m) in *.
  assert (q == inject_Z (m - d) / inject_Z m) as Eq by (unfold q; by rewrite E1).
  assert (0 <= q) as Hq0.
  { rewrite Eq. apply Qle_shift_div_l; [done|]. lra. }
  assert (q <= 1) as Hq1.
  { rewrite Eq. apply Qle_shift_div_r; [done|]. lra. }
  pose proof (rnd_mono _ _ Hq0) as Hr0. pose proof (rnd_mono _ _ Hq1) as Hr1.
  assert (0 <= rnd q * 100) as Hp0 by lra.
  assert (rnd q * 100 <= 100) as Hp1 by lra.
  pose proof (rnd_mono _ _ Hp0) as Hx0. pose proof (rnd_mono _ _ Hp1) as Hx1.
  fold x in Hx0, Hx1.
  assert (0 <= x) as Hx0' by lra.
  assert (x <= 100) as Hx1' by lra.
  split; [done | split; [done|]]. split.
  - intros Hx. destruct (decide (d = 0%Z)) as [|Hne]; [done|]. exfalso.
    assert (1 <= inject_Z d) as Hd1
      by (change 1 with (inject_Z 1); rewrite <- Zle_Qle; lia).
    assert (inject_Z m <= inject_Z (2 ^ 53)) as Hm53 by (rewrite <- Zle_Qle; lia).
    assert (inject_Z (m - d) == inject_Z m - inject_Z d) as Emd
      by (unfold Z.sub; rewrite inject_Z_plus, inject_Z_opp; reflexivity).
    assert (q <= below_one) as Hqb.
    { rewrite Eq. apply Qle_shift_div_r; [done|]. rewrite Emd.
      unfold below_one. change (inject_Z (2 ^ 53)) with (2 ^ 53 # 1) in Hm53.
      change (2 ^ 53)%Z with 9007199254740992%Z in *.
      change (2 ^ 53)%positive with 9007199254740992%positive. lra. }
    pose proof (rnd_mono _ _ Hqb) as Hrb.
    assert (rnd q * 100 <= below_one * 100) as Hpb by lra.
    pose proof (rnd_mono _ _ Hpb) as Hxb. fold x in Hxb.
    lra.
  - intros ->. subst x.
    assert (q == 1) as Eq1.
    { rewrite Eq. rewrite Z.sub_0_r. field.
      intros E. rewrite E in HM. by apply Qlt_irrefl in HM. }
    apply Qeq_trans with (rnd 100); [apply rnd_proper | exact R100].
    rewrite (rnd_proper q 1 Eq1), R1. reflexivity.
Qed.

Lemma similarity_rounded_range (a b : list N) :
  (len a ≤ 2 ^ 53)%Z → (len b ≤ 2 ^ 53)%Z →
  let score :=
    calculateSimilarity_rounded rnd a b (inject_Z (calculateLevenshteinDistance a b)) in
  0 <= score ∧ score <= 100 ∧ (score == 100 ↔ a = b).
Proof.
  intros Ha Hb score. subst score. unfold calculateSimilarity_rounded, Math_max.
  destruct (Z.eqb_spec (Z.max (len a) (len b)) 0) as [E|E].
  - apply maxLength_zero in E as [-> ->].
    split; [done | split; [apply Qle_refl | done]].
  - pose proof (lev_nonneg a b) as Hd0. pose proof (lev_upper a b) as Hdm.
    assert (0 < Z.max (len a) (len b) ≤ 2 ^ 53)%Z as Hm by (unfold len in *; lia).
    destruct (rounded_ratio_facts _ _ Hm (conj Hd0 Hdm)) as (Hx0 & Hx1 & Hx).
    rewrite (Q.max_r _ _ Hx0).
    split; [done | split; [done|]].
    rewrite Hx. apply lev_zero_iff.
Qed.

End SimilarityRounding.

(** Exact arithmetic is one such rounding. *)
Lemma similarity_rounded_range_exact (a b : list N) :
  (len a ≤ 2 ^ 53)%Z → (len b ≤ 2 ^ 53)%Z →
  (0 <= calculateSimilarity a b (inject_Z (calculateLevenshteinDistance a b)))%Q
  ∧ (calculateSimilarity a b (inject_Z (calculateLevenshteinDistance a b)) <= 100)%Q
  ∧ ((calculateSimilarity a b (inject_Z (calculateLevenshteinDistance a b)) == 100)%Q
     ↔ a = b).
Proof.
  apply (similarity_rounded_range (fun x => x)).
  - done.
  - done.
  - intros; reflexivity.
  - reflexivity.
  - unfold below_one. vm_compute. reflexivity.
Qed.

(** ** Entity merging *)

Section MergeFacts.

Implicit Types (A B : list DetectedEntity) (e : DetectedEntity).

Lemma elem_of_text_set A (t : list N) : t ∈ text_set A ↔ t ∈ texts A.
Proof. unfold text_set, texts. apply elem_of_list_to_set. Qed.

Lemma merge_loop_filter (S0 : gset (list N)) B : ∀ acc,
  foldl (fun merged re => if decide (text re ∈ S0) then merged else merged ++ [re])
        acc B
  = acc ++ filter (fun re => text re ∉ S0) B.
Proof.
  induction B as [|re B IH]; intros acc; simpl.
  - by rewrite app_nil_r.
  - rewrite IH. rewrite filter_cons.
    destruct (decide (text re ∈ S0)) as [Hin|Hout].
    + rewrite decide_False by (intros H; by apply H). done.
    + rewrite decide_True by done. by rewrite <- app_assoc.
Qed.

Lemma mergeEntities_filter A B :
  mergeEntities A B = A ++ filter (fun re => text re ∉ texts A) B.
Proof.
  unfold mergeEntities. rewrite merge_loop_filter. f_equal.
  apply list_filter_iff. intros re. by rewrite elem_of_text_set.
Qed.

(** C4: the merged list is the primary list as it is, followed by the
    secondary entities whose text is the text of no primary entity, in their
    order; so every primary entity is in it, and every entity of it that is
    not a primary one has a text that no primary entity has. *)
Theorem merge_primary_then_unseen A B :
  mergeEntities A B = A ++ filter (fun re => text re ∉ texts A) B
  ∧ (∀ e, e ∈ A → e ∈ mergeEntities A B)
  ∧ (∀ e, e ∈ mergeEntities A B → e ∉ A → e ∈ B ∧ text e ∉ texts A).
Proof.
  rewrite mergeEntities_filter. split; [done | split].
  - intros e He. apply elem_of_app. by left.
  - intros e He Hn. apply elem_of_app in He as [He|He]; [done|].
    by apply list_elem_of_filter in He as [? ?].
Qed.

(** An instance of C4: a secondary entity is dropped when a primary entity
    has the same text, and kept when only the letter case differs. *)
Lemma merge_primary_then_unseen_witness :
  let bob := entity (lit "Bob") PERSON in
  let bob' := entity (lit "Bob") LOCATION in
  let low := entity (lit "bob") PERSON in
  mergeEntities [bob] [bob'; low] = [bob; low]
  ∧ bob ∈ mergeEntities [bob] [bob'; low]
  ∧ (low ∈ [bob'; low] ∧ text low ∉ texts [bob]).
Proof.
  intros bob bob' low.
  destruct (merge_primary_then_unseen [bob] [bob'; low]) as (H1 & H2 & H3).
  split; [|split].
  - rewrite H1. vm_compute. reflexivity.
  - apply H2. apply list_elem_of_here.
  - apply H3.
    + rewrite H1. vm_compute. apply list_elem_of_further, list_elem_of_here.
    + intros H. apply list_elem_of_singleton in H. discriminate H.
Defined.

(** C10: secondary entities are only compared with the primary texts, not
    with each other: two secondary entities with the same text, a text that
    no primary entity has, are both in the merged list, in their order. *)
Theorem merge_keeps_secondary_duplicates A B1 B2 B3 e1 e2 :
  text e1 = text e2 → text e1 ∉ texts A →
  ∃ l1 l2 l3,
    mergeEntities A (B1 ++ e1 :: B2 ++ e2 :: B3)
    = A ++ l1 ++ e1 :: l2 ++ e2 :: l3.
Proof.
  intros Heq Hout. rewrite mergeEntities_filter.
  exists (filter (fun re => text re ∉ texts A) B1),
         (filter (fun re => text re ∉ texts A) B2),
         (filter (fun re => text re ∉ texts A) B3).
  rewrite filter_app, filter_cons, decide_True by done.
  rewrite filter_app, filter_cons, decide_True by (by rewrite <- Heq).
  done.
Qed.

(** An instance of C10. *)
Lemma merge_keeps_secondary_duplicates_witness :
  let ip := entity (lit "10.0.0.1") IP_ADDRESS in
  ∃ l1 l2 l3,
    mergeEntities [entity (lit "Bob") PERSON] ([] ++ ip :: [] ++ ip :: [])
    = [entity (lit "Bob") PERSON] ++ l1 ++ ip :: l2 ++ ip :: l3.
Proof.
  intros ip.
  apply (merge_keeps_secondary_duplicates [entity (lit "Bob") PERSON] [] [] [] ip ip).
  - reflexivity.
  - intros H. apply list_elem_of_singleton in H. discriminate H.
Defined.

Example merge_duplicates_run :
  let ip := entity (lit "10.0.0.1") IP_ADDRESS in
  mergeEntities [entity (lit "Bob") PERSON] [ip; ip]
  = [entity (lit "Bob") PERSON; ip; ip].
Proof. vm_compute. reflexivity. Qed.

End MergeFacts.

(** ** Redaction *)

Section BuiltinFacts.

Lemma is_prefix_spec (pat s : list N) :
  is_prefix pat s = true ↔ take (length pat) s = pat ∧ (length pat ≤ length s)%nat.
Proof.
  revert s. induction pat as [|a pat IH]; intros s; simpl.
  - split; [intros _; split; [by rewrite take_0 | lia] | done].
  - destruct s as [|b s]; simpl.
    + split; [done | intros [_ H]; lia].
    + rewrite andb_true_iff, N.eqb_eq, IH. split.
      * intros [-> [-> Hl]]. split; [done | lia].
      * intros [[= -> Ht] Hl]. split; [done | split; [done | lia]].
Qed.

Lemma indexOf_from_spec (pat : list N) : ∀ rest k r,
  indexOf_from pat rest k = r →
  r = -1 ∨
  ∃ d : nat, r = Z.of_nat (k + d) ∧ (d + length pat ≤ length rest)%nat
             ∧ take (length pat) (drop d rest) = pat.
Proof.
  induction rest as [|c rest IH]; intros k r; simpl.
  - destruct (is_prefix pat []) eqn:E.
    + intros <-. right. exists 0%nat. apply is_prefix_spec in E as [E1 E2].
      rewrite Nat.add_0_r. repeat split; [simpl in *; lia | done].
    + intros <-. by left.
  - destruct (is_prefix pat (c :: rest)) eqn:E.
    + intros <-. right. exists 0%nat. apply is_prefix_spec in E as [E1 E2].
      rewrite Nat.add_0_r. repeat split; [simpl in *; lia | done].
    + intros Hr. apply IH in Hr as [->|(d & -> & Hd & Ht)]; [by left|].
      right. exists (S d). repeat split; [lia | simpl; lia | done].
Qed.

(** A found index is at or after the (clamped) start of the search, the
    occurrence lies within the string, and the string holds [pat] there. *)
Lemma indexOf_found (s pat : list N) (position r : Z) :
  indexOf s pat position = r → r ≠ -1 →
  Z.of_nat (Nat.min (Z.to_nat position) (length s)) ≤ r
  ∧ r + len pat ≤ len s
  ∧ substring s (Z.to_nat r) (Z.to_nat (r + len pat)) = pat.
Proof.
  unfold indexOf, len, substring. intros Hr Hne.
  set (pos := Nat.min (Z.to_nat position) (length s)) in *.
  apply indexOf_from_spec in Hr as [->|(d & -> & Hd & Ht)]; [done|].
  rewrite length_drop in Hd.
  split; [lia | split; [lia|]].
  rewrite drop_drop in Ht.
  replace (Z.to_nat (Z.of_nat (pos + d) + Z.of_nat (length pat)) - Z.to_nat (Z.of_nat (pos + d)))%nat
    with (length pat) by lia.
  by rewrite Nat2Z.id.
Qed.

Lemma indexOf_empty (s : list N) (position : Z) : 0 ≤ indexOf s [] position.
Proof.
  unfold indexOf. destruct (drop _ s); simpl; lia.
Qed.

Lemma sort_insert_perm {A} (cmp : A → A → Z) x l : sort_insert cmp x l ≡ₚ x :: l.
Proof.
  induction l as [|y l IH]; simpl; [done|].
  destruct (cmp x y <=? 0); [done|].
  rewrite IH. apply Permutation_swap.
Qed.

Lemma sort_perm {A} (cmp : A → A → Z) l : sort cmp l ≡ₚ l.
Proof.
  unfold sort. induction l as [|x l IH]; simpl; [done|].
  rewrite sort_insert_perm. by rewrite IH.
Qed.

End BuiltinFacts.

Section RedactionFacts.

Implicit Types (txt : list N) (e a b : DetectedEntity) (l processed : list DetectedEntity).

Lemma ranges_overlap_sym a b : ranges_overlap a b → ranges_overlap b a.
Proof.
  intros (sa & ea & sb & eb & Ha1 & Ha2 & Hb1 & Hb2 & H1 & H2).
  exists sb, eb, sa, ea. repeat split; try done; lia.
Qed.

Lemma no_overlap_snoc l x :
  no_overlap l → Forall (fun a => ¬ ranges_overlap x a) l → no_overlap (l ++ [x]).
Proof.
  induction l as [|a l IH]; simpl; intros Hl Hx.
  - split; [constructor | done].
  - destruct Hl as [Ha Hl]. inversion Hx as [|? ? Hxa Hxl]; subst. split.
    + apply Forall_app. split; [done|]. constructor; [|constructor].
      intros H. by apply Hxa, ranges_overlap_sym.
    + by apply IH.
Qed.

Lemma no_overlap_perm l l' : l ≡ₚ l' → no_overlap l → no_overlap l'.
Proof.
  induction 1 as [|x l l' Hp IH|x y l|l l' l'' Hp1 IH1 Hp2 IH2]; simpl.
  - done.
  - intros [Hx Hl]. split; [by rewrite <- Hp | by apply IH].
  - intros [Hy [Hx Hl]]. inversion Hy as [|? ? Hyx Hyl]; subst.
    split; [|done]. constructor; [|done].
    intros H. by apply Hyx, ranges_overlap_sym.
  - intros H. by apply IH2, IH1.
Qed.

(** The list form of [no_overlap] gives the statement by positions. *)
Lemma no_overlap_lookup l : no_overlap l →
  ∀ i j a b, i ≠ j → l !! i = Some a → l !! j = Some b → ¬ ranges_overlap a b.
Proof.
  induction l as [|x l IH]; simpl; intros Hl i j a b Hij Hi Hj; [done|].
  destruct Hl as [Hx Hl]. rewrite Forall_forall in Hx.
  destruct i as [|i], j as [|j]; simpl in *.
  - done.
  - injection Hi as <-. apply Hx. by eapply list_elem_of_lookup_2.
  - injection Hj as <-. intros H. apply ranges_overlap_sym in H. revert H.
    apply Hx. by eapply list_elem_of_lookup_2.
  - eapply IH; [done | | done..]. congruence.
Qed.

Lemma isOverlap_false processed foundIndex tlen e :
  isOverlap processed foundIndex tlen = false →
  Forall (fun a => ¬ ranges_overlap
                     (mkEntity (text e) (type e) (Some foundIndex)
                               (Some (foundIndex + tlen))) a) processed.
Proof.
  unfold isOverlap. intros H. apply Forall_forall. intros a Ha.
  intros (sa & ea & sb & eb & Ha1 & Ha2 & Hb1 & Hb2 & H1 & H2).
  simpl in Ha1, Ha2. injection Ha1 as <-. injection Ha2 as <-.
  assert (existsb (overlaps foundIndex tlen) processed = true) as Hex.
  { apply existsb_exists. exists a. split; [by apply list_elem_of_In|].
    unfold overlaps. rewrite Hb1, Hb2.
    apply andb_true_iff. split; [apply Z.ltb_lt | apply Z.gtb_gt]; lia. }
  congruence.
Qed.

(** The search loop does not end on an entity with an empty text:
    [indexOf] finds the empty string at every start of the search. *)
Lemma find_loop_empty_text fuel txt e : text e = [] →
  ∀ searchIndex processed, find_loop fuel txt e searchIndex processed = None.
Proof.
  intros He. induction fuel as [|fuel IH]; intros searchIndex processed; simpl; [done|].
  rewrite He. pose proof (indexOf_empty txt searchIndex) as H0.
  destruct (Z.eqb_spec (indexOf txt [] searchIndex) (-1)) as [E|E]; [lia|].
  rewrite <- He at 2 3. apply IH.
Qed.

Lemma find_loop_good fuel txt e : ∀ searchIndex processed processed',
  find_loop fuel txt e searchIndex processed = Some processed' →
  Forall (resolved_in txt) processed → no_overlap processed →
  Forall (resolved_in txt) processed' ∧ no_overlap processed'.
Proof.
  destruct (decide (text e = [])) as [He|He].
  { intros ? ? ? H. by rewrite find_loop_empty_text in H. }
  induction fuel as [|fuel IH]; intros searchIndex processed processed'; simpl; [done|].
  destruct (Z.eqb_spec (indexOf txt (text e) searchIndex) (-1)) as [E|E].
  - intros [= <-]. done.
  - intros Hloop Hres Hno.
    destruct (indexOf_found _ _ _ _ eq_refl E) as (Hge & Hle & Hsub).
    set (found := indexOf txt (text e) searchIndex) in *.
    destruct (isOverlap processed found (len (text e))) eqn:Eov.
    + by eapply IH.
    + eapply IH; [done | |].
      * apply Forall_app. split; [done|]. constructor; [|constructor].
        exists found, (found + len (text e)). simpl.
        assert (0 < len (text e)) by (unfold len; destruct (text e); [done | simpl; lia]).
        repeat split; try done; lia.
      * apply no_overlap_snoc; [done|]. by apply isOverlap_false.
Qed.

Lemma redact_all_good fuel txt mode : ∀ es st st',
  redact_all fuel txt mode st es = Some st' →
  Forall (resolved_in txt) st.2 → no_overlap st.2 →
  Forall (resolved_in txt) st'.2 ∧ no_overlap st'.2.
Proof.
  induction es as [|e es IH]; intros st st'; simpl.
  - intros [= <-]. done.
  - unfold redact_one at 1.
    destruct (find_loop fuel txt e 0 st.2) as [processed|] eqn:E; simpl; [|done].
    intros Hall Hres Hno.
    destruct (find_loop_good _ _ _ _ _ _ E Hres Hno) as [H1 H2].
    by eapply IH.
Qed.

(** C1: every entity that [applyRedaction] returns has a range with
    [0 <= startIndex < endIndex <= text.length], its text is the text of the
    input at that range, and no two returned entities overlap. *)
Theorem applyRedaction_resolved_ranges fuel txt es mode r :
  applyRedaction fuel txt es mode = Some r →
  Forall (resolved_in txt) (entitiesWithIndices r)
  ∧ ∀ i j a b, i ≠ j →
      entitiesWithIndices r !! i = Some a → entitiesWithIndices r !! j = Some b →
      ¬ ranges_overlap a b.
Proof.
  unfold applyRedaction.
  destruct (redact_all fuel txt mode (txt, []) (sort by_length_desc es))
    as [st|] eqn:E; simpl; [|done].
  intros [= <-]. simpl.
  destruct (redact_all_good _ _ _ _ _ _ E) as [H1 H2]; [constructor | done |].
  split.
  - by rewrite sort_perm.
  - apply no_overlap_lookup. eapply no_overlap_perm; [|done].
    symmetry. apply sort_perm.
Qed.

(** An instance of C1: in ["ababa"] the longer text ["aba"] is resolved
    first, at [0]; its occurrence at [2] and the occurrence of ["ba"] at [1]
    overlap that range and are dropped; ["ba"] is resolved at [3]. *)
Lemma applyRedaction_resolved_ranges_witness :
  let r := mkResult (lit "[PERSON][PERSON]")
             [mkEntity (lit "aba") PERSON (Some 0) (Some 3);
              mkEntity (lit "ba") PERSON (Some 3) (Some 5)] in
  Forall (resolved_in (lit "ababa")) (entitiesWithIndices r)
  ∧ ∀ i j a b, i ≠ j →
      entitiesWithIndices r !! i = Some a → entitiesWithIndices r !! j = Some b →
      ¬ ranges_overlap a b.
Proof.
  apply (applyRedaction_resolved_ranges 10 (lit "ababa")
           [entity (lit "ba") PERSON; entity (lit "aba") PERSON] MASK).
  vm_compute. reflexivity.
Defined.

Lemma redact_all_empty_text fuel txt mode e : ∀ es st,
  e ∈ es → text e = [] → redact_all fuel txt mode st es = None.
Proof.
  induction es as [|x es IH]; intros st Hin He; [by apply not_elem_of_nil in Hin|].
  simpl. apply elem_of_cons in Hin as [<-|Hin].
  - unfold redact_one. by rewrite find_loop_empty_text.
  - destruct (redact_one fuel txt mode st x) as [st'|]; simpl; [|done].
    by apply IH.
Qed.

Lemma applyRedaction_empty_text fuel txt es mode e :
  e ∈ es → text e = [] → applyRedaction fuel txt es mode = None.
Proof.
  intros Hin He. unfold applyRedaction.
  rewrite (redact_all_empty_text fuel txt mode e); [done | | done].
  by rewrite sort_perm.
Qed.

(** C3: the search loop of [applyRedaction] has no end when an entity has
    the empty text, whatever the number of rounds allowed: the call returns
    nothing. *)
Theorem applyRedaction_empty_text_no_result fuel txt es mode :
  (∃ e, e ∈ es ∧ text e = []) → applyRedaction fuel txt es mode = None.
Proof. intros (e & Hin & He). by eapply applyRedaction_empty_text. Qed.

(** An instance of C3: the text ["a"] and one entity with the empty text. *)
Lemma applyRedaction_empty_text_no_result_witness :
  applyRedaction 1000 (lit "a") [entity [] PERSON] MASK = None.
Proof.
  apply applyRedaction_empty_text_no_result.
  exists (entity [] PERSON). split; [apply list_elem_of_here | reflexivity].
Defined.

Lemma find_loop_total txt e : text e ≠ [] →
  ∀ fuel searchIndex processed,
    (length txt - Nat.min (Z.to_nat searchIndex) (length txt) < fuel)%nat →
    is_Some (find_loop fuel txt e searchIndex processed).
Proof.
  intros He. induction fuel as [|fuel IH]; intros searchIndex processed Hfuel; [lia|].
  simpl.
  destruct (Z.eqb_spec (indexOf txt (text e) searchIndex) (-1)) as [E|E]; [done|].
  destruct (indexOf_found _ _ _ _ eq_refl E) as (Hge & Hle & _).
  assert (0 < len (text e)) by (unfold len; destruct (text e); [done | simpl; lia]).
  apply IH. unfold len in *. lia.
Qed.

Lemma redact_all_total fuel txt mode : (length txt < fuel)%nat →
  ∀ es st, Forall (fun e => text e ≠ []) es →
    is_Some (redact_all fuel txt mode st es).
Proof.
  intros Hfuel. induction es as [|e es IH]; intros st Hes; simpl; [done|].
  inversion Hes as [|? ? He Hes']; subst.
  unfold redact_one at 1.
  destruct (find_loop_total txt e He fuel 0 st.2) as [processed ->]; [lia|].
  simpl. by apply IH.
Qed.

(** With more rounds than the text has code units, [applyRedaction] returns
    a result exactly when no entity has the empty text. *)
Lemma applyRedaction_returns_iff fuel txt es mode : (length txt < fuel)%nat →
  is_Some (applyRedaction fuel txt es mode) ↔ Forall (fun e => text e ≠ []) es.
Proof.
  intros Hfuel. split.
  - intros Hsome. apply Forall_forall. intros e Hin He.
    rewrite (applyRedaction_empty_text _ _ _ _ e) in Hsome by done.
    by destruct Hsome.
  - intros Hes. unfold applyRedaction.
    destruct (redact_all_total fuel txt mode Hfuel (sort by_length_desc es) (txt, []))
      as [st ->]; [by rewrite sort_perm | done].
Qed.

(** C9: in REMOVE mode the IP address is deleted from ["IP: 10.0.0.1 end"],
    the two spaces left around it become one and the result is trimmed:
    ["IP: end"], not ["IP:  end"]. *)
Theorem applyRedaction_remove_ip (fuel : nat) :
  redactedText <$>
    applyRedaction (2 + fuel) (lit "IP: 10.0.0.1 end")
      [entity (lit "10.0.0.1") IP_ADDRESS] REMOVE
  = Some (lit "IP: end")
  ∧ lit "IP: end" ≠ lit "IP:  end".
Proof. split; [vm_compute; reflexivity | discriminate]. Qed.

Example applyRedaction_mask_ip :
  applyRedaction 2 (lit "IP: 10.0.0.1 end") [entity (lit "10.0.0.1") IP_ADDRESS] MASK
  = Some (mkResult (lit "IP: [IP_ADDRESS] end")
            [mkEntity (lit "10.0.0.1") IP_ADDRESS (Some 4) (Some 12)]).
Proof. vm_compute. reflexivity. Qed.

Example applyRedaction_no_entities :
  applyRedaction 0 (lit "aaa bbb") [] MASK = Some (mkResult (lit "aaa bbb") []).
Proof. vm_compute. reflexivity. Qed.

End RedactionFacts.

(** ** The matcher *)

Section RegexFacts.

Implicit Types (r : regex) (s : list N) (i j : nat).

(** Matches end at or after their start, within the string. *)
Lemma rep_bounds (step : nat → list nat) (n : nat) :
  (∀ i j, (i ≤ n)%nat → j ∈ step i → (i ≤ j ≤ n)%nat) →
  ∀ max min i j, (i ≤ n)%nat → j ∈ rep step min max i → (i ≤ j ≤ n)%nat.
Proof.
  intros Hstep. induction max as [|max IH]; intros min i j Hi; simpl.
  - intros H. apply list_elem_of_singleton in H as ->. lia.
  - intros H. apply elem_of_app in H as [H|H].
    + apply list_elem_of_bind in H as (k & Hj & Hk).
      apply Hstep in Hk; [|done].
      destruct ((min =? 0)%nat && (k =? i)%nat); [by apply not_elem_of_nil in Hj|].
      apply IH in Hj; lia.
    + destruct (min =? 0)%nat; [|by apply not_elem_of_nil in H].
      apply list_elem_of_singleton in H as ->. lia.
Qed.

Lemma ends_bounds r s : ∀ i j,
  (i ≤ length s)%nat → j ∈ ends r s i → (i ≤ j ≤ length s)%nat.
Proof.
  induction r as [|p|r1 IH1 r2 IH2|r1 IH1 r2 IH2|r IH min max|r IH min|];
    intros i j Hi; simpl.
  - intros H. apply list_elem_of_singleton in H as ->. lia.
  - destruct (s !! i) as [c|] eqn:E; [|intros H; by apply not_elem_of_nil in H].
    apply lookup_lt_Some in E.
    destruct (p c); intros H; [|by apply not_elem_of_nil in H].
    apply list_elem_of_singleton in H as ->. lia.
  - intros H. apply list_elem_of_bind in H as (k & Hj & Hk).
    apply IH1 in Hk; [|done]. apply IH2 in Hj; lia.
  - intros H. apply elem_of_app in H as [H|H]; [by apply IH1 | by apply IH2].
  - by apply rep_bounds.
  - by apply rep_bounds.
  - destruct (xorb _ _); intros H; [|by apply not_elem_of_nil in H].
    apply list_elem_of_singleton in H as ->. lia.
Qed.

Lemma rep_consumes (step : nat → list nat) (n : nat) :
  (∀ i j, (i ≤ n)%nat → j ∈ step i → (i < j ≤ n)%nat) →
  ∀ max min i j, (0 < min)%nat → (0 < max)%nat → (i ≤ n)%nat →
    j ∈ rep step min max i → (i < j)%nat.
Proof.
  intros Hstep max min i j Hmin Hmax Hi. destruct max as [|max]; [lia|]. simpl.
  destruct min as [|min]; [lia|]. simpl. rewrite app_nil_r.
  intros H. apply list_elem_of_bind in H as (k & Hj & Hk).
  apply Hstep in Hk; [|done].
  apply (rep_bounds step n) in Hj; [lia | | lia].
  intros i' j' Hi' Hj'. apply Hstep in Hj'; lia.
Qed.

Lemma ends_consumes r s : consumes r = true →
  ∀ i j, (i ≤ length s)%nat → j ∈ ends r s i → (i < j)%nat.
Proof.
  induction r as [|p|r1 IH1 r2 IH2|r1 IH1 r2 IH2|r IH min max|r IH min|];
    simpl; intros Hc i j Hi; try done.
  - destruct (s !! i) as [c|]; [|intros H; by apply not_elem_of_nil in H].
    destruct (p c); intros H; [|by apply not_elem_of_nil in H].
    apply list_elem_of_singleton in H as ->. lia.
  - intros H. apply list_elem_of_bind in H as (k & Hj & Hk).
    pose proof (ends_bounds _ _ _ _ Hi Hk) as Hb1.
    pose proof (ends_bounds r2 s k j (proj2 Hb1) Hj) as Hb2.
    apply orb_true_iff in Hc as [Hc|Hc].
    + apply (IH1 Hc) in Hk; [lia | done].
    + apply (IH2 Hc) in Hj; lia.
  - apply andb_true_iff in Hc as [Hc1 Hc2].
    intros H. apply elem_of_app in H as [H|H]; [by apply IH1 | by apply IH2].
  - apply andb_true_iff in Hc as [Hc Hc3]. apply andb_true_iff in Hc as [Hc1 Hc2].
    apply Nat.ltb_lt in Hc1, Hc2.
    apply (rep_consumes (ends r s) (length s)); [|done..].
    intros i' j' Hi' Hj'. split; [by apply (IH Hc3) | by eapply ends_bounds].
  - apply andb_true_iff in Hc as [Hc1 Hc3]. apply Nat.ltb_lt in Hc1.
    apply (rep_consumes (ends r s) (length s)); [|done|lia|done].
    intros i' j' Hi' Hj'. split; [by apply (IH Hc3) | by eapply ends_bounds].
Qed.

Lemma match_at_bounds r s i e :
  (i ≤ length s)%nat → match_at r s i = Some e → (i ≤ e ≤ length s)%nat.
Proof.
  unfold match_at. intros Hi He. apply (ends_bounds r s); [done|].
  destruct (ends r s i); simplify_eq/=. apply list_elem_of_here.
Qed.

Lemma match_at_consumes r s i e : consumes r = true →
  (i ≤ length s)%nat → match_at r s i = Some e → (i < e)%nat.
Proof.
  unfold match_at. intros Hc Hi He. apply (ends_consumes r s); [done..|].
  destruct (ends r s i); simplify_eq/=. apply list_elem_of_here.
Qed.

Lemma find_match_bounds r s : ∀ k i b e,
  (i + k ≤ length s)%nat → find_match r s i k = Some (b, e) →
  (i ≤ b)%nat ∧ (b ≤ e ≤ length s)%nat ∧ match_at r s b = Some e.
Proof.
  induction k as [|k IH]; intros i b e Hi; simpl.
  - destruct (match_at r s i) as [e'|] eqn:E; [|done].
    intros [= <- <-]. split; [done | split; [|done]].
    apply (match_at_bounds r s); [lia | done].
  - destruct (match_at r s i) as [e'|] eqn:E.
    + intros [= <- <-]. split; [done | split; [|done]].
      apply (match_at_bounds r s); [lia | done].
    + intros H. apply IH in H; [|lia]. destruct H as (? & ? & ?).
      split; [lia | done].
Qed.

Lemma exec_bounds r s lastIndex b e :
  exec r s lastIndex = Some (b, e) →
  (lastIndex ≤ b)%nat ∧ (b ≤ e ≤ length s)%nat ∧ match_at r s b = Some e.
Proof.
  unfold exec. destruct (Nat.ltb_spec (length s) lastIndex); [done|].
  apply find_match_bounds. lia.
Qed.

End RegexFacts.

(** ** The pattern built from an entity text is that text *)

Section LiteralFacts.

Implicit Types (r : regex) (s t : list N) (p : N → bool).

(** The rounds that [replace] allows are enough: more rounds change
    nothing. *)
Lemma replace_loop_enough r (f : list N → list N) s : ∀ k k' lastIndex next,
  (length s + 1 - lastIndex < k)%nat → (k ≤ k')%nat →
  replace_loop r f s k lastIndex next = replace_loop r f s k' lastIndex next.
Proof.
  induction k as [|k IH]; intros k' lastIndex next Hk Hk'; [lia|].
  destruct k' as [|k']; [lia|]. simpl.
  destruct (exec r s lastIndex) as [[b e]|] eqn:E; [|done].
  apply exec_bounds in E as (H1 & H2 & _).
  do 2 f_equal. apply IH; [|lia].
  destruct (Nat.eqb_spec e b); lia.
Qed.

Lemma match_at_Cls p s i :
  match_at (Cls p) s i
  = match s !! i with
    | Some c => if p c then Some (S i) else None
    | None => None
    end.
Proof. unfold match_at. simpl. destruct (s !! i) as [c|]; [by destruct (p c) | done]. Qed.

(** Searching for one code unit of a class finds the first one. *)
Lemma find_match_Cls p s : ∀ n i, (i + n = length s)%nat →
  match find_match (Cls p) s i n with
  | Some (b, e) =>
      e = S b ∧ (i ≤ b)%nat
      ∧ (∃ c, s !! b = Some c ∧ p c = true)
      ∧ Forall (fun c => p c = false) (substring s i b)
  | None => Forall (fun c => p c = false) (drop i s)
  end.
Proof.
  induction n as [|n IH]; intros i Hi; simpl; rewrite match_at_Cls.
  - rewrite lookup_ge_None_2 by lia. rewrite drop_ge by lia. constructor.
  - destruct (s !! i) as [c|] eqn:Ec; [|apply lookup_ge_None in Ec; lia].
    destruct (p c) eqn:Epc.
    + split; [done | split; [done | split; [eauto|]]].
      unfold substring. rewrite Nat.sub_diag. constructor.
    + specialize (IH (S i) ltac:(lia)).
      destruct (find_match (Cls p) s (S i) n) as [[b e]|].
      * destruct IH as (-> & Hb & Hc & Hall). split; [done | split; [lia | split; [done|]]].
        unfold substring in *. rewrite (drop_S _ _ _ Ec).
        replace (b - i)%nat with (S (b - S i)) by lia. simpl. by constructor.
      * rewrite (drop_S _ _ _ Ec). by constructor.
Qed.

Lemma bind_unchanged (g : N → list N) (l : list N) :
  Forall (fun c => g c = [c]) l → l ≫= g = l.
Proof.
  induction 1 as [|c l Hc _ IH]; [done|].
  rewrite bind_cons, Hc, IH. done.
Qed.

(** Replacing every code unit of a class works unit by unit. *)
Lemma replace_Cls p (f : list N → list N) s : ∀ k i,
  (i ≤ length s)%nat → (length s + 1 - i < k)%nat →
  replace_loop (Cls p) f s k i i = drop i s ≫= (fun c => if p c then f [c] else [c]).
Proof.
  induction k as [|k IH]; intros i Hi Hk; [lia|]. simpl.
  unfold exec. destruct (Nat.ltb_spec (length s) i) as [?|_]; [lia|].
  pose proof (find_match_Cls p s (length s - i) i ltac:(lia)) as Hfind.
  destruct (find_match (Cls p) s i (length s - i)) as [[b e]|].
  - destruct Hfind as (-> & Hb & (c & Hc & Hpc) & Hall).
    pose proof (lookup_lt_Some _ _ _ Hc) as Hlt.
    rewrite (proj2 (Nat.eqb_neq (S b) b)) by lia.
    rewrite IH by lia.
    assert (drop i s = substring s i b ++ c :: drop (S b) s) as ->.
    { unfold substring. rewrite <- (drop_S _ _ _ Hc).
      rewrite <- (take_drop (b - i) (drop i s)) at 1.
      f_equal. rewrite drop_drop. f_equal. lia. }
    assert (substring s b (S b) = [c]) as ->.
    { unfold substring. replace (S b - b)%nat with 1%nat by lia.
      by rewrite (drop_S _ _ _ Hc). }
    rewrite bind_app, bind_cons, Hpc.
    rewrite (bind_unchanged _ (substring s i b)); [done|].
    eapply Forall_impl; [done|]. intros x Hx. simpl in Hx. by rewrite Hx.
  - rewrite bind_unchanged; [done|].
    eapply Forall_impl; [done|]. intros x Hx. simpl in Hx. by rewrite Hx.
Qed.

Lemma escape_units t : escape t = t ≫= escaped_unit.
Proof.
  unfold escape, replace. rewrite replace_Cls by lia. done.
Qed.

Lemma RegExp_literal_units t : RegExp_literal (t ≫= escaped_unit) = Str t.
Proof.
  induction t as [|c t IH]; [done|].
  rewrite bind_cons. unfold escaped_unit at 1.
  destruct (special c) eqn:Ec.
  - simpl. by rewrite IH.
  - assert (N.eqb c backslash = false) as Hc.
    { destruct (N.eqb_spec c backslash) as [->|]; [by vm_compute in Ec | done]. }
    simpl. destruct (t ≫= escaped_unit) as [|d u] eqn:Eu.
    + destruct t as [|c' t']; [done|].
      rewrite bind_cons in Eu. unfold escaped_unit in Eu at 1.
      by destruct (special c').
    + rewrite Hc. by rewrite IH.
Qed.

(** The pattern that [applyRedaction] builds from an entity text matches
    that text, code unit by code unit, and nothing else. *)
Lemma RegExp_literal_escape t : RegExp_literal (escape t) = Str t.
Proof. rewrite escape_units. apply RegExp_literal_units. Qed.

Lemma ends_Str t s : ∀ i,
  ends (Str t) s i = if is_prefix t (drop i s) then [(i + length t)%nat] else [].
Proof.
  induction t as [|c t IH]; intros i; simpl.
  - by rewrite Nat.add_0_r.
  - destruct (s !! i) as [d|] eqn:Ed.
    + rewrite (drop_S _ _ _ Ed). simpl.
      destruct (N.eqb_spec c d) as [->|Hne].
      * rewrite bind_singleton, IH.
        replace (S i + length t)%nat with (i + S (length t))%nat by lia. done.
      * done.
    + apply lookup_ge_None in Ed. rewrite drop_ge by lia. done.
Qed.

Example applyRedaction_text_is_literal :
  redactedText <$> applyRedaction 9 (lit "abc a.c") [entity (lit "a.c") URL] MASK
  = Some (lit "abc [URL]").
Proof. vm_compute. reflexivity. Qed.

End LiteralFacts.

(** ** Word diff *)

Section SplitFacts.

Implicit Types (r : regex) (s : list N) (p q : nat).

Lemma take_substring s a b : (a ≤ b)%nat → take a s ++ substring s a b = take b s.
Proof.
  intros Hab. unfold substring. rewrite take_take_drop. f_equal. lia.
Qed.

(** The pieces and separators that [split] collects make up the string, and
    the loop ends within [2 * length s + 1] rounds. *)
Lemma split_loop_spec r s : ∀ fuel p q acc,
  (p ≤ q ≤ length s)%nat →
  (2 * length s - p - q < fuel)%nat →
  concat acc = take p s →
  ∃ parts, split_loop fuel r s p q acc = Some parts ∧ concat parts = s.
Proof.
  induction fuel as [|fuel IH]; intros p q acc Hpq Hfuel Hacc; [lia|].
  simpl. destruct (Nat.ltb_spec q (length s)) as [Hq|Hq].
  - destruct (match_at r s q) as [e|] eqn:E.
    + apply match_at_bounds in E; [|lia].
      destruct (Nat.eqb_spec e p) as [->|Hne].
      * apply IH; [lia | lia | done].
      * apply IH; [lia | lia |].
        rewrite concat_app, Hacc. simpl. rewrite app_nil_r, app_assoc.
        rewrite take_substring by lia. apply take_substring. lia.
    + apply IH; [lia | lia | done].
  - eexists. split; [done|].
    rewrite concat_app, Hacc. simpl. rewrite app_nil_r.
    rewrite take_substring by lia. by rewrite firstn_all.
Qed.

Lemma concat_filter_nonempty (l : list (list N)) :
  concat (filter (fun t => t ≠ []) l) = concat l.
Proof.
  induction l as [|t l IH]; [done|].
  rewrite filter_cons. destruct (decide (t ≠ [])) as [Ht|Ht]; simpl.
  - by rewrite IH.
  - rewrite IH. destruct t; [done | by destruct Ht].
Qed.

Lemma length_nonempty_concat (l : list (list N)) :
  Forall (fun t => t ≠ []) l → (length l ≤ length (concat l))%nat.
Proof.
  induction 1 as [|t l Ht _ IH]; simpl; [done|].
  rewrite length_app. destruct t; [done | simpl; lia].
Qed.

(** Tokenizing ends, and the tokens are non-empty pieces that make up the
    string. *)
Lemma tokenize_spec fuel s : (2 * length s < fuel)%nat →
  ∃ tokens, tokenize fuel s = Some tokens
            ∧ concat tokens = s
            ∧ Forall (fun t => t ≠ []) tokens
            ∧ (length tokens ≤ length s)%nat.
Proof.
  intros Hfuel. unfold tokenize.
  assert (∃ parts, split fuel tokenizer s = Some parts ∧ concat parts = s)
    as (parts & -> & Hparts).
  { unfold split. destruct (Nat.eqb_spec (length s) 0) as [E|E].
    - destruct s; [|done]. vm_compute. eauto.
    - apply split_loop_spec; [lia | lia | done]. }
  simpl. eexists. split; [done|].
  assert (Forall (fun t => t ≠ []) (filter (fun t => t ≠ []) parts)) as Hne.
  { apply Forall_forall. intros t Ht. by apply list_elem_of_filter in Ht as [? _]. }
  split; [by rewrite concat_filter_nonempty | split; [done|]].
  apply length_nonempty_concat in Hne.
  by rewrite concat_filter_nonempty, Hparts in Hne.
Qed.

End SplitFacts.

Section DiffFacts.

Implicit Types (aT eT tokens : list (list N)) (dp : list (list Z)) (st : state).

(** Backtracking over two equal token lists from a diagonal position only
    takes the first branch. *)
Lemma backtrack_diagonal tokens dp : ∀ k fuel tA tE,
  (k ≤ length tokens)%nat → (k < fuel)%nat →
  backtrack fuel tokens tokens dp (mkState k k tA tE)
  = Some (mkState 0 0 (tA ++ reverse (all_match (take k tokens)))
                      (tE ++ reverse (all_match (take k tokens)))).
Proof.
  induction k as [|k IH]; intros fuel tA tE Hk Hfuel;
    (destruct fuel as [|fuel]; [lia|]); simpl.
  - by rewrite !app_nil_r.
  - unfold backtrack_step. simpl.
    unfold tok_eqb. rewrite bool_decide_eq_true_2 by done.
    rewrite Nat.sub_0_r. rewrite IH by lia.
    destruct (lookup_lt_is_Some_2 tokens k) as [t Ht]; [lia|].
    rewrite (take_S_r _ _ _ Ht). unfold all_match.
    rewrite fmap_app, reverse_app. simpl.
    unfold chunk, tok. simpl. rewrite Nat.sub_0_r, Ht. simpl.
    by rewrite <- !app_assoc.
Qed.

Lemma diff_tokens_same tokens fuel : (length tokens < fuel)%nat →
  diff_tokens fuel tokens tokens = Some (all_match tokens, all_match tokens).
Proof.
  intros Hfuel. unfold diff_tokens.
  rewrite backtrack_diagonal by lia. simpl.
  by rewrite firstn_all, reverse_involutive.
Qed.

Lemma all_match_spec tokens :
  Forall (fun c => kind c = match_) (all_match tokens)
  ∧ value <$> all_match tokens = tokens.
Proof.
  unfold all_match. split.
  - apply Forall_fmap, Forall_true. done.
  - rewrite <- list_fmap_compose. apply list_fmap_id.
Qed.

(** C7: comparing a text with itself gives, on both sides, one match chunk
    per token of the text, in order: every chunk is a match, the values are
    the token stream, and their concatenation is the text; two empty texts
    give two empty chunk lists. *)
Theorem computeWordDiff_same (fuel : nat) (x : list N) :
  (2 * length x < fuel)%nat →
  ∃ tokens actualChunks expectedChunks,
    tokenize fuel x = Some tokens
    ∧ computeWordDiff fuel x x = Some (actualChunks, expectedChunks)
    ∧ Forall (fun c => kind c = match_) actualChunks
    ∧ Forall (fun c => kind c = match_) expectedChunks
    ∧ value <$> actualChunks = tokens
    ∧ value <$> expectedChunks = tokens
    ∧ concat (value <$> actualChunks) = x
    ∧ concat (value <$> expectedChunks) = x
    ∧ (x = [] → actualChunks = [] ∧ expectedChunks = []).
Proof.
  intros Hfuel.
  destruct (tokenize_spec fuel x Hfuel) as (tokens & Htok & Hcat & Hne & Hlen).
  exists tokens, (all_match tokens), (all_match tokens).
  destruct (all_match_spec tokens) as [Hk Hv].
  split; [done|]. split.
  { unfold computeWordDiff. rewrite Htok. simpl. apply diff_tokens_same. lia. }
  rewrite Hv. split; [done|]. split; [done|]. split; [done|]. split; [done|].
  split; [done|]. split; [done|].
  intros ->. destruct tokens; [done | simpl in Hlen; lia].
Qed.

(** An instance of C7, on the text ["a, b"]. *)
Lemma computeWordDiff_same_witness :
  ∃ tokens actualChunks expectedChunks,
    tokenize 9 (lit "a, b") = Some tokens
    ∧ computeWordDiff 9 (lit "a, b") (lit "a, b") = Some (actualChunks, expectedChunks)
    ∧ Forall (fun c => kind c = match_) actualChunks
    ∧ Forall (fun c => kind c = match_) expectedChunks
    ∧ value <$> actualChunks = tokens
    ∧ value <$> expectedChunks = tokens
    ∧ concat (value <$> actualChunks) = lit "a, b"
    ∧ concat (value <$> expectedChunks) = lit "a, b"
    ∧ (lit "a, b" = [] → actualChunks = [] ∧ expectedChunks = []).
Proof. apply (computeWordDiff_same 9 (lit "a, b")). simpl. lia. Defined.

Example computeWordDiff_empty :
  computeWordDiff 1 [] [] = Some ([], []).
Proof. vm_compute. reflexivity. Qed.

Example tokenize_punctuation :
  tokenize 9 (lit "a, b") = Some [lit "a"; lit ","; lit " "; lit "b"].
Proof. vm_compute. reflexivity. Qed.

End DiffFacts.

Section TieBreak.

Implicit Types (aT eT : list (list N)) (dp : list (list Z)) (st : state).

Lemma backtrack_step_match aT eT dp st :
  (0 < st_i st)%nat → (0 < st_j st)%nat →
  tok aT (st_i st) = tok eT (st_j st) →
  backtrack_step aT eT dp st
  = mkState (st_i st - 1) (st_j st - 1)
      (tempActual st ++ [chunk aT (st_i st) match_])
      (tempExpected st ++ [chunk eT (st_j st) match_]).
Proof.
  intros Hi Hj Heq. unfold backtrack_step, tok_eqb.
  apply Nat.ltb_lt in Hi, Hj. rewrite Hi, Hj.
  by rewrite bool_decide_eq_true_2.
Qed.

Lemma backtrack_step_expected aT eT dp st :
  (0 < st_i st)%nat → (0 < st_j st)%nat →
  (tok aT (st_i st) ≠ tok eT (st_j st)) →
  (get2 dp (st_i st) (st_j st - 1) >= get2 dp (st_i st - 1) (st_j st)) →
  backtrack_step aT eT dp st
  = mkState (st_i st) (st_j st - 1) (tempActual st)
      (tempExpected st ++ [chunk eT (st_j st) mismatch_expected]).
Proof.
  intros Hi Hj Hne Hge. unfold backtrack_step, tok_eqb.
  rewrite bool_decide_eq_false_2 by done. rewrite andb_false_r.
  apply Nat.ltb_lt in Hj. rewrite Hj. simpl.
  assert ((get2 dp (st_i st) (st_j st - 1) >=? get2 dp (st_i st - 1) (st_j st)) = true)
    as -> by (apply Z.geb_le; lia).
  by rewrite orb_true_r.
Qed.

Lemma backtrack_step_actual aT eT dp st :
  (0 < st_i st)%nat → (0 < st_j st)%nat →
  (tok aT (st_i st) ≠ tok eT (st_j st)) →
  (get2 dp (st_i st) (st_j st - 1) < get2 dp (st_i st - 1) (st_j st)) →
  backtrack_step aT eT dp st
  = mkState (st_i st - 1) (st_j st) 
      (tempActual st ++ [chunk aT (st_i st) mismatch_actual])
      (tempExpected st).
Proof.
  intros Hi Hj Hne Hlt. unfold backtrack_step, tok_eqb.
  rewrite bool_decide_eq_false_2 by done. rewrite andb_false_r.
  assert ((st_i st =? 0)%nat = false) as -> by (apply Nat.eqb_neq; lia).
  assert ((get2 dp (st_i st) (st_j st - 1) >=? get2 dp (st_i st - 1) (st_j st)) = false)
    as ->.
  { destruct (Z.geb_spec (get2 dp (st_i st) (st_j st - 1))
                         (get2 dp (st_i st - 1) (st_j st))); [lia | done]. }
  rewrite andb_false_r.
  apply Nat.ltb_lt in Hi. rewrite Hi. simpl.
  assert ((get2 dp (st_i st) (st_j st - 1) <? get2 dp (st_i st - 1) (st_j st)) = true)
    as -> by (by apply Z.ltb_lt).
  by rewrite orb_true_r.
Qed.

(** C6: backtracking starts at [(m, n)] on the LCS table; at a position with
    a token on both sides it emits a match on both sides and moves
    diagonally when the two tokens are equal, and otherwise takes the
    expected-side token (mismatch-expected) when
    [dp[i][j-1] >= dp[i-1][j]] and the actual-side token (mismatch-actual)
    when not.  On ["the cat sat"] against ["the dog sat"], [cat] is a
    mismatch-actual, [dog] a mismatch-expected, and the tokens around them
    are matches on both sides. *)
Theorem backtrack_tie_break :
  (∀ fuel aT eT,
     diff_tokens fuel aT eT
     = (st ← backtrack fuel aT eT (lcs_table aT eT)
               (mkState (length aT) (length eT) [] []);
        Some (reverse (tempActual st), reverse (tempExpected st))))
  ∧ (∀ aT eT dp st,
       (0 < st_i st)%nat → (0 < st_j st)%nat →
       (tok aT (st_i st) = tok eT (st_j st) →
        backtrack_step aT eT dp st
        = mkState (st_i st - 1) (st_j st - 1)
            (tempActual st ++ [chunk aT (st_i st) match_])
            (tempExpected st ++ [chunk eT (st_j st) match_]))
       ∧ ((tok aT (st_i st) ≠ tok eT (st_j st)) →
          (get2 dp (st_i st) (st_j st - 1) >= get2 dp (st_i st - 1) (st_j st)) →
          backtrack_step aT eT dp st
          = mkState (st_i st) (st_j st - 1) (tempActual st)
              (tempExpected st ++ [chunk eT (st_j st) mismatch_expected]))
       ∧ ((tok aT (st_i st) ≠ tok eT (st_j st)) →
          (get2 dp (st_i st) (st_j st - 1) < get2 dp (st_i st - 1) (st_j st)) →
          backtrack_step aT eT dp st
          = mkState (st_i st - 1) (st_j st)
              (tempActual st ++ [chunk aT (st_i st) mismatch_actual])
              (tempExpected st)))
  ∧ (∀ fuel,
       computeWordDiff (23 + fuel) (lit "the cat sat") (lit "the dog sat")
       = Some ([mkChunk (lit "the") match_; mkChunk (lit " ") match_;
                mkChunk (lit "cat") mismatch_actual;
                mkChunk (lit " ") match_; mkChunk (lit "sat") match_],
               [mkChunk (lit "the") match_; mkChunk (lit " ") match_;
                mkChunk (lit "dog") mismatch_expected;
                mkChunk (lit " ") match_; mkChunk (lit "sat") match_])).
Proof.
  split; [done | split].
  - intros aT eT dp st Hi Hj. split; [|split].
    + by apply backtrack_step_match.
    + by apply backtrack_step_expected.
    + by apply backtrack_step_actual.
  - intros fuel. vm_compute. reflexivity.
Qed.

(** An instance of C6: the step at [(3, 3)] of the example, where [cat] and
    [dog] differ and the two neighbouring cells of the table are equal. *)
Lemma backtrack_tie_break_witness :
  let aT := [lit "the"; lit " "; lit "cat"] in
  let eT := [lit "the"; lit " "; lit "dog"] in
  backtrack_step aT eT (lcs_table aT eT) (mkState 3 3 [] [])
  = mkState 3 2 [] [mkChunk (lit "dog") mismatch_expected].
Proof.
  intros aT eT.
  destruct backtrack_tie_break as (_ & H & _).
  destruct (H aT eT (lcs_table aT eT) (mkState 3 3 [] [])) as (_ & H2 & _);
    [simpl; lia | simpl; lia |].
  apply H2.
  - vm_compute. discriminate.
  - vm_compute. discriminate.
Defined.

End TieBreak.

(** ** Pattern detection *)

Section DetectFacts.

Implicit Types (r : regex) (txt m : list N) (es entities : list DetectedEntity).

(** A property of the entity list that the loop body keeps holds when the
    loop ends. *)
Lemma exec_loop_inv (P : list DetectedEntity → Prop) r txt body :
  (∀ m es, P es → P (body m es)) →
  ∀ fuel lastIndex entities es,
    P entities → exec_loop fuel r txt lastIndex body entities = Some es → P es.
Proof.
  intros Hbody. induction fuel as [|fuel IH]; intros lastIndex entities es HP; simpl; [done|].
  destruct (exec r txt lastIndex) as [[b e]|].
  - apply IH. by apply Hbody.
  - by intros [= <-].
Qed.

(** A loop over the matches of a pattern that cannot match the empty string
    ends within [length txt + 1] rounds. *)
Lemma exec_loop_total r txt body : consumes r = true →
  ∀ fuel lastIndex entities,
    (lastIndex ≤ length txt)%nat → (length txt - lastIndex < fuel)%nat →
    is_Some (exec_loop fuel r txt lastIndex body entities).
Proof.
  intros Hc. induction fuel as [|fuel IH]; intros lastIndex entities Hl Hfuel; [lia|].
  simpl. destruct (exec r txt lastIndex) as [[b e]|] eqn:E; [|done].
  apply exec_bounds in E as (H1 & H2 & H3).
  apply match_at_consumes in H3; [|done|lia].
  apply IH; lia.
Qed.

Lemma push_phones_long ty : ty ≠ PHONE_NUMBER →
  ∀ m es, phones_long es → phones_long (push ty m es).
Proof.
  intros Hty m es Hes. unfold push, phones_long. apply Forall_app. split; [done|].
  constructor; [|constructor]. simpl. done.
Qed.

Lemma push_phone_phones_long m es : phones_long es → phones_long (push_phone m es).
Proof.
  intros Hes. unfold push_phone.
  destruct (Z.geb_spec (len m) 10) as [Hge|Hlt]; [|done].
  unfold push, phones_long. apply Forall_app. split; [done|].
  constructor; [|constructor]. simpl. lia.
Qed.

Lemma push_date_phones_long m es : phones_long es → phones_long (push_date m es).
Proof.
  intros Hes. unfold push_date. destruct (len m <=? 10); [|done].
  by apply push_phones_long.
Qed.

(** C8: every phone-number entity that the detector returns has a text of
    at least ten code units, and a phone match shorter than that adds no
    entity. *)
Theorem detectRegexEntities_phone_length fuel txt es :
  detectRegexEntities fuel txt = Some es →
  (∀ e, e ∈ es → type e = PHONE_NUMBER → 10 ≤ len (text e))
  ∧ (∀ m entities, len m < 10 → push_phone m entities = entities).
Proof.
  intros Hdet. split.
  - enough (phones_long es) as H
      by (intros e He; by apply (proj1 (Forall_forall _ _) H)).
    unfold detectRegexEntities in Hdet.
    repeat match type of Hdet with
    | (exec_loop ?f ?r ?t ?i ?b ?acc ≫= _) = Some _ =>
        let E := fresh "E" in
        destruct (exec_loop f r t i b acc) eqn:E; simpl in Hdet; [|done]
    end.
    assert (phones_long []) as H0 by constructor.
    pose proof (exec_loop_inv phones_long _ _ _
                  (push_phones_long EMAIL_ADDRESS ltac:(done)) _ _ _ _ H0 E) as H1.
    pose proof (exec_loop_inv phones_long _ _ _
                  (push_phones_long IP_ADDRESS ltac:(done)) _ _ _ _ H1 E0) as H2.
    pose proof (exec_loop_inv phones_long _ _ _
                  (push_phones_long URL ltac:(done)) _ _ _ _ H2 E1) as H3.
    pose proof (exec_loop_inv phones_long _ _ _
                  (push_phones_long CREDIT_CARD ltac:(done)) _ _ _ _ H3 E2) as H4.
    pose proof (exec_loop_inv phones_long _ _ _
                  push_phone_phones_long _ _ _ _ H4 E3) as H5.
    pose proof (exec_loop_inv phones_long _ _ _
                  push_date_phones_long _ _ _ _ H5 E4) as H6.
    exact (exec_loop_inv phones_long _ _ _
             (push_phones_long DATE_TIME ltac:(done)) _ _ _ _ H6 Hdet).
  - intros m entities Hm. unfold push_phone.
    destruct (Z.geb_spec (len m) 10); [lia | done].
Qed.

(** An instance of C8. *)
Lemma detectRegexEntities_phone_length_witness :
  let es := [entity (lit "john@example.com") EMAIL_ADDRESS;
             entity (lit "212-555-0199") PHONE_NUMBER] in
  (∀ e, e ∈ es → type e = PHONE_NUMBER → 10 ≤ len (text e))
  ∧ (∀ m entities, len m < 10 → push_phone m entities = entities).
Proof.
  apply (detectRegexEntities_phone_length 50
           (lit "Contact john@example.com or call 212-555-0199.")).
  vm_compute. reflexivity.
Defined.

(** The detector returns once it has more rounds than the text has code
    units. *)
Lemma detectRegexEntities_total fuel txt :
  (length txt < fuel)%nat → is_Some (detectRegexEntities fuel txt).
Proof.
  intros Hfuel. unfold detectRegexEntities.
  repeat match goal with
  | |- is_Some (exec_loop ?f ?r ?t 0 ?b ?acc ≫= _) =>
      let x := fresh "x" in let E := fresh "E" in
      destruct (exec_loop_total r t b eq_refl f 0 acc) as [x E]; [lia | lia |];
      rewrite E; simpl
  end.
  apply exec_loop_total; [done | lia | lia].
Qed.

Example detect_sample :
  detectRegexEntities 30 (lit "at 14:30 PM from 192.168.1.45") =
  Some [entity (lit "192.168.1.45") IP_ADDRESS; entity (lit "14:30 PM") DATE_TIME].
Proof. vm_compute. reflexivity. Qed.

End DetectFacts.

(** * Further properties *)

(** ** Edit distance is a metric *)

Section LevenshteinMetric.

Lemma indicator_sym (a b : list N) i j : indicator a b i j = indicator b a j i.
Proof.
  unfold indicator. destruct (decide (at_index a (i - 1) = at_index b (j - 1))) as [E|E].
  - by rewrite !bool_decide_eq_true_2.
  - by rewrite !bool_decide_eq_false_2.
Qed.

Lemma indicator_triangle (a b c : list N) i j k :
  indicator a c i k ≤ indicator a b i j + indicator b c j k.
Proof.
  unfold indicator. repeat case_bool_decide; try lia. congruence.
Qed.

Lemma levD_sym (a b : list N) : ∀ j i, levD a b j i = levD b a i j.
Proof.
  induction j as [|j IHj]; intros i.
  - by rewrite levD_col0.
  - induction i as [|i IHi].
    + reflexivity.
    + rewrite (levD_S_S a b), (levD_S_S b a), IHi, (IHj i), (IHj (S i)),
        (indicator_sym a b).
      unfold min3.
      generalize (levD b a i (S j)), (levD b a (S i) j), (levD b a i j),
        (indicator b a (S j) (S i)).
      intros; lia.
Qed.

Lemma levD_step_col (a b : list N) j i : levD a b j (S i) ≤ levD a b j i + 1.
Proof.
  destruct j as [|j].
  - change (levD a b 0 (S i)) with (Z.of_nat (S i)).
    change (levD a b 0 i) with (Z.of_nat i). lia.
  - rewrite levD_S_S. unfold min3. lia.
Qed.

Lemma levD_step_row (a b : list N) j i : levD a b (S j) i ≤ levD a b j i + 1.
Proof. rewrite (levD_sym a b (S j)), (levD_sym a b j). apply levD_step_col. Qed.

Lemma levD_triangle (a b c : list N) : ∀ n i j k, (i + j + k ≤ n)%nat →
  levD a c k i ≤ levD a b j i + levD b c k j.
Proof.
  induction n as [|n IH]; intros i j k Hn.
  - assert (i = 0 ∧ j = 0 ∧ k = 0)%nat as (-> & -> & ->) by lia. done.
  - destruct i as [|i].
    { rewrite levD_col0. change (levD a b j 0) with (levD a b j 0).
      rewrite (levD_col0 a b j). pose proof (levD_lower b c k j). lia. }
    destruct k as [|k].
    { change (levD a c 0 (S i)) with (Z.of_nat (S i)).
      change (levD b c 0 j) with (Z.of_nat j).
      pose proof (levD_lower a b j (S i)). lia. }
    destruct j as [|j].
    { change (levD a b 0 (S i)) with (Z.of_nat (S i)). rewrite levD_col0.
      pose proof (levD_upper a c (S k) (S i)). lia. }
    pose proof (levD_step_col a c (S k) i) as F1.
    pose proof (levD_step_row a c k (S i)) as F2.
    pose proof (IH i (S j) (S k) ltac:(lia)) as I1.
    pose proof (IH (S i) (S j) k ltac:(lia)) as I2.
    pose proof (IH (S i) j (S k) ltac:(lia)) as I3.
    pose proof (IH (S i) j k ltac:(lia)) as I4.
    pose proof (IH i j (S k) ltac:(lia)) as I5.
    pose proof (IH i j k ltac:(lia)) as I6.
    pose proof (indicator_triangle a b c (S i) (S j) (S k)) as T.
    pose proof (indicator_range a b (S i) (S j)).
    pose proof (indicator_range b c (S j) (S k)).
    assert (levD a c (S k) (S i) ≤ levD a c k i + indicator a c (S i) (S k)) as F3
      by (rewrite levD_S_S; unfold min3; lia).
    pose proof (levD_S_S a b j i) as E1. pose proof (levD_S_S b c k j) as E2.
    unfold min3 in E1, E2. lia.
Qed.

(** X1: the distance does not depend on the order of its two arguments. *)
Theorem lev_symmetric (a b : list N) :
  calculateLevenshteinDistance a b = calculateLevenshteinDistance b a.
Proof. rewrite !calculateLevenshteinDistance_levD. apply levD_sym. Qed.

(** X2: the distance is at least the difference of the two lengths and at
    most the greater of them. *)
Theorem lev_length_bounds (a b : list N) :
  Z.abs (len a - len b) ≤ calculateLevenshteinDistance a b
  ∧ calculateLevenshteinDistance a b ≤ Z.max (len a) (len b).
Proof.
  rewrite calculateLevenshteinDistance_levD. split.
  - apply levD_lower.
  - apply levD_upper.
Qed.

(** X3: the distance is [0] for equal strings only. *)
Theorem lev_zero_only_equal (a b : list N) :
  calculateLevenshteinDistance a b = 0 ↔ a = b.
Proof. apply lev_zero_iff. Qed.

(** X4: the triangle inequality: going through a third string is never
    shorter. *)
Theorem lev_triangle (a b c : list N) :
  calculateLevenshteinDistance a c
  ≤ calculateLevenshteinDistance a b + calculateLevenshteinDistance b c.
Proof.
  rewrite !calculateLevenshteinDistance_levD.
  by apply (levD_triangle a b c (length a + length b + length c)).
Qed.

End LevenshteinMetric.

(** ** Similarity as a function of the distance *)

Section SimilarityMore.

Local Open Scope Q_scope.

Lemma ratio_antitone (M d1 d2 : Q) : 0 < M → d1 <= d2 →
  (M - d2) / M * 100 <= (M - d1) / M * 100.
Proof.
  intros HM Hd. unfold Qdiv.
  assert (0 < / M) as Hi by (by apply Qinv_lt_0_compat).
  assert ((M - d2) * / M <= (M - d1) * / M) as H.
  { apply Qmult_le_compat_r; [lra | by apply Qlt_le_weak]. }
  lra.
Qed.

Lemma ratio_at_most_100 (M d : Q) : 0 < M → 0 <= d → (M - d) / M * 100 <= 100.
Proof.
  intros HM Hd.
  assert ((M - d) / M <= 1) as H by (apply Qle_shift_div_r; [done | lra]).
  lra.
Qed.

(** X5: whatever number is passed as the distance, the score is never
    negative; it is at most [100] for a distance that is not negative, and
    a greater distance never gives a greater score. *)
Theorem similarity_clamped_antitone (a b : list N) (d1 d2 : Q) :
  0 <= d1 → d1 <= d2 →
  0 <= calculateSimilarity a b d2
  ∧ calculateSimilarity a b d2 <= calculateSimilarity a b d1
  ∧ calculateSimilarity a b d1 <= 100.
Proof.
  intros Hd1 Hd. unfold calculateSimilarity, calculateSimilarity_rounded, Math_max.
  destruct (Z.eqb_spec (Z.max (len a) (len b)) 0) as [E|E].
  - split; [done | split; apply Qle_refl].
  - assert (0 < inject_Z (Z.max (len a) (len b))) as HM.
    { change 0 with (inject_Z 0). rewrite <- Zlt_Qlt. unfold len in *. lia. }
    split; [apply Q.le_max_l | split].
    + apply Q.max_le_compat_l. by apply ratio_antitone.
    + apply Q.max_lub; [done | by apply ratio_at_most_100].
Qed.

(** An instance of X5: distances [1] and [5] for strings of three and two
    code units; the second is past the greater length and gives [0]. *)
Lemma similarity_clamped_antitone_witness :
  0 <= calculateSimilarity (lit "abc") (lit "ab") 5
  ∧ calculateSimilarity (lit "abc") (lit "ab") 5
    <= calculateSimilarity (lit "abc") (lit "ab") 1
  ∧ calculateSimilarity (lit "abc") (lit "ab") 1 <= 100.
Proof.
  apply (similarity_clamped_antitone (lit "abc") (lit "ab") 1 5); by vm_compute.
Defined.

Example similarity_past_length :
  calculateSimilarity (lit "abc") (lit "ab") 5 == 0.
Proof. by vm_compute. Qed.

End SimilarityMore.

(** ** Merging twice, and what a merge keeps *)

Section MergeMore.

Implicit Types (A B : list DetectedEntity) (e : DetectedEntity).

Lemma filter_none {X} (P : X → Prop) `{!∀ x, Decision (P x)} (l : list X) :
  Forall (fun x => ¬ P x) l → filter P l = [].
Proof.
  induction 1 as [|x l Hx _ IH]; [done|]. by rewrite filter_cons_False.
Qed.

Lemma filter_all {X} (P : X → Prop) `{!∀ x, Decision (P x)} (l : list X) :
  Forall P l → filter P l = l.
Proof.
  induction 1 as [|x l Hx _ IH]; [done|]. rewrite filter_cons_True by done.
  by rewrite IH.
Qed.

Lemma texts_merge A B (t : list N) :
  t ∈ texts (mergeEntities A B) ↔ t ∈ texts A ∨ t ∈ texts B.
Proof.
  rewrite mergeEntities_filter. unfold texts. rewrite fmap_app, elem_of_app.
  split.
  - intros [H|H]; [by left|]. right.
    apply list_elem_of_fmap in H as (e & -> & He).
    apply list_elem_of_filter in He as [_ He].
    apply list_elem_of_fmap. eauto.
  - intros [H|H]; [by left|].
    destruct (decide (t ∈ text <$> A)) as [Hin|Hout]; [by left|]. right.
    apply list_elem_of_fmap in H as (e & -> & He).
    apply list_elem_of_fmap. exists e. split; [done|].
    apply list_elem_of_filter. done.
Qed.

(** X6: no text is lost by a merge and none is made up: the texts of the
    merged list are those of the primary list and those of the secondary
    list. *)
Theorem merge_texts_union A B (t : list N) :
  t ∈ texts (mergeEntities A B) ↔ t ∈ texts A ∨ t ∈ texts B.
Proof. apply texts_merge. Qed.

(** X7: merging the same secondary list a second time adds nothing. *)
Theorem merge_again_same A B :
  mergeEntities (mergeEntities A B) B = mergeEntities A B.
Proof.
  rewrite (mergeEntities_filter (mergeEntities A B) B).
  rewrite filter_none; [by rewrite app_nil_r|].
  apply Forall_forall. intros e He Hout. apply Hout.
  apply texts_merge. right. apply list_elem_of_fmap. eauto.
Qed.

End MergeMore.

(** ** More on redaction *)

Section RedactionMore.

Implicit Types (txt : list N) (e p a b : DetectedEntity)
  (l processed : list DetectedEntity).

(** [indexOf] finds the first occurrence from the start of the search. *)
Lemma indexOf_from_least (pat : list N) : ∀ rest k d,
  is_prefix pat (drop d rest) = true →
  ∃ d', (d' ≤ d)%nat ∧ indexOf_from pat rest k = Z.of_nat (k + d').
Proof.
  induction rest as [|c rest IH]; intros k d Hd; simpl.
  - rewrite drop_nil in Hd. rewrite Hd. exists 0%nat. split; [lia | f_equal; lia].
  - destruct (is_prefix pat (c :: rest)) eqn:E.
    + exists 0%nat. split; [lia | f_equal; lia].
    + destruct d as [|d]; [simpl in Hd; congruence|]. simpl in Hd.
      destruct (IH (S k) d Hd) as (d' & Hd' & ->).
      exists (S d'). split; [lia | f_equal; lia].
Qed.

Lemma indexOf_least (s pat : list N) (position : Z) (k : nat) :
  (Nat.min (Z.to_nat position) (length s) ≤ k)%nat → occurs_at s pat k →
  indexOf s pat position ≠ -1 ∧ indexOf s pat position ≤ Z.of_nat k.
Proof.
  intros Hk [Hlen Hsub]. unfold indexOf.
  set (pos := Nat.min (Z.to_nat position) (length s)) in *.
  assert (is_prefix pat (drop (k - pos) (drop pos s)) = true) as Hp.
  { apply is_prefix_spec. rewrite drop_drop, length_drop.
    replace (pos + (k - pos))%nat with k by lia. split; [|lia].
    unfold substring in Hsub. by replace (k + length pat - k)%nat with (length pat) in Hsub by lia. }
  destruct (indexOf_from_least pat _ pos _ Hp) as (d' & Hd' & ->). lia.
Qed.

Lemma find_loop_covers fuel txt e : ∀ searchIndex processed processed',
  find_loop fuel txt e searchIndex processed = Some processed' →
  (∀ p, p ∈ processed → p ∈ processed')
  ∧ (∀ p, p ∈ processed' → p ∈ processed ∨ (text p = text e ∧ type p = type e))
  ∧ ∀ k, (Nat.min (Z.to_nat searchIndex) (length txt) ≤ k)%nat →
         occurs_at txt (text e) k →
         ∃ p, p ∈ processed' ∧ covers p k (len (text e)).
Proof.
  destruct (decide (text e = [])) as [He|He].
  { intros ? ? ? H. by rewrite find_loop_empty_text in H. }
  assert (0 < len (text e)) as Hlen by (unfold len; destruct (text e); [done | simpl; lia]).
  induction fuel as [|fuel IH]; intros searchIndex processed processed'; simpl; [done|].
  destruct (Z.eqb_spec (indexOf txt (text e) searchIndex) (-1)) as [E|E].
  - intros [= <-]. split; [done | split; [by left|]].
    intros k Hk Hocc. by destruct (indexOf_least _ _ _ _ Hk Hocc).
  - intros Hloop.
    destruct (indexOf_found _ _ _ _ eq_refl E) as (Hge & Hle & Hsub).
    set (found := indexOf txt (text e) searchIndex) in *.
    apply IH in Hloop as (Hmono & Hprov & Hcov).
    split; [|split].
    + intros p Hp. apply Hmono.
      destruct (isOverlap processed found (len (text e))); [done|].
      apply elem_of_app. by left.
    + intros p Hp. apply Hprov in Hp as [Hp|Hp]; [|by right].
      destruct (isOverlap processed found (len (text e))); [by left|].
      apply elem_of_app in Hp as [Hp|Hp]; [by left|].
      apply list_elem_of_singleton in Hp as ->. by right.
    + intros k Hk Hocc.
      destruct (indexOf_least _ _ _ _ Hk Hocc) as [_ Hfk]. fold found in Hfk.
      destruct (decide (Z.of_nat k = found)) as [Ek|Ek].
      * destruct (isOverlap processed found (len (text e))) eqn:Eov.
        -- unfold isOverlap in Eov. apply existsb_exists in Eov as (p & Hp & Hov).
           exists p. split; [by apply Hmono, list_elem_of_In|].
           unfold overlaps in Hov.
           destruct (startIndex p) as [st|] eqn:Est; [|done].
           destruct (endIndex p) as [en|] eqn:Een; [|done].
           apply andb_true_iff in Hov as [H1 H2].
           apply Z.ltb_lt in H1. apply Z.gtb_gt in H2.
           exists st, en. repeat split; try done; lia.
        -- exists (with_indices e found). split.
           ++ apply Hmono, elem_of_app. right. apply list_elem_of_here.
           ++ exists found, (found + len (text e)). simpl. repeat split; lia.
      * apply Hcov; [|done]. unfold len in *. lia.
Qed.

Lemma redact_all_covers fuel txt mode : ∀ es st st',
  redact_all fuel txt mode st es = Some st' →
  (∀ p, p ∈ st.2 → p ∈ st'.2)
  ∧ (∀ p, p ∈ st'.2 → p ∈ st.2 ∨ ∃ e, e ∈ es ∧ text p = text e ∧ type p = type e)
  ∧ ∀ e k, e ∈ es → occurs_at txt (text e) k →
           ∃ p, p ∈ st'.2 ∧ covers p k (len (text e)).
Proof.
  induction es as [|e es IH]; intros st st'; simpl.
  - intros [= <-]. split; [done | split; [by left|]].
    intros e k He. by apply not_elem_of_nil in He.
  - unfold redact_one at 1.
    destruct (find_loop fuel txt e 0 st.2) as [processed|] eqn:E; simpl; [|done].
    intros Hall. apply find_loop_covers in E as (Hm1 & Hp1 & Hc1).
    apply IH in Hall as (Hm2 & Hp2 & Hc2). simpl in *.
    split; [|split].
    + intros p Hp. by apply Hm2, Hm1.
    + intros p Hp. apply Hp2 in Hp as [Hp|(e' & He' & Ht)].
      * apply Hp1 in Hp as [Hp|Hp]; [by left|]. right. exists e.
        split; [apply list_elem_of_here | done].
      * right. exists e'. split; [by apply list_elem_of_further | done].
    + intros e' k He' Hocc. apply elem_of_cons in He' as [->|He'].
      * destruct (Hc1 k ltac:(simpl; lia) Hocc) as (p & Hp & Hcov).
        exists p. split; [by apply Hm2 | done].
      * by apply Hc2.
Qed.

(** The facts of C1 in list form, for the proofs below. *)
Lemma applyRedaction_resolved_in_list fuel txt es mode r :
  applyRedaction fuel txt es mode = Some r →
  Forall (resolved_in txt) (entitiesWithIndices r)
  ∧ ∀ i j a b, i ≠ j →
      entitiesWithIndices r !! i = Some a → entitiesWithIndices r !! j = Some b →
      ¬ ranges_overlap a b.
Proof.
  unfold applyRedaction.
  destruct (redact_all fuel txt mode (txt, []) (sort by_length_desc es))
    as [st|] eqn:E; simpl; [|done].
  intros [= <-]. simpl.
  destruct (redact_all_good _ _ _ _ _ _ E) as [H1 H2]; [constructor | done |].
  split.
  - by rewrite sort_perm.
  - apply no_overlap_lookup. eapply no_overlap_perm; [|done].
    symmetry. apply sort_perm.
Qed.

Lemma redaction_covers fuel txt es mode r e k :
  applyRedaction fuel txt es mode = Some r →
  e ∈ es → occurs_at txt (text e) k →
  ∃ p, p ∈ entitiesWithIndices r ∧ covers p k (len (text e)).
Proof.
  unfold applyRedaction.
  destruct (redact_all fuel txt mode (txt, []) (sort by_length_desc es))
    as [st|] eqn:E; simpl; [|done].
  intros [= <-] He Hocc. simpl.
  apply redact_all_covers in E as (_ & _ & Hc).
  destruct (Hc e k) as (p & Hp & Hcov); [by rewrite sort_perm | done |].
  exists p. split; [by rewrite sort_perm | done].
Qed.

(** X8: every place where the text of a supplied entity occurs in the input
    shares at least one code unit with the range of a returned entity:
    no occurrence is left without a resolved range on it. *)
Theorem applyRedaction_covers_occurrences fuel txt es mode r e k :
  applyRedaction fuel txt es mode = Some r →
  e ∈ es → occurs_at txt (text e) k →
  ∃ p, p ∈ entitiesWithIndices r ∧ covers p k (len (text e)).
Proof. apply redaction_covers. Qed.

(** An instance of X8: the occurrence of ["ba"] at [1] in ["ababa"] is not
    resolved itself, but the resolved ["aba"] at [0..3] lies on it. *)
Lemma applyRedaction_covers_occurrences_witness :
  ∃ p, p ∈ [mkEntity (lit "aba") PERSON (Some 0) (Some 3);
            mkEntity (lit "ba") PERSON (Some 3) (Some 5)]
       ∧ covers p 1 (len (lit "ba")).
Proof.
  apply (applyRedaction_covers_occurrences 10 (lit "ababa")
           [entity (lit "ba") PERSON; entity (lit "aba") PERSON] MASK
           (mkResult (lit "[PERSON][PERSON]")
              [mkEntity (lit "aba") PERSON (Some 0) (Some 3);
               mkEntity (lit "ba") PERSON (Some 3) (Some 5)])
           (entity (lit "ba") PERSON) 1).
  - vm_compute. reflexivity.
  - apply list_elem_of_here.
  - split; [simpl; lia | reflexivity].
Defined.

(** X9: every returned entity has the text and the category of a supplied
    entity: resolution adds ranges and nothing else. *)
Theorem applyRedaction_entities_from_input fuel txt es mode r p :
  applyRedaction fuel txt es mode = Some r →
  p ∈ entitiesWithIndices r →
  ∃ e, e ∈ es ∧ text p = text e ∧ type p = type e.
Proof.
  unfold applyRedaction.
  destruct (redact_all fuel txt mode (txt, []) (sort by_length_desc es))
    as [st|] eqn:E; simpl; [|done].
  intros [= <-] Hp. simpl in Hp. rewrite sort_perm in Hp.
  apply redact_all_covers in E as (_ & Hprov & _).
  apply Hprov in Hp as [Hp|(e & He & Ht)]; [by apply not_elem_of_nil in Hp|].
  exists e. split; [by rewrite sort_perm in He | done].
Qed.

(** An instance of X9. *)
Lemma applyRedaction_entities_from_input_witness :
  ∃ e, e ∈ [entity (lit "10.0.0.1") IP_ADDRESS]
       ∧ lit "10.0.0.1" = text e ∧ IP_ADDRESS = type e.
Proof.
  apply (applyRedaction_entities_from_input 2 (lit "IP: 10.0.0.1 end")
           [entity (lit "10.0.0.1") IP_ADDRESS] MASK
           (mkResult (lit "IP: [IP_ADDRESS] end")
              [mkEntity (lit "10.0.0.1") IP_ADDRESS (Some 4) (Some 12)])
           (mkEntity (lit "10.0.0.1") IP_ADDRESS (Some 4) (Some 12))).
  - vm_compute. reflexivity.
  - apply list_elem_of_here.
Defined.

End RedactionMore.

Section LongestFirst.

Implicit Types (txt : list N) (e x y : DetectedEntity) (es l : list DetectedEntity).

Lemma sort_head_longest es e :
  e ∈ es →
  (∀ e', e' ∈ es → e' ≠ e → (length (text e') < length (text e))%nat) →
  ∃ rest, sort by_length_desc es = e :: rest.
Proof.
  unfold sort. induction es as [|x es IH]; intros Hin Hlong;
    [by apply not_elem_of_nil in Hin|].
  simpl. destruct (decide (x = e)) as [->|Hne].
  - destruct (foldr (sort_insert by_length_desc) [] es) as [|y l] eqn:E; simpl; [eauto|].
    assert (y ∈ es) as Hy.
    { rewrite <- (sort_perm by_length_desc es). unfold sort. rewrite E.
      apply list_elem_of_here. }
    assert ((by_length_desc e y <=? 0) = true) as ->; [|eauto].
    apply Z.leb_le. unfold by_length_desc, len.
    destruct (decide (y = e)) as [->|Hye]; [lia|].
    pose proof (Hlong y ltac:(by apply list_elem_of_further) Hye). lia.
  - apply elem_of_cons in Hin as [->|Hin]; [done|].
    destruct IH as [rest ->]; [done | |].
    + intros e' He'. apply Hlong. by apply list_elem_of_further.
    + simpl. assert ((by_length_desc x e <=? 0) = false) as ->; [|eauto].
      apply Z.leb_gt. unfold by_length_desc, len.
      pose proof (Hlong x ltac:(apply list_elem_of_here) Hne). lia.
Qed.

(** X10: the longest text goes first: when one supplied entity has a text
    longer than every other one and that text occurs in the input, its
    first occurrence is returned with exactly the range of that
    occurrence. *)
Theorem applyRedaction_longest_first fuel txt es mode r e k :
  applyRedaction fuel txt es mode = Some r →
  e ∈ es →
  (∀ e', e' ∈ es → e' ≠ e → (length (text e') < length (text e))%nat) →
  occurs_at txt (text e) k →
  with_indices e (indexOf txt (text e) 0) ∈ entitiesWithIndices r
  ∧ 0 ≤ indexOf txt (text e) 0 ≤ Z.of_nat k.
Proof.
  intros Hr Hin Hlong Hocc.
  destruct (indexOf_least txt (text e) 0 k ltac:(simpl; lia) Hocc) as [Hne Hle].
  destruct (indexOf_found _ _ _ _ eq_refl Hne) as (Hge & _ & _).
  split; [|lia].
  unfold applyRedaction in Hr.
  destruct (sort_head_longest es e Hin Hlong) as [rest Hsort]. rewrite Hsort in Hr.
  simpl in Hr. unfold redact_one at 1 in Hr. simpl in Hr.
  destruct fuel as [|fuel]; [done|]. simpl in Hr.
  destruct (Z.eqb_spec (indexOf txt (text e) 0) (-1)) as [|_]; [done|].
  destruct (find_loop fuel txt e (indexOf txt (text e) 0 + 1)
              [with_indices e (indexOf txt (text e) 0)]) as [processed|] eqn:E;
    simpl in Hr; [|done].
  apply find_loop_covers in E as (Hm1 & _ & _).
  destruct (redact_all (S fuel) txt mode _ rest) as [st|] eqn:E2; simpl in Hr; [|done].
  injection Hr as <-. simpl. rewrite sort_perm.
  apply redact_all_covers in E2 as (Hm2 & _ & _). apply Hm2. simpl.
  apply Hm1. apply list_elem_of_here.
Qed.

(** An instance of X10: ["aba"] is longer than ["ba"] and first occurs in
    ["ababa"] at [0]. *)
Lemma applyRedaction_longest_first_witness :
  with_indices (entity (lit "aba") PERSON) (indexOf (lit "ababa") (lit "aba") 0)
    ∈ [mkEntity (lit "aba") PERSON (Some 0) (Some 3);
       mkEntity (lit "ba") PERSON (Some 3) (Some 5)]
  ∧ 0 ≤ indexOf (lit "ababa") (lit "aba") 0 ≤ Z.of_nat 2.
Proof.
  apply (applyRedaction_longest_first 10 (lit "ababa")
           [entity (lit "ba") PERSON; entity (lit "aba") PERSON] MASK
           (mkResult (lit "[PERSON][PERSON]")
              [mkEntity (lit "aba") PERSON (Some 0) (Some 3);
               mkEntity (lit "ba") PERSON (Some 3) (Some 5)])
           (entity (lit "aba") PERSON) 2).
  - vm_compute. reflexivity.
  - apply list_elem_of_further, list_elem_of_here.
  - intros e' He' Hne. apply elem_of_cons in He' as [->|He'].
    + simpl. lia.
    + apply list_elem_of_singleton in He'. done.
  - split; [simpl; lia | reflexivity].
Defined.

End LongestFirst.

Section RedactionOrder.

Implicit Types (txt : list N) (e p a b x : DetectedEntity)
  (l processed : list DetectedEntity).

Lemma redact_all_mode fuel txt m1 m2 : ∀ es st1 st2, st1.2 = st2.2 →
  snd <$> redact_all fuel txt m1 st1 es = snd <$> redact_all fuel txt m2 st2 es.
Proof.
  induction es as [|e es IH]; intros st1 st2 Hst; simpl; [by rewrite Hst|].
  unfold redact_one. rewrite Hst.
  destruct (find_loop fuel txt e 0 st2.2) as [processed|]; simpl; [|done].
  by apply IH.
Qed.

(** X11: the entities returned, ranges included, are the same in both
    modes; only the redacted text depends on the mode. *)
Theorem applyRedaction_entities_mode_independent fuel txt es :
  entitiesWithIndices <$> applyRedaction fuel txt es MASK
  = entitiesWithIndices <$> applyRedaction fuel txt es REMOVE.
Proof.
  unfold applyRedaction.
  pose proof (redact_all_mode fuel txt MASK REMOVE (sort by_length_desc es)
                (txt, []) (txt, []) eq_refl) as H.
  destruct (redact_all fuel txt MASK (txt, []) (sort by_length_desc es)) as [s1|],
           (redact_all fuel txt REMOVE (txt, []) (sort by_length_desc es)) as [s2|];
    simpl in *; try done.
  by injection H as ->.
Qed.

Lemma sort_insert_ordered x l :
  ordered_by_start l → ordered_by_start (sort_insert by_start x l).
Proof.
  induction l as [|y l IH]; simpl; intros Hl.
  - split; [constructor | done].
  - destruct Hl as [Hy Hl]. unfold by_start at 1. fold (start_key x) (start_key y).
    destruct (Z.leb_spec (start_key x - start_key y) 0) as [Hle|Hgt]; simpl.
    + split; [|done]. constructor; [lia|].
      eapply Forall_impl; [done|]. intros b Hb. simpl in Hb. lia.
    + split; [|by apply IH].
      rewrite sort_insert_perm. constructor; [lia | done].
Qed.

Lemma sort_ordered l : ordered_by_start (sort by_start l).
Proof.
  unfold sort. induction l as [|x l IH]; simpl; [done|].
  by apply sort_insert_ordered.
Qed.

Lemma ordered_lookup l : ordered_by_start l →
  ∀ i j a b, (i < j)%nat → l !! i = Some a → l !! j = Some b →
             start_key a ≤ start_key b.
Proof.
  induction l as [|x l IH]; simpl; intros Hl i j a b Hij Hi Hj; [done|].
  destruct Hl as [Hx Hl]. rewrite Forall_forall in Hx.
  destruct j as [|j]; [lia|]. destruct i as [|i]; simpl in *.
  - injection Hi as <-. apply Hx. by eapply list_elem_of_lookup_2.
  - eapply (IH Hl i j); [lia | done | done].
Qed.

(** X12: the returned entities are in the order of the text: each one ends
    at or before the start of every one after it in the list. *)
Theorem applyRedaction_text_order fuel txt es mode r i j a b :
  applyRedaction fuel txt es mode = Some r →
  (i < j)%nat →
  entitiesWithIndices r !! i = Some a → entitiesWithIndices r !! j = Some b →
  ends_before a b.
Proof.
  intros Hr Hij Ha Hb.
  destruct (applyRedaction_resolved_in_list _ _ _ _ _ Hr) as [Hres Hno].
  assert (ordered_by_start (entitiesWithIndices r)) as Hord.
  { unfold applyRedaction in Hr.
    destruct (redact_all fuel txt mode (txt, []) (sort by_length_desc es)); [|done].
    injection Hr as <-. apply sort_ordered. }
  pose proof (ordered_lookup _ Hord i j a b Hij Ha Hb) as Hkey.
  rewrite Forall_forall in Hres.
  destruct (Hres a) as (sa & ea & Hsa & Hea & Ha1 & Ha2 & _);
    [by eapply list_elem_of_lookup_2|].
  destruct (Hres b) as (sb & eb & Hsb & Heb & Hb1 & Hb2 & _);
    [by eapply list_elem_of_lookup_2|].
  unfold start_key in Hkey. rewrite Hsa, Hsb in Hkey. simpl in Hkey.
  exists ea, sb. split; [done | split; [done|]].
  destruct (Z.le_gt_cases ea sb) as [|Hgt]; [done|]. exfalso.
  apply (Hno i j a b); [lia | done | done |].
  exists sa, ea, sb, eb. repeat split; try done; lia.
Qed.

(** An instance of X12. *)
Lemma applyRedaction_text_order_witness :
  ends_before (mkEntity (lit "aba") PERSON (Some 0) (Some 3))
              (mkEntity (lit "ba") PERSON (Some 3) (Some 5)).
Proof.
  apply (applyRedaction_text_order 10 (lit "ababa")
           [entity (lit "ba") PERSON; entity (lit "aba") PERSON] MASK
           (mkResult (lit "[PERSON][PERSON]")
              [mkEntity (lit "aba") PERSON (Some 0) (Some 3);
               mkEntity (lit "ba") PERSON (Some 3) (Some 5)]) 0 1).
  - vm_compute. reflexivity.
  - lia.
  - reflexivity.
  - reflexivity.
Defined.

(** X13: with more rounds than the text has code units, the call returns a
    result exactly when no supplied entity has the empty text. *)
Theorem applyRedaction_returns_exactly fuel txt es mode :
  (length txt < fuel)%nat →
  is_Some (applyRedaction fuel txt es mode) ↔ Forall (fun e => text e ≠ []) es.
Proof. apply applyRedaction_returns_iff. Qed.

(** An instance of X13. *)
Lemma applyRedaction_returns_exactly_witness :
  is_Some (applyRedaction 17 (lit "IP: 10.0.0.1 end")
             [entity (lit "10.0.0.1") IP_ADDRESS] MASK)
  ↔ Forall (fun e => text e ≠ []) [entity (lit "10.0.0.1") IP_ADDRESS].
Proof. apply applyRedaction_returns_exactly. simpl. lia. Defined.

End RedactionOrder.

(** ** The cleanup of the redacted text *)

Section CleanupFacts.

Implicit Types (s l : list N) (p : N → bool).

Lemma run_le p l : (run p l ≤ length l)%nat.
Proof. induction l as [|c l IH]; simpl; [done|]. destruct (p c); simpl; lia. Qed.

(** A greedy quantifier over a class takes the whole run, up to its
    maximum. *)
Lemma rep_Cls_head p s : ∀ max min i, (min ≤ max)%nat →
  head (rep (ends (Cls p) s) min max i)
  = if decide (min ≤ run p (drop i s))%nat
    then Some (i + Nat.min (run p (drop i s)) max)%nat else None.
Proof.
  set (step := ends (Cls p) s).
  assert (∀ i, step i = match s !! i with
                        | Some c => if p c then [S i] else []
                        | None => []
                        end) as Hstep by done.
  clearbody step.
  induction max as [|max IH]; intros min i Hmin; simpl.
  - assert (min = 0%nat) as -> by lia. rewrite decide_True by lia.
    by rewrite Nat.min_0_r, Nat.add_0_r.
  - rewrite Hstep. destruct (s !! i) as [c|] eqn:Ec.
    + rewrite (drop_S _ _ _ Ec). cbn [run]. destruct (p c) eqn:Epc.
      * rewrite bind_singleton.
        rewrite (proj2 (Nat.eqb_neq (S i) i)) by lia. rewrite andb_false_r.
        rewrite head_app. rewrite (IH (pred min) (S i)) by lia.
        destruct min as [|min]; cbn [pred Nat.eqb head];
          repeat case_decide; try lia; try done; f_equal; lia.
      * destruct min as [|min]; cbn [mbind list_bind Nat.eqb app head];
          repeat case_decide; try lia; try done; f_equal; lia.
    + apply lookup_ge_None in Ec. rewrite drop_ge by lia. cbn [run].
      destruct min as [|min]; cbn [mbind list_bind Nat.eqb app head];
        repeat case_decide; try lia; try done; f_equal; lia.
Qed.

Lemma match_at_Plus_Cls p s i :
  match_at (Plus (Cls p)) s i
  = if decide (1 ≤ run p (drop i s))%nat
    then Some (i + run p (drop i s))%nat else None.
Proof.
  unfold match_at, Plus.
  change (ends (RepInf (Cls p) 1) s i)
    with (rep (ends (Cls p) s) 1 (1 + length s) i).
  rewrite rep_Cls_head by lia.
  pose proof (run_le p (drop i s)) as Hr. rewrite length_drop in Hr.
  destruct (decide (1 ≤ run p (drop i s))%nat); [|done]. f_equal. lia.
Qed.

(** The search of [exec] stops at the first position with a match. *)
Lemma find_match_first (r : regex) s : ∀ n i,
  match find_match r s i n with
  | Some (b, e) =>
      (i ≤ b ≤ i + n)%nat ∧ match_at r s b = Some e
      ∧ ∀ j, (i ≤ j < b)%nat → match_at r s j = None
  | None => ∀ j, (i ≤ j ≤ i + n)%nat → match_at r s j = None
  end.
Proof.
  induction n as [|n IH]; intros i; simpl.
  - destruct (match_at r s i) as [e|] eqn:E.
    + split; [lia | split; [done | intros; lia]].
    + intros j Hj. by assert (j = i) as -> by lia.
  - destruct (match_at r s i) as [e|] eqn:E.
    + split; [lia | split; [done | intros; lia]].
    + specialize (IH (S i)). destruct (find_match r s (S i) n) as [[b e]|].
      * destruct IH as (Hb & Hm & Hnone). split; [lia | split; [done|]].
        intros j Hj. destruct (decide (j = i)) as [->|]; [done | apply Hnone; lia].
      * intros j Hj. destruct (decide (j = i)) as [->|]; [done | apply IH; lia].
Qed.

Lemma collapse_head l : head (collapse l) = head l.
Proof.
  induction l as [|c [|d l] IH]; simpl in *; try done.
  destruct (is_space c && is_space d) eqn:E; [|done].
  rewrite IH. apply andb_true_iff in E as [Ec Ed].
  unfold is_space in *. apply N.eqb_eq in Ec, Ed. by subst.
Qed.

Lemma collapse_no_double_space l : no_double_space (collapse l).
Proof.
  induction l as [|c [|d l] IH]; simpl in *; try done.
  destruct (is_space c && is_space d) eqn:E; [done|].
  simpl. split; [|done].
  pose proof (collapse_head (d :: l)) as Hh. simpl in Hh.
  destruct (match l with
            | [] => [d]
            | d0 :: _ => if is_space d && is_space d0 then collapse l else d :: collapse l
            end) as [|d' l'] eqn:El; [done|].
  simpl in Hh. by injection Hh as ->.
Qed.

Lemma collapse_id l : no_double_space l → collapse l = l.
Proof.
  induction l as [|c [|d l] IH]; simpl in *; try done.
  intros [E H]. rewrite E. f_equal. by apply IH.
Qed.

Lemma collapse_cons_no_space c l :
  is_space c = false → collapse (c :: l) = c :: collapse l.
Proof. intros Hc. destruct l as [|d l]; [done|]. cbn [collapse]. by rewrite Hc. Qed.

Lemma collapse_no_space_prefix l r :
  Forall (fun c => is_space c = false) l → collapse (l ++ r) = l ++ collapse r.
Proof.
  induction 1 as [|c l Hc _ IH]; [done|].
  rewrite <- !app_comm_cons, collapse_cons_no_space by done. by rewrite IH.
Qed.

Lemma run_cons_true p c l : p c = true → run p (c :: l) = S (run p l).
Proof. intros H. cbn [run]. by rewrite H. Qed.

Lemma run_cons_false p c l : p c = false → run p (c :: l) = 0%nat.
Proof. intros H. cbn [run]. by rewrite H. Qed.

Lemma collapse_cons_cons c d l :
  collapse (c :: d :: l)
  = if is_space c && is_space d then collapse (d :: l) else c :: collapse (d :: l).
Proof. reflexivity. Qed.

Lemma collapse_run l : (1 ≤ run is_space l)%nat →
  collapse l = 32%N :: collapse (drop (run is_space l) l).
Proof.
  induction l as [|c l IH]; [cbn [run]; lia|].
  destruct (is_space c) eqn:Ec; [|rewrite run_cons_false by done; lia].
  intros _. rewrite (run_cons_true _ _ _ Ec).
  assert (c = 32%N) as -> by (unfold is_space in Ec; by apply N.eqb_eq in Ec).
  change (drop (S (run is_space l)) (32%N :: l)) with (drop (run is_space l) l).
  destruct l as [|d l]; [done|].
  rewrite collapse_cons_cons, Ec. destruct (is_space d) eqn:Ed; cbn [andb].
  - apply IH. rewrite run_cons_true by done. lia.
  - by rewrite run_cons_false by done.
Qed.

(** Replacing every run of spaces with one space drops the spaces that are
    followed by a space. *)
Lemma replace_spaces_collapse s : ∀ k i,
  (i ≤ length s)%nat → (length s + 1 - i < k)%nat →
  replace_loop (Plus (Chr 32)) (fun _ => lit " ") s k i i = collapse (drop i s).
Proof.
  induction k as [|k IH]; intros i Hi Hk; [lia|]. simpl.
  unfold exec. destruct (Nat.ltb_spec (length s) i) as [?|_]; [lia|].
  pose proof (find_match_first (Plus (Chr 32)) s (length s - i) i) as Hfind.
  assert (∀ b, (i ≤ b)%nat →
            (∀ j, (i ≤ j < b)%nat → match_at (Plus (Chr 32)) s j = None) →
            (b ≤ length s)%nat →
            Forall (fun c => is_space c = false) (substring s i b)) as Hpre.
  { intros b Hb Hnone Hbl. apply Forall_lookup. intros t c Ht.
    unfold substring in Ht. apply lookup_take_Some in Ht as [Ht Htb].
    rewrite lookup_drop in Ht. specialize (Hnone (i + t)%nat ltac:(lia)).
    unfold Chr in Hnone. rewrite match_at_Plus_Cls in Hnone.
    rewrite (drop_S _ _ _ Ht) in Hnone. case_decide as Hr; [done|].
    destruct (is_space c) eqn:Ec; [|done]. exfalso. apply Hr.
    rewrite (run_cons_true (N.eqb 32) c) by exact Ec. lia. }
  destruct (find_match (Plus (Chr 32)) s i (length s - i)) as [[b e]|].
  - destruct Hfind as (Hb & Hm & Hnone).
    unfold Chr in Hm. rewrite match_at_Plus_Cls in Hm.
    case_decide as Hrun; [|done]. injection Hm as <-.
    change (run (N.eqb 32) (drop b s)) with (run is_space (drop b s)) in *.
    pose proof (run_le is_space (drop b s)) as Hrl. rewrite length_drop in Hrl.
    rewrite (proj2 (Nat.eqb_neq (b + run is_space (drop b s)) b)) by lia.
    rewrite IH by lia.
    assert (drop i s = substring s i b ++ drop b s) as ->.
    { unfold substring. rewrite <- (take_drop (b - i) (drop i s)) at 1.
      f_equal. rewrite drop_drop. f_equal. lia. }
    rewrite collapse_no_space_prefix by (apply Hpre; [lia | done | lia]).
    rewrite (collapse_run (drop b s)) by done.
    by rewrite drop_drop.
  - assert (Forall (fun c => is_space c = false) (drop i s)) as Hall.
    { replace (drop i s) with (substring s i (length s)).
      + apply Hpre; [lia | | lia]. intros j Hj. apply Hfind. lia.
      + unfold substring. apply take_ge. rewrite length_drop. lia. }
    pose proof (collapse_no_space_prefix (drop i s) [] Hall) as Hc.
    rewrite app_nil_r in Hc. simpl in Hc. rewrite app_nil_r in Hc. by rewrite Hc.
Qed.

Lemma cleanup_collapse s : cleanup s = trim (collapse s).
Proof.
  unfold cleanup, replace. by rewrite replace_spaces_collapse by lia.
Qed.

Lemma trim_start_suffix s : ∃ u, s = u ++ trim_start s.
Proof.
  induction s as [|c s [u IH]]; simpl.
  - by exists [].
  - destruct (white_space c).
    + exists (c :: u). simpl. by rewrite <- IH.
    + by exists [].
Qed.

Lemma trim_start_head s c : head (trim_start s) = Some c → white_space c = false.
Proof.
  induction s as [|d s IH]; simpl; [done|].
  destruct (white_space d) eqn:E; [done|]. simpl. by intros [= <-].
Qed.

Lemma trim_start_id s :
  (∀ c, head s = Some c → white_space c = false) → trim_start s = s.
Proof. destruct s as [|c s]; simpl; [done|]. intros H. by rewrite H. Qed.

Lemma trim_infix s : ∃ u v, s = u ++ trim s ++ v.
Proof.
  unfold trim. destruct (trim_start_suffix s) as [u Hu].
  destruct (trim_start_suffix (reverse (trim_start s))) as [v Hv].
  exists u, (reverse v). rewrite <- reverse_app, <- Hv, reverse_involutive. done.
Qed.

Lemma trim_trimmed s : trimmed (trim s).
Proof.
  unfold trim. destruct (trim_start_suffix (reverse (trim_start s))) as [v Hv].
  set (w := trim_start (reverse (trim_start s))) in *. split.
  - intros c Hc. rewrite <- last_reverse, reverse_involutive in Hc.
    assert (last (reverse (trim_start s)) = Some c) as Hl
      by (rewrite Hv; apply last_app_Some; by left).
    rewrite last_reverse in Hl. by apply trim_start_head in Hl.
  - intros c Hc. rewrite last_reverse in Hc. by apply trim_start_head in Hc.
Qed.

Lemma trim_id s : trimmed s → trim s = s.
Proof.
  intros [Hh Hl]. unfold trim. rewrite (trim_start_id s Hh).
  rewrite trim_start_id; [apply reverse_involutive|].
  intros c Hc. apply Hl. by rewrite <- last_reverse, reverse_involutive in Hc.
Qed.

Lemma no_double_space_app_r u l : no_double_space (u ++ l) → no_double_space l.
Proof.
  induction u as [|c u IH]; simpl; [done|]. intros [_ H]. by apply IH.
Qed.

Lemma no_double_space_app_l l v : no_double_space (l ++ v) → no_double_space l.
Proof.
  induction l as [|c l IH]; simpl; [done|]. intros [H1 H2]. split; [|by apply IH].
  destruct l as [|d l]; [done|]. done.
Qed.

Lemma no_double_space_no_pair l : no_double_space l →
  ∀ l1 l2, l ≠ l1 ++ lit "  " ++ l2.
Proof.
  intros Hl l1 l2 ->. apply no_double_space_app_r in Hl. simpl in Hl.
  destruct Hl as [H _]. done.
Qed.

Lemma cleanup_facts s :
  no_double_space (cleanup s) ∧ trimmed (cleanup s) ∧ cleanup (cleanup s) = cleanup s.
Proof.
  assert (no_double_space (cleanup s)) as Hnd.
  { rewrite cleanup_collapse. destruct (trim_infix (collapse s)) as (u & v & Huv).
    pose proof (collapse_no_double_space s) as H. rewrite Huv in H.
    by apply no_double_space_app_r, no_double_space_app_l in H. }
  assert (trimmed (cleanup s)) as Htr by (rewrite cleanup_collapse; apply trim_trimmed).
  split; [done | split; [done|]].
  rewrite (cleanup_collapse (cleanup s)), collapse_id by done. by apply trim_id.
Qed.

(** X14: the redacted text has no two adjacent spaces and neither starts nor
    ends with white space; redacting it again with no entity returns it as
    it is. *)
Theorem applyRedaction_text_clean fuel txt es mode r :
  applyRedaction fuel txt es mode = Some r →
  (∀ l1 l2, redactedText r ≠ l1 ++ lit "  " ++ l2)
  ∧ trimmed (redactedText r)
  ∧ ∀ fuel' mode',
      applyRedaction fuel' (redactedText r) [] mode' = Some (mkResult (redactedText r) []).
Proof.
  unfold applyRedaction at 1.
  destruct (redact_all fuel txt mode (txt, []) (sort by_length_desc es))
    as [st|]; simpl; [|done].
  intros [= <-]. simpl. destruct (cleanup_facts st.1) as (H1 & H2 & H3).
  split; [by apply no_double_space_no_pair | split; [done|]].
  intros fuel' mode'. unfold applyRedaction. simpl. by rewrite H3.
Qed.

(** An instance of X14. *)
Lemma applyRedaction_text_clean_witness :
  (∀ l1 l2, lit "IP: end" ≠ l1 ++ lit "  " ++ l2)
  ∧ trimmed (lit "IP: end")
  ∧ ∀ fuel' mode',
      applyRedaction fuel' (lit "IP: end") [] mode' = Some (mkResult (lit "IP: end") []).
Proof.
  apply (applyRedaction_text_clean 2 (lit "IP: 10.0.0.1 end")
           [entity (lit "10.0.0.1") IP_ADDRESS] REMOVE
           (mkResult (lit "IP: end")
              [mkEntity (lit "10.0.0.1") IP_ADDRESS (Some 4) (Some 12)])).
  vm_compute. reflexivity.
Defined.

End CleanupFacts.

(** ** The word diff of any two texts *)

Section DiffMore.

Variables aT eT : list (list N).
Variable dp : list (list Z).

Implicit Types (st : state).

Lemma matched_snoc_match cs t : matched (cs ++ [mkChunk t match_]) = matched cs ++ [t].
Proof.
  unfold matched. rewrite filter_app, fmap_app. f_equal.
Qed.

Lemma matched_snoc_other cs t k : k ≠ match_ → matched (cs ++ [mkChunk t k]) = matched cs.
Proof.
  intros Hk. unfold matched. rewrite filter_app, fmap_app.
  rewrite (filter_cons_False _ (mkChunk t k)) by done. simpl. by rewrite app_nil_r.
Qed.

Lemma trace_step (T : list (list N)) (vs : list (list N)) i :
  (0 < i ≤ length T)%nat →
  (vs ++ [default [] (tok T i)]) ++ reverse (take (i - 1) T) = vs ++ reverse (take i T).
Proof.
  intros Hi. destruct i as [|i]; [lia|]. unfold tok. simpl. rewrite Nat.sub_0_r.
  destruct (lookup_lt_is_Some_2 T i) as [t Ht]; [lia|].
  rewrite Ht, (take_S_r _ _ _ Ht), reverse_app. simpl. by rewrite <- app_assoc.
Qed.

(** One round of the loop takes a token from one side at least, and keeps
    what the loop keeps. *)
Lemma backtrack_step_spec st :
  backtrack_inv aT eT st → (0 < st_i st ∨ 0 < st_j st)%nat →
  let st' := backtrack_step aT eT dp st in
  backtrack_inv aT eT st'
  ∧ actual_trace aT st' = actual_trace aT st
  ∧ expected_trace eT st' = expected_trace eT st
  ∧ (st_i st' + st_j st' < st_i st + st_j st)%nat.
Proof.
  intros (Hi & Hj & HkA & HkE & Hm) Hpos. unfold backtrack_step.
  destruct st as [i j tA tE]. simpl in *.
  destruct ((0 <? i)%nat && (0 <? j)%nat && tok_eqb aT eT i j) eqn:E1.
  - apply andb_true_iff in E1 as [E1 Eq]. apply andb_true_iff in E1 as [Ei Ej].
    apply Nat.ltb_lt in Ei, Ej. unfold tok_eqb in Eq. apply bool_decide_eq_true in Eq.
    unfold backtrack_inv, actual_trace, expected_trace, chunk. simpl.
    rewrite !fmap_app. simpl. rewrite !trace_step by lia.
    rewrite !matched_snoc_match, Hm, Eq.
    repeat split; try done; try lia.
    + apply Forall_app. split; [done|]. constructor; [by left | constructor].
    + apply Forall_app. split; [done|]. constructor; [by left | constructor].
  - destruct ((0 <? j)%nat && ((i =? 0)%nat || (get2 dp i (j - 1) >=? get2 dp (i - 1) j)))
      eqn:E2.
    + apply andb_true_iff in E2 as [Ej _]. apply Nat.ltb_lt in Ej.
      unfold backtrack_inv, actual_trace, expected_trace, chunk. simpl.
      rewrite !fmap_app. simpl. rewrite !trace_step by lia.
      rewrite matched_snoc_other by done.
      repeat split; try done; try lia.
      apply Forall_app. split; [done|]. constructor; [by right | constructor].
    + destruct ((0 <? i)%nat && ((j =? 0)%nat || (get2 dp i (j - 1) <? get2 dp (i - 1) j)))
        eqn:E3.
      * apply andb_true_iff in E3 as [Ei _]. apply Nat.ltb_lt in Ei.
        unfold backtrack_inv, actual_trace, expected_trace, chunk. simpl.
        rewrite !fmap_app. simpl. rewrite !trace_step by lia.
        rewrite matched_snoc_other by done.
        repeat split; try done; try lia.
        apply Forall_app. split; [done|]. constructor; [by right | constructor].
      * exfalso. clear E1.
        destruct (Nat.ltb_spec 0 j) as [Hj0|Hj0]; simpl in E2.
        -- destruct (Nat.eqb_spec i 0) as [Hi0|Hi0]; simpl in E2; [done|].
           assert ((0 <? i)%nat = true) as Ei by (apply Nat.ltb_lt; lia).
           rewrite Ei in E3. simpl in E3.
           apply orb_false_iff in E3 as [_ E3].
           apply Z.ltb_ge in E3. rewrite Z.geb_leb in E2. apply Z.leb_gt in E2. lia.
        -- assert ((0 <? i)%nat = true) as Ei by (apply Nat.ltb_lt; lia).
           rewrite Ei in E3. simpl in E3.
           assert ((j =? 0)%nat = true) as Ej0 by (apply Nat.eqb_eq; lia).
           by rewrite Ej0 in E3.
Qed.

(** The loop ends within [i + j + 1] rounds, at [(0, 0)]. *)
Lemma backtrack_spec : ∀ fuel st,
  backtrack_inv aT eT st → (st_i st + st_j st < fuel)%nat →
  ∃ st', backtrack fuel aT eT dp st = Some st'
         ∧ backtrack_inv aT eT st'
         ∧ actual_trace aT st' = actual_trace aT st
         ∧ expected_trace eT st' = expected_trace eT st
         ∧ st_i st' = 0%nat ∧ st_j st' = 0%nat.
Proof.
  induction fuel as [|fuel IH]; intros st Hinv Hfuel; [lia|]. simpl.
  destruct ((0 <? st_i st)%nat || (0 <? st_j st)%nat) eqn:E.
  - apply orb_true_iff in E. rewrite !Nat.ltb_lt in E.
    destruct (backtrack_step_spec st Hinv E) as (Hinv' & HA & HE & Hlt).
    destruct (IH _ Hinv' ltac:(lia)) as (st' & Hst' & Hi' & HA' & HE' & H0).
    exists st'. rewrite HA', HE'. done.
  - apply orb_false_iff in E as [Ei Ej]. apply Nat.ltb_ge in Ei, Ej.
    exists st. split; [done|]. split; [done|]. split; [done|]. split; [done|].
    split; lia.
Qed.

End DiffMore.

Section DiffMoreTheorems.

Lemma diff_tokens_spec (aT eT : list (list N)) fuel :
  (length aT + length eT < fuel)%nat →
  ∃ aC eC, diff_tokens fuel aT eT = Some (aC, eC)
    ∧ value <$> aC = aT ∧ value <$> eC = eT
    ∧ Forall actual_kind aC ∧ Forall expected_kind eC
    ∧ matched aC = matched eC.
Proof.
  intros Hfuel. unfold diff_tokens.
  destruct (backtrack_spec aT eT (lcs_table aT eT) fuel
              (mkState (length aT) (length eT) [] []))
    as (st & -> & (_ & _ & HkA & HkE & Hm) & HA & HE & Hi & Hj).
  { unfold backtrack_inv. simpl. repeat split; try done; lia. }
  { simpl. lia. }
  simpl. eexists _, _. split; [done|].
  unfold actual_trace, expected_trace in HA, HE. rewrite Hi in HA. rewrite Hj in HE.
  simpl in HA, HE. rewrite !firstn_all, !app_nil_r in *.
  rewrite !fmap_reverse, HA, HE, !reverse_involutive.
  split; [done | split; [done|]].
  split; [by apply Forall_reverse | split; [by apply Forall_reverse|]].
  unfold matched in *. by rewrite !filter_reverse, !fmap_reverse, Hm.
Qed.

(** X15: for any two texts the diff returns, and each side lists the tokens
    of its text, all of them and in order: the values of the actual chunks
    concatenate to the actual text, those of the expected chunks to the
    expected text. *)
Theorem computeWordDiff_reconstructs fuel actual expected :
  (2 * (length actual + length expected) < fuel)%nat →
  ∃ aT eT aC eC,
    tokenize fuel actual = Some aT ∧ tokenize fuel expected = Some eT
    ∧ computeWordDiff fuel actual expected = Some (aC, eC)
    ∧ value <$> aC = aT ∧ value <$> eC = eT
    ∧ concat (value <$> aC) = actual ∧ concat (value <$> eC) = expected.
Proof.
  intros Hfuel.
  destruct (tokenize_spec fuel actual ltac:(lia)) as (aT & HaT & Hca & _ & Hla).
  destruct (tokenize_spec fuel expected ltac:(lia)) as (eT & HeT & Hce & _ & Hle).
  destruct (diff_tokens_spec aT eT fuel ltac:(lia)) as (aC & eC & Hd & Ha & He & _).
  exists aT, eT, aC, eC. unfold computeWordDiff. rewrite HaT, HeT. simpl.
  rewrite Ha, He. done.
Qed.

(** An instance of X15. *)
Lemma computeWordDiff_reconstructs_witness :
  ∃ aT eT aC eC,
    tokenize 15 (lit "a b") = Some aT ∧ tokenize 15 (lit "a, c") = Some eT
    ∧ computeWordDiff 15 (lit "a b") (lit "a, c") = Some (aC, eC)
    ∧ value <$> aC = aT ∧ value <$> eC = eT
    ∧ concat (value <$> aC) = lit "a b" ∧ concat (value <$> eC) = lit "a, c".
Proof. apply (computeWordDiff_reconstructs 15 (lit "a b") (lit "a, c")). simpl. lia. Defined.

(** X16: the actual side only has match and mismatch-actual chunks, the
    expected side only match and mismatch-expected chunks, and the match
    chunks of the two sides carry the same tokens in the same order. *)
Theorem computeWordDiff_kinds fuel actual expected aC eC :
  computeWordDiff fuel actual expected = Some (aC, eC) →
  Forall actual_kind aC ∧ Forall expected_kind eC ∧ matched aC = matched eC.
Proof.
  unfold computeWordDiff.
  destruct (tokenize fuel actual) as [aT|]; simpl; [|done].
  destruct (tokenize fuel expected) as [eT|]; simpl; [|done].
  unfold diff_tokens.
  destruct (backtrack fuel aT eT (lcs_table aT eT)
              (mkState (length aT) (length eT) [] [])) as [st|] eqn:E; simpl; [|done].
  intros [= <- <-].
  assert (backtrack_inv aT eT st) as (_ & _ & HkA & HkE & Hm).
  { assert (∀ f s s', backtrack_inv aT eT s →
              backtrack f aT eT (lcs_table aT eT) s = Some s' →
              backtrack_inv aT eT s') as Hloop.
    { induction f as [|f IH]; intros s s' Hs; simpl; [done|].
      destruct ((0 <? st_i s)%nat || (0 <? st_j s)%nat) eqn:Ep.
      - apply orb_true_iff in Ep. rewrite !Nat.ltb_lt in Ep.
        apply IH. by apply backtrack_step_spec.
      - by intros [= <-]. }
    eapply Hloop; [|done]. unfold backtrack_inv. simpl. repeat split; try done; lia. }
  split; [by apply Forall_reverse | split; [by apply Forall_reverse|]].
  unfold matched in *. by rewrite !filter_reverse, !fmap_reverse, Hm.
Qed.

(** An instance of X16. *)
Lemma computeWordDiff_kinds_witness :
  let aC := [mkChunk (lit "a") match_; mkChunk (lit " ") match_;
             mkChunk (lit "b") mismatch_actual] in
  let eC := [mkChunk (lit "a") match_; mkChunk (lit " ") match_;
             mkChunk (lit "c") mismatch_expected] in
  Forall actual_kind aC ∧ Forall expected_kind eC ∧ matched aC = matched eC.
Proof.
  apply (computeWordDiff_kinds 15 (lit "a b") (lit "a c")). vm_compute. reflexivity.
Defined.

End DiffMoreTheorems.

(** ** The diff matches as many tokens as can be matched *)

Section LcsTable.

Variables aT eT : list (list N).

Lemma lcsL_0 j : lcsL aT eT 0 j = 0.
Proof. reflexivity. Qed.

Lemma lcsL_col0 i : lcsL aT eT i 0 = 0.
Proof. by destruct i. Qed.

Lemma lcsL_S_S i j :
  lcsL aT eT (S i) (S j)
  = if tok_eqb aT eT (S i) (S j) then lcsL aT eT i j + 1
    else Z.max (lcsL aT eT i (S j)) (lcsL aT eT (S i) j).
Proof. reflexivity. Qed.

Lemma lcsL_nonneg i : ∀ j, 0 ≤ lcsL aT eT i j.
Proof.
  induction i as [|i IHi]; intros j; [done|].
  induction j as [|j IHj]; [done|].
  rewrite lcsL_S_S. pose proof (IHi j). pose proof (IHi (S j)).
  destruct (tok_eqb aT eT (S i) (S j)); lia.
Qed.

Lemma lcs_row_spec i t :
  (1 ≤ i ≤ length aT)%nat → lcs_rows_done aT eT i t →
  lcs_rows_done aT eT (S i) (lcs_row aT eT t i).
Proof.
  intros Hi (Hsh & Habove & Hcol). unfold lcs_row.
  pose (Q := fun (k : nat) (t : list (list Z)) =>
    lcs_rows_done aT eT i t ∧ ∀ j, (j < k)%nat → get2 t i j = lcsL aT eT i j).
  assert (Q (1 + length eT)%nat (foldl (lcs_cell aT eT i) t (seq 1 (length eT))))
    as ((H1 & H2 & H3) & H4).
  { apply (foldl_seq_inv Q).
    - split; [done|]. intros j Hj. assert (j = 0%nat) as -> by lia.
      by rewrite Hcol, lcsL_col0.
    - intros k x Hk ((Hx1 & Hx2 & Hx3) & Hx4).
      assert (∀ v, v = lcsL aT eT i k → Q (S k) (set2 x i k v)) as Hset.
      { intros v Hv. split; [split; [by apply shaped_set2 | split]|].
        - intros i' j Hi' Hj. rewrite get2_set2_ne; [by apply Hx2|].
          intros [= -> ->]. lia.
        - intros i'. rewrite get2_set2_ne; [by apply Hx3|].
          intros [= -> ->]. lia.
        - intros j Hj. destruct (decide (j = k)) as [->|Hne].
          + by rewrite (get2_set2_eq (S (length aT)) (S (length eT))) by (done || lia).
          + rewrite get2_set2_ne; [apply Hx4; lia | congruence]. }
      unfold lcs_cell. destruct i as [|i']; [lia|]. destruct k as [|k']; [lia|].
      rewrite lcsL_S_S in Hset. simpl. rewrite !Nat.sub_0_r.
      destruct (tok_eqb aT eT (S i') (S k')); apply Hset.
      + by rewrite Hx2 by lia.
      + by rewrite Hx2, Hx4 by lia. }
  split; [done | split; [|done]].
  intros i' j Hi' Hj. destruct (decide (i' = i)) as [->|Hne].
  - apply H4. lia.
  - apply H2; [lia | done].
Qed.

(** The table construction computes the recurrence. *)
Lemma lcs_table_spec i j : (i ≤ length aT)%nat → (j ≤ length eT)%nat →
  get2 (lcs_table aT eT) i j = lcsL aT eT i j.
Proof.
  intros Hi Hj.
  assert (lcs_rows_done aT eT (1 + length aT) (lcs_table aT eT)) as (_ & H & _).
  { unfold lcs_table. apply (foldl_seq_inv (lcs_rows_done aT eT)).
    - split; [apply shaped_new_table | split].
      + intros i' j' Hi' _. assert (i' = 0%nat) as -> by lia.
        by rewrite get2_new_table.
      + intros i'. apply get2_new_table.
    - intros k x Hk Hx. apply lcs_row_spec; [lia | done]. }
  apply H; lia.
Qed.

Lemma sublist_snoc_r (l u : list (list N)) x :
  l `sublist_of` u ++ [x] →
  l `sublist_of` u ∨ ∃ l', l = l' ++ [x] ∧ l' `sublist_of` u.
Proof.
  intros H. apply sublist_app_r in H as (l1 & l2 & -> & H1 & H2).
  apply sublist_cons_r in H2 as [H2|(l' & -> & H2)].
  - apply sublist_nil_r in H2 as ->. left. by rewrite app_nil_r.
  - apply sublist_nil_r in H2 as ->. right. eauto.
Qed.

(** No common subsequence of two prefixes is longer than the recurrence
    says. *)
Lemma lcsL_upper : ∀ n i j l,
  (i + j ≤ n)%nat → (i ≤ length aT)%nat → (j ≤ length eT)%nat →
  l `sublist_of` take i aT → l `sublist_of` take j eT →
  Z.of_nat (length l) ≤ lcsL aT eT i j.
Proof.
  induction n as [|n IH]; intros i j l Hn Hi Hj Ha He.
  - assert (i = 0%nat) as -> by lia. apply sublist_nil_r in Ha as ->. done.
  - destruct i as [|i]; [apply sublist_nil_r in Ha as ->; done|].
    destruct j as [|j]; [apply sublist_nil_r in He as ->; by rewrite lcsL_col0|].
    destruct (lookup_lt_is_Some_2 aT i) as [x Hx]; [lia|].
    destruct (lookup_lt_is_Some_2 eT j) as [y Hy]; [lia|].
    rewrite (take_S_r _ _ _ Hx) in Ha. rewrite (take_S_r _ _ _ Hy) in He.
    pose proof (lcsL_nonneg i j) as Hnn.
    rewrite lcsL_S_S. unfold tok_eqb, tok. simpl. rewrite !Nat.sub_0_r, Hx, Hy.
    apply sublist_snoc_r in Ha as [Ha|(la & Hla & Ha)];
      apply sublist_snoc_r in He as [He|(lb & Hlb & He)].
    + pose proof (IH i j l ltac:(lia) ltac:(lia) ltac:(lia) Ha He).
      pose proof (IH i (S j) l ltac:(lia) ltac:(lia) ltac:(lia) Ha
                    ltac:(rewrite (take_S_r _ _ _ Hy); by apply sublist_inserts_r)).
      case_bool_decide; lia.
    + assert (lb `sublist_of` take i aT) as Hb'.
      { etrans; [|exact Ha]. rewrite Hlb. by apply sublist_inserts_r. }
      pose proof (IH i j lb ltac:(lia) ltac:(lia) ltac:(lia) Hb' He).
      pose proof (IH i (S j) l ltac:(lia) ltac:(lia) ltac:(lia) Ha
                    ltac:(rewrite (take_S_r _ _ _ Hy), Hlb;
                          by apply sublist_app)).
      rewrite Hlb, length_app in *. simpl in *. case_bool_decide; lia.
    + assert (la `sublist_of` take j eT) as Ha'.
      { etrans; [|exact He]. rewrite Hla. by apply sublist_inserts_r. }
      pose proof (IH i j la ltac:(lia) ltac:(lia) ltac:(lia) Ha Ha').
      pose proof (IH (S i) j l ltac:(lia) ltac:(lia) ltac:(lia)
                    ltac:(rewrite (take_S_r _ _ _ Hx), Hla;
                          by apply sublist_app) He).
      rewrite Hla, length_app in *. simpl in *. case_bool_decide; lia.
    + rewrite Hla in Hlb. apply app_inj_tail in Hlb as [<- <-].
      pose proof (IH i j la ltac:(lia) ltac:(lia) ltac:(lia) Ha He).
      rewrite Hla, length_app. simpl. rewrite bool_decide_eq_true_2 by done. lia.
Qed.

End LcsTable.

Section LcsBacktrack.

Variables aT eT : list (list N).

Implicit Types (st : state).

(** A property that every round keeps holds of the state that the loop
    returns, which is at [(0, 0)]. *)
Lemma backtrack_keeps (dp : list (list Z)) (P : state → Prop) :
  (∀ st, P st → (0 < st_i st ∨ 0 < st_j st)%nat → P (backtrack_step aT eT dp st)) →
  ∀ fuel st st', P st → backtrack fuel aT eT dp st = Some st' →
                 P st' ∧ st_i st' = 0%nat ∧ st_j st' = 0%nat.
Proof.
  intros Hstep. induction fuel as [|fuel IH]; intros st st' HP; simpl; [done|].
  destruct ((0 <? st_i st)%nat || (0 <? st_j st)%nat) eqn:E.
  - apply orb_true_iff in E. rewrite !Nat.ltb_lt in E. apply IH. by apply Hstep.
  - apply orb_false_iff in E as [Ei Ej]. apply Nat.ltb_ge in Ei, Ej.
    intros [= <-]. split; [done | lia].
Qed.

(** Each round keeps the sum of the matches made and the matches still
    possible. *)
Lemma backtrack_step_count st :
  (st_i st ≤ length aT)%nat → (st_j st ≤ length eT)%nat →
  (0 < st_i st ∨ 0 < st_j st)%nat →
  match_count aT eT (backtrack_step aT eT (lcs_table aT eT) st) = match_count aT eT st.
Proof.
  intros Hi Hj Hpos. unfold backtrack_step, match_count.
  destruct st as [i j tA tE]. cbn [st_i st_j tempActual tempExpected] in *.
  destruct i as [|i], j as [|j]; [lia | done | |].
  - change (0 <? S i)%nat with true. change (0 <? 0)%nat with false.
    change (0 =? 0)%nat with true. cbn [andb orb st_i st_j tempActual].
    unfold chunk. rewrite matched_snoc_other by done.
    replace (S i - 1)%nat with i by lia. by rewrite !lcsL_col0.
  - change (0 <? S i)%nat with true. change (0 <? S j)%nat with true.
    change (S i =? 0)%nat with false. change (S j =? 0)%nat with false.
    cbn [andb orb]. unfold chunk.
    replace (S i - 1)%nat with i by lia. replace (S j - 1)%nat with j by lia.
    rewrite (lcsL_S_S aT eT i j).
    destruct (tok_eqb aT eT (S i) (S j)) eqn:Eq; cbn [st_i st_j tempActual].
    + rewrite matched_snoc_match, length_app. simpl. lia.
    + rewrite !lcs_table_spec by lia.
      destruct (Z.geb_spec (lcsL aT eT (S i) j) (lcsL aT eT i (S j))) as [Hge|Hlt];
        cbn [st_i st_j tempActual].
      * lia.
      * assert ((lcsL aT eT (S i) j <? lcsL aT eT i (S j)) = true) as ->
          by (by apply Z.ltb_lt).
        cbn [st_i st_j tempActual]. rewrite matched_snoc_other by done. lia.
Qed.

Lemma diff_tokens_longest fuel aC eC :
  diff_tokens fuel aT eT = Some (aC, eC) →
  Z.of_nat (length (matched aC)) = lcsL aT eT (length aT) (length eT)
  ∧ value <$> aC = aT ∧ value <$> eC = eT ∧ matched aC = matched eC.
Proof.
  unfold diff_tokens.
  destruct (backtrack fuel aT eT (lcs_table aT eT)
              (mkState (length aT) (length eT) [] [])) as [st|] eqn:E; simpl; [|done].
  intros [= <- <-].
  pose (st0 := mkState (length aT) (length eT) [] []).
  pose (P := fun s => backtrack_inv aT eT s
                      ∧ actual_trace aT s = actual_trace aT st0
                      ∧ expected_trace eT s = expected_trace eT st0
                      ∧ match_count aT eT s = match_count aT eT st0).
  destruct (backtrack_keeps (lcs_table aT eT) P) with (fuel := fuel) (st := st0) (st' := st)
    as ((Hinv & HA & HE & Hc) & Hi & Hj).
  - intros s (Hs & HsA & HsE & Hsc) Hpos.
    destruct (backtrack_step_spec aT eT (lcs_table aT eT) s Hs Hpos) as (H1 & H2 & H3 & _).
    destruct Hs as (Hsi & Hsj & _).
    split; [done|]. rewrite H2, H3, backtrack_step_count by done. done.
  - split; [|done]. unfold backtrack_inv. simpl. repeat split; try done; lia.
  - done.
  - destruct Hinv as (_ & _ & _ & _ & Hm).
    assert (∀ cs, matched (reverse cs) = reverse (matched cs)) as Hrev.
    { intros cs. unfold matched. by rewrite filter_reverse, fmap_reverse. }
    unfold match_count, actual_trace, expected_trace in *. rewrite Hi, Hj in *.
    subst st0. cbn [st_i st_j tempActual tempExpected] in *.
    rewrite !firstn_all in *. cbn [take reverse fmap list_fmap app] in *.
    rewrite !app_nil_r in *. change (lcsL aT eT 0 0) with 0 in Hc.
    change (matched []) with (@nil (list N)) in Hc. simpl length in Hc.
    rewrite !Hrev, !fmap_reverse, HA, HE, !reverse_involutive, length_reverse, Hm.
    split; [|done]. rewrite <- Hm. lia.
Qed.

End LcsBacktrack.

(** X17: the tokens that the diff matches are a longest common subsequence
    of the two token lists: they appear in both lists in that order, and no
    list of tokens that does is longer. *)
Theorem computeWordDiff_longest_match fuel actual expected aT eT aC eC l :
  tokenize fuel actual = Some aT → tokenize fuel expected = Some eT →
  computeWordDiff fuel actual expected = Some (aC, eC) →
  matched aC `sublist_of` aT ∧ matched aC `sublist_of` eT
  ∧ (l `sublist_of` aT → l `sublist_of` eT → (length l ≤ length (matched aC))%nat).
Proof.
  intros HaT HeT. unfold computeWordDiff. rewrite HaT, HeT. simpl. intros Hd.
  apply diff_tokens_longest in Hd as (Hlen & Ha & He & Hm).
  assert (∀ cs, matched cs `sublist_of` value <$> cs) as Hsub.
  { intros cs. unfold matched. apply fmap_sublist, sublist_filter. }
  split; [rewrite <- Ha; apply Hsub | split; [rewrite Hm, <- He; apply Hsub|]].
  intros Hla Hle.
  pose proof (lcsL_upper aT eT (length aT + length eT) (length aT) (length eT) l
                ltac:(lia) ltac:(lia) ltac:(lia)) as Hup.
  rewrite !firstn_all in Hup. specialize (Hup Hla Hle). lia.
Qed.

(** An instance of X17: of ["a b c"] and ["a c b"], the diff matches the
    three tokens [a], [ ], [c]; the common tokens [a], [ ], [b] are not
    more. *)
Lemma computeWordDiff_longest_match_witness :
  let aT := [lit "a"; lit " "; lit "b"; lit " "; lit "c"] in
  let eT := [lit "a"; lit " "; lit "c"; lit " "; lit "b"] in
  let m := [lit "a"; lit " "; lit "c"] in
  m `sublist_of` aT ∧ m `sublist_of` eT
  ∧ ([lit "a"; lit " "; lit "b"] `sublist_of` aT →
     [lit "a"; lit " "; lit "b"] `sublist_of` eT → (3 ≤ length m)%nat).
Proof.
  intros aT eT m.
  apply (computeWordDiff_longest_match 30 (lit "a b c") (lit "a c b") aT eT
           [mkChunk (lit "a") match_; mkChunk (lit " ") mismatch_actual;
            mkChunk (lit "b") mismatch_actual; mkChunk (lit " ") match_;
            mkChunk (lit "c") match_]
           [mkChunk (lit "a") match_; mkChunk (lit " ") match_;
            mkChunk (lit "c") match_; mkChunk (lit " ") mismatch_expected;
            mkChunk (lit "b") mismatch_expected]
           [lit "a"; lit " "; lit "b"]).
  - vm_compute. reflexivity.
  - vm_compute. reflexivity.
  - vm_compute. reflexivity.
Defined.

(** ** More on pattern detection *)

Section DetectMore.

Implicit Types (r : regex) (txt m : list N) (es entities : list DetectedEntity).

Lemma rep_minlen (step : nat → list nat) (k : nat) :
  (∀ i j, j ∈ step i → (i + k ≤ j)%nat) →
  ∀ max min i j, j ∈ rep step min max i → (i + Nat.min min max * k ≤ j)%nat.
Proof.
  intros Hstep. induction max as [|max IH]; intros min i j; simpl.
  - intros H. apply list_elem_of_singleton in H as ->. lia.
  - intros H. apply elem_of_app in H as [H|H].
    + apply list_elem_of_bind in H as (j' & Hj & Hj').
      apply Hstep in Hj'.
      destruct ((min =? 0)%nat && (j' =? i)%nat); [by apply not_elem_of_nil in Hj|].
      apply IH in Hj. destruct min as [|min]; simpl in *; lia.
    + destruct (Nat.eqb_spec min 0) as [->|]; [|by apply not_elem_of_nil in H].
      apply list_elem_of_singleton in H as ->. simpl. lia.
Qed.

Lemma ends_minlen r s : ∀ i j, j ∈ ends r s i → (i + minlen r ≤ j)%nat.
Proof.
  induction r as [|p|r1 IH1 r2 IH2|r1 IH1 r2 IH2|r IH min max|r IH min|];
    intros i j; simpl.
  - intros H. apply list_elem_of_singleton in H as ->. lia.
  - destruct (s !! i) as [c|]; [|intros H; by apply not_elem_of_nil in H].
    destruct (p c); intros H; [|by apply not_elem_of_nil in H].
    apply list_elem_of_singleton in H as ->. lia.
  - intros H. apply list_elem_of_bind in H as (k & Hj & Hk).
    apply IH1 in Hk. apply IH2 in Hj. lia.
  - intros H. apply elem_of_app in H as [H|H]; [apply IH1 in H | apply IH2 in H]; lia.
  - intros H. by apply (rep_minlen _ _ IH) in H.
  - intros H. apply (rep_minlen _ _ IH) in H.
    replace (Nat.min min (min + length s)) with min in H by lia. done.
  - destruct (xorb _ _); intros H; [|by apply not_elem_of_nil in H].
    apply list_elem_of_singleton in H as ->. lia.
Qed.

Lemma exec_minlen r txt lastIndex b e :
  exec r txt lastIndex = Some (b, e) → (b + minlen r ≤ e ≤ length txt)%nat.
Proof.
  intros H. apply exec_bounds in H as (_ & Hbe & Hm). split; [|lia].
  apply (ends_minlen r txt). unfold match_at in Hm.
  destruct (ends r txt b); simplify_eq/=. apply list_elem_of_here.
Qed.

(** X18: the length test of the phone loop never rejects anything: every
    match of the phone pattern has ten code units or more and is pushed as
    a phone-number entity. *)
Theorem phone_match_always_pushed txt lastIndex b e entities :
  exec phoneRegex txt lastIndex = Some (b, e) →
  (b + 10 ≤ e)%nat
  ∧ push_phone (substring txt b e) entities
    = entities ++ [entity (substring txt b e) PHONE_NUMBER].
Proof.
  intros H. apply exec_minlen in H. change (minlen phoneRegex) with 10%nat in H.
  split; [lia|]. unfold push_phone, push, len, substring.
  rewrite length_take, length_drop.
  destruct (Z.geb_spec (Z.of_nat (Nat.min (e - b) (length txt - b))) 10); [done | lia].
Qed.

(** An instance of X18. *)
Lemma phone_match_always_pushed_witness :
  (5 + 10 ≤ 17)%nat
  ∧ push_phone (substring (lit "call 212-555-0199.") 5 17) []
    = [] ++ [entity (substring (lit "call 212-555-0199.") 5 17) PHONE_NUMBER].
Proof.
  apply (phone_match_always_pushed (lit "call 212-555-0199.") 0 5 17 []).
  vm_compute. reflexivity.
Defined.

(** A property of the entity list that the loop body keeps, for the matches
    that the loop can meet, holds when the loop ends. *)
Lemma exec_loop_matches (P : list DetectedEntity → Prop) r txt body :
  (0 < minlen r)%nat →
  (∀ b e es, (b < e ≤ length txt)%nat → P es → P (body (substring txt b e) es)) →
  ∀ fuel lastIndex entities es,
    P entities → exec_loop fuel r txt lastIndex body entities = Some es → P es.
Proof.
  intros Hr Hbody. induction fuel as [|fuel IH]; intros lastIndex entities es HP;
    simpl; [done|].
  destruct (exec r txt lastIndex) as [[b e]|] eqn:E.
  - apply exec_minlen in E. apply IH. apply Hbody; [lia | done].
  - by intros [= <-].
Qed.

Lemma substring_occurs txt b e : (b < e ≤ length txt)%nat →
  substring txt b e ≠ [] ∧ occurs_at txt (substring txt b e) b.
Proof.
  intros Hbe.
  assert (length (substring txt b e) = (e - b)%nat) as Hlen.
  { unfold substring. rewrite length_take, length_drop. lia. }
  split.
  - intros E. rewrite E in Hlen. simpl in Hlen. lia.
  - unfold occurs_at. rewrite Hlen. split; [lia|].
    by replace (b + (e - b))%nat with e by lia.
Qed.

Lemma push_detected txt ty b e es :
  ty ≠ PERSON → ty ≠ LOCATION → (b < e ≤ length txt)%nat →
  Forall (detected_in txt) es → Forall (detected_in txt) (push ty (substring txt b e) es).
Proof.
  intros H1 H2 Hbe Hes. unfold push. apply Forall_app. split; [done|].
  constructor; [|constructor]. destruct (substring_occurs txt b e Hbe) as [Hne Hocc].
  unfold detected_in. simpl. eauto 10.
Qed.

Lemma detectRegexEntities_entities_list fuel txt es :
  detectRegexEntities fuel txt = Some es → Forall (detected_in txt) es.
Proof.
  unfold detectRegexEntities. intros Hdet.
  repeat match type of Hdet with
  | (exec_loop ?f ?r ?t ?i ?b ?acc ≫= _) = Some _ =>
      let E := fresh "E" in
      destruct (exec_loop f r t i b acc) eqn:E; simpl in Hdet; [|done]
  end.
  assert (Forall (detected_in txt) []) as H0 by constructor.
  assert (∀ ty, ty ≠ PERSON → ty ≠ LOCATION →
            ∀ b e es, (b < e ≤ length txt)%nat → Forall (detected_in txt) es →
                      Forall (detected_in txt) (push ty (substring txt b e) es)) as Hpush
    by (intros; by apply push_detected).
  pose proof (exec_loop_matches (Forall (detected_in txt)) emailRegex txt _
                ltac:(vm_compute; lia) (Hpush EMAIL_ADDRESS ltac:(done) ltac:(done))
                _ _ _ _ H0 E) as H1.
  pose proof (exec_loop_matches (Forall (detected_in txt)) ipRegex txt _
                ltac:(vm_compute; lia) (Hpush IP_ADDRESS ltac:(done) ltac:(done))
                _ _ _ _ H1 E0) as H2.
  pose proof (exec_loop_matches (Forall (detected_in txt)) urlRegex txt _
                ltac:(vm_compute; lia) (Hpush URL ltac:(done) ltac:(done))
                _ _ _ _ H2 E1) as H3.
  pose proof (exec_loop_matches (Forall (detected_in txt)) ccRegex txt _
                ltac:(vm_compute; lia) (Hpush CREDIT_CARD ltac:(done) ltac:(done))
                _ _ _ _ H3 E2) as H4.
  assert (Forall (detected_in txt) l3) as H5.
  { eapply (exec_loop_matches (Forall (detected_in txt)) phoneRegex txt push_phone);
      [vm_compute; lia | | exact H4 | exact E3].
    intros b e es' Hbe Hes'. unfold push_phone.
    destruct (len (substring txt b e) >=? 10); [by apply Hpush | done]. }
  assert (Forall (detected_in txt) l4) as H6.
  { eapply (exec_loop_matches (Forall (detected_in txt)) dateRegex txt push_date);
      [vm_compute; lia | | exact H5 | exact E4].
    intros b e es' Hbe Hes'. unfold push_date.
    destruct (len (substring txt b e) <=? 10); [by apply Hpush | done]. }
  exact (exec_loop_matches (Forall (detected_in txt)) timeRegex txt _
           ltac:(vm_compute; lia) (Hpush DATE_TIME ltac:(done) ltac:(done))
           _ _ _ _ H6 Hdet).
Qed.

(** X19: every entity that the detector returns has a text that is not
    empty and occurs in the input, no range yet, and a category other than
    PERSON and LOCATION. *)
Theorem detectRegexEntities_entities fuel txt es :
  detectRegexEntities fuel txt = Some es → Forall (detected_in txt) es.
Proof. apply detectRegexEntities_entities_list. Qed.

(** An instance of X19. *)
Lemma detectRegexEntities_entities_witness :
  Forall (detected_in (lit "at 14:30 PM from 192.168.1.45"))
    [entity (lit "192.168.1.45") IP_ADDRESS; entity (lit "14:30 PM") DATE_TIME].
Proof.
  apply (detectRegexEntities_entities 30 (lit "at 14:30 PM from 192.168.1.45")).
  vm_compute. reflexivity.
Defined.

(** X20: redaction of what the detector finds always returns: with more
    rounds than the text has code units, the detector returns entities, the
    redaction of the text with them returns a result, and unless nothing
    was detected it resolves at least one range. *)
Theorem detect_then_redact_returns fuel txt mode :
  (length txt < fuel)%nat →
  ∃ es res, detectRegexEntities fuel txt = Some es
          ∧ applyRedaction fuel txt es mode = Some res
          ∧ (es ≠ [] → entitiesWithIndices res ≠ []).
Proof.
  intros Hfuel.
  destruct (detectRegexEntities_total fuel txt Hfuel) as [es Hes].
  pose proof (detectRegexEntities_entities_list _ _ _ Hes) as Hall.
  destruct (proj2 (applyRedaction_returns_iff fuel txt es mode Hfuel)) as [res Hr].
  { eapply Forall_impl; [done|]. by intros e (? & _). }
  exists es, res. split; [done | split; [done|]].
  intros Hne. destruct es as [|e es]; [done|].
  inversion Hall as [|? ? (_ & (k & Hocc) & _) _]; subst.
  destruct (redaction_covers fuel txt (e :: es) mode res e k Hr) as (p & Hp & _);
    [apply list_elem_of_here | done |].
  intros E. rewrite E in Hp. by apply not_elem_of_nil in Hp.
Qed.

(** An instance of X20. *)
Lemma detect_then_redact_returns_witness :
  ∃ es res, detectRegexEntities 17 (lit "IP: 10.0.0.1 end") = Some es
          ∧ applyRedaction 17 (lit "IP: 10.0.0.1 end") es MASK = Some res
          ∧ (es ≠ [] → entitiesWithIndices res ≠ []).
Proof. apply detect_then_redact_returns. simpl. lia. Defined.

End DetectMore.

(** ** The panel *)

Section PanelFacts.

Local Open Scope Q_scope.

Lemma similarity_lev_facts (a b : list N) :
  let score := calculateSimilarity a b (inject_Z (calculateLevenshteinDistance a b)) in
  0 <= score ∧ score <= 100 ∧ (score == 100 ↔ a = b).
Proof.
  intros score. subst score.
  unfold calculateSimilarity, calculateSimilarity_rounded, Math_max.
  destruct (Z.eqb_spec (Z.max (len a) (len b)) 0) as [E|E].
  - apply maxLength_zero in E as [-> ->].
    split; [done | split; [apply Qle_refl | done]].
  - pose proof (lev_nonneg a b) as Hd0. pose proof (lev_upper a b) as Hdm.
    assert (0 < Z.max (len a) (len b))%Z as Hm by (unfold len in *; lia).
    destruct (ratio_facts _ _ Hm (conj Hd0 Hdm)) as (Hx0 & Hx1 & Hx).
    rewrite (Q.max_r _ _ Hx0).
    split; [done | split; [done|]].
    rewrite Hx. apply lev_zero_iff.
Qed.

Lemma truthy_nonempty (s : list N) : truthy s = true ↔ s ≠ [].
Proof. by destruct s. Qed.

(** X21: the statistics that [updateStats] sets: the similarity score is
    between [0] and [100], and [100] only when nothing was redacted; there
    is an accuracy score exactly when the expected text has something other
    than white space, and then it is between [0] and [100], and [100] only
    when the redacted text is the expected text. *)
Theorem updateStats_scores (original redacted expected : list N) (count : Z) :
  let s := updateStats original redacted expected count in
  0 <= similarityScore s ∧ similarityScore s <= 100
  ∧ (similarityScore s == 100 ↔ original = redacted)
  ∧ (accuracyScore s = None ↔ trim expected = [])
  ∧ (∀ a, accuracyScore s = Some a →
          0 <= a ∧ a <= 100 ∧ (a == 100 ↔ expected = redacted)).
Proof.
  intros s. subst s. unfold updateStats. cbn [similarityScore accuracyScore].
  destruct (similarity_lev_facts original redacted) as (H1 & H2 & H3).
  split; [done | split; [done | split; [done|]]].
  destruct (trim expected) as [|c t] eqn:Et; cbn [truthy].
  - split; [done|]. intros a [=].
  - split; [split; intros [=]|]. intros a [= <-].
    apply similarity_lev_facts.
Qed.


End PanelFacts.

Section PipelineFacts.

Implicit Types (ai : list DetectedEntity).

Lemma merge_texts_nonempty ai (regexEntities : list DetectedEntity) :
  Forall (fun e => text e ≠ []) regexEntities →
  Forall (fun e => text e ≠ []) (mergeEntities ai regexEntities)
  ↔ Forall (fun e => text e ≠ []) ai.
Proof.
  intros Hre. rewrite mergeEntities_filter, Forall_app. split; [by intros [? _]|].
  intros Hai. split; [done|].
  apply Forall_forall. intros e He. apply list_elem_of_filter in He as [_ He].
  by apply (proj1 (Forall_forall _ _) Hre).
Qed.

Lemma local_stage_returns fuel inputText mode : (length inputText < fuel)%nat →
  ∃ regexEntities r,
    detectRegexEntities fuel inputText = Some regexEntities
    ∧ applyRedaction fuel inputText regexEntities mode = Some r
    ∧ Forall (fun e => text e ≠ []) regexEntities.
Proof.
  intros Hfuel.
  destruct (detectRegexEntities_total fuel inputText Hfuel) as [es Hes].
  assert (Forall (fun e => text e ≠ []) es) as Hne.
  { eapply Forall_impl; [by eapply detectRegexEntities_entities_list|].
    by intros e (? & _). }
  destruct (proj2 (applyRedaction_returns_iff fuel inputText es mode Hfuel) Hne)
    as [r Hr].
  eauto.
Qed.



(** X24: on an input that is not blank, [processText] ends exactly when no
    entity that the extractor gave has the empty text. *)
Theorem processText_ends_iff fuel inputText expectedText mode ai :
  (length inputText < fuel)%nat → trim inputText ≠ [] →
  is_Some (processText fuel inputText expectedText mode (Some ai))
  ↔ Forall (fun e => text e ≠ []) ai.
Proof.
  intros Hfuel Hin. unfold processText.
  apply truthy_nonempty in Hin. rewrite Hin. cbn [negb].
  destruct (local_stage_returns fuel inputText mode Hfuel) as (es & r & -> & Hr & Hne).
  cbn [mbind option_bind]. rewrite Hr. cbn [mbind option_bind].
  rewrite <- (merge_texts_nonempty ai es Hne).
  rewrite <- (applyRedaction_returns_iff fuel inputText _ mode Hfuel).
  destruct (applyRedaction fuel inputText (mergeEntities ai es) mode); cbn [mbind option_bind].
  - split; intros _; by eexists.
  - split; intros [? [=]].
Qed.

(** An instance of X24: an entity with the empty text from the extractor. *)
Lemma processText_ends_iff_witness :
  is_Some (processText 17 (lit "IP: 10.0.0.1 end") [] MASK (Some [entity [] PERSON]))
  ↔ Forall (fun e => text e ≠ []) [entity [] PERSON].
Proof.
  apply processText_ends_iff; [simpl; lia | vm_compute; discriminate].
Defined.

End PipelineFacts.

Section EvaluationFacts.

Implicit Types (cs aC eC : list DiffChunk).

Lemma render_own_side cs (ty : side) :
  Forall (match ty with actual_side => actual_kind | expected_side => expected_kind end) cs →
  (None ∉ renderDiffPanel cs ty)
  ∧ snd <$> omap id (renderDiffPanel cs ty) = value <$> cs.
Proof.
  unfold renderDiffPanel. induction 1 as [|c cs Hc _ [IH1 IH2]].
  - split; [apply not_elem_of_nil | done].
  - assert (∃ st, render_chunk ty c = Some (st, value c)) as [st Hst].
    { unfold render_chunk. destruct ty, Hc as [-> | ->]; eauto. }
    rewrite fmap_cons, Hst. split.
    + intros H. apply elem_of_cons in H as [H|H]; [done | by apply IH1].
    + simpl. f_equal. exact IH2.
Qed.

(** X25: rendering the chunks of a diff, each list on its own side, leaves
    no chunk out, and the texts of the spans of a side make up the text of
    that side. *)
Theorem renderDiffPanel_shows_all fuel actual expected :
  (2 * (length actual + length expected) < fuel)%nat →
  ∃ aC eC,
    computeWordDiff fuel actual expected = Some (aC, eC)
    ∧ (None ∉ renderDiffPanel aC actual_side)
    ∧ (None ∉ renderDiffPanel eC expected_side)
    ∧ concat (snd <$> omap id (renderDiffPanel aC actual_side)) = actual
    ∧ concat (snd <$> omap id (renderDiffPanel eC expected_side)) = expected.
Proof.
  intros Hfuel.
  destruct (tokenize_spec fuel actual ltac:(lia)) as (aT & HaT & Hca & _ & Hla).
  destruct (tokenize_spec fuel expected ltac:(lia)) as (eT & HeT & Hce & _ & Hle).
  destruct (diff_tokens_spec aT eT fuel ltac:(lia))
    as (aC & eC & Hd & Ha & He & HkA & HkE & _).
  exists aC, eC. unfold computeWordDiff. rewrite HaT, HeT. simpl.
  destruct (render_own_side aC actual_side HkA) as [H1 H2].
  destruct (render_own_side eC expected_side HkE) as [H3 H4].
  rewrite H2, H4, Ha, He. done.
Qed.

(** An instance of X25. *)
Lemma renderDiffPanel_shows_all_witness :
  ∃ aC eC,
    computeWordDiff 15 (lit "a b") (lit "a, c") = Some (aC, eC)
    ∧ (None ∉ renderDiffPanel aC actual_side)
    ∧ (None ∉ renderDiffPanel eC expected_side)
    ∧ concat (snd <$> omap id (renderDiffPanel aC actual_side)) = lit "a b"
    ∧ concat (snd <$> omap id (renderDiffPanel eC expected_side)) = lit "a, c".
Proof. apply renderDiffPanel_shows_all. simpl. lia. Defined.

Lemma matched_all cs : Forall is_match cs → matched cs = value <$> cs.
Proof. intros H. unfold matched. by rewrite filter_all. Qed.

(** X26: the two results of an evaluation agree: when the expected text has
    something other than white space, [runEvaluation] sets an accuracy
    score and a diff, and the score is [100] exactly when the diff has no
    mismatch chunk on either side. *)
Theorem runEvaluation_consistent fuel inputText shown expectedText count :
  (2 * (length shown + length expectedText) < fuel)%nat →
  shown ≠ [] → trim expectedText ≠ [] →
  ∃ s aC eC a,
    runEvaluation fuel inputText shown expectedText count = Some (Some (s, (aC, eC)))
    ∧ accuracyScore s = Some a
    ∧ ((a == 100)%Q ↔ Forall is_match aC ∧ Forall is_match eC).
Proof.
  intros Hfuel Hshown Hexp.
  assert (expectedText ≠ []) as Hexp' by (intros ->; by apply Hexp).
  unfold runEvaluation.
  rewrite (proj2 (truthy_nonempty shown) Hshown).
  rewrite (proj2 (truthy_nonempty expectedText) Hexp'). cbn [negb orb].
  destruct (tokenize_spec fuel shown ltac:(lia)) as (aT & HaT & Hca & _ & Hla).
  destruct (tokenize_spec fuel expectedText ltac:(lia)) as (eT & HeT & Hce & _ & Hle).
  destruct (diff_tokens_spec aT eT fuel ltac:(lia))
    as (aC & eC & Hd & Ha & He & _ & _ & Hm).
  assert (computeWordDiff fuel shown expectedText = Some (aC, eC)) as ->
    by (unfold computeWordDiff; by rewrite HaT, HeT).
  cbn [mbind option_bind].
  eexists _, aC, eC, _. split; [done|].
  unfold updateStats. cbn [accuracyScore].
  rewrite (proj2 (truthy_nonempty (trim expectedText)) Hexp). split; [done|].
  destruct (similarity_lev_facts expectedText shown) as (_ & _ & ->).
  split.
  - intros <-. rewrite HaT in HeT. injection HeT as <-.
    rewrite diff_tokens_same in Hd by lia. injection Hd as <- <-.
    split; apply all_match_spec.
  - intros [HA HE]. rewrite (matched_all aC HA), (matched_all eC HE), Ha, He in Hm.
    by rewrite <- Hca, <- Hce, Hm.
Qed.

(** An instance of X26. *)
Lemma runEvaluation_consistent_witness :
  ∃ s aC eC a,
    runEvaluation 15 (lit "x") (lit "a b") (lit "a, c") 0 = Some (Some (s, (aC, eC)))
    ∧ accuracyScore s = Some a
    ∧ ((a == 100)%Q ↔ Forall is_match aC ∧ Forall is_match eC).
Proof.
  apply runEvaluation_consistent; [simpl; lia | discriminate | vm_compute; discriminate].
Defined.

(** X27: a change of mode after a redaction always gets its text: the
    redaction of the same input with the entities that a redaction returned
    returns, in either mode. *)
Theorem mode_effect_returns fuel inputText expectedText es mode r mode' :
  (length inputText < fuel)%nat →
  applyRedaction fuel inputText es mode = Some r →
  entitiesWithIndices r ≠ [] →
  ∃ t s, mode_effect fuel inputText expectedText (entitiesWithIndices r) false mode'
         = Some (Some (t, s)).
Proof.
  intros Hfuel Hr Hne. unfold mode_effect.
  assert ((0 <? Z.of_nat (length (entitiesWithIndices r))) = true) as ->.
  { apply Z.ltb_lt. destruct (entitiesWithIndices r); [done | simpl; lia]. }
  cbn [negb andb].
  destruct (applyRedaction_resolved_in_list _ _ _ _ _ Hr) as [Hres _].
  destruct (proj2 (applyRedaction_returns_iff fuel inputText
                     (entitiesWithIndices r) mode' Hfuel)) as [r' ->].
  - eapply Forall_impl; [done|].
    intros e (st & en & _ & _ & Hse & Hen & Ht) E. rewrite E in Ht.
    unfold substring in Ht. symmetry in Ht. apply (f_equal length) in Ht.
    rewrite length_take, length_drop in Ht. simpl in Ht. unfold len in Hen. lia.
  - cbn [mbind option_bind]. eauto.
Qed.

(** An instance of X27. *)
Lemma mode_effect_returns_witness :
  ∃ t s, mode_effect 17 (lit "IP: 10.0.0.1 end") []
           [mkEntity (lit "10.0.0.1") IP_ADDRESS (Some 4) (Some 12)] false REMOVE
         = Some (Some (t, s)).
Proof.
  apply (mode_effect_returns 17 (lit "IP: 10.0.0.1 end") []
           [entity (lit "10.0.0.1") IP_ADDRESS] MASK
           (mkResult (lit "IP: [IP_ADDRESS] end")
              [mkEntity (lit "10.0.0.1") IP_ADDRESS (Some 4) (Some 12)]) REMOVE).
  - simpl. lia.
  - vm_compute. reflexivity.
  - discriminate.
Defined.

End EvaluationFacts.
